(** * Arcane Ledger (mtg-tracker): collection and deck state, row codec,
      debounced save and derived views

    A shallow embedding of the client-side core of the tracker
    (the single-page React source): the row codec ([cardToRow], [rowToCard],
    [deckToRow], [rowToDeck]), [getTypePermutation], the collection
    mutations ([addToCollection], [removeFromCollection]), [loadFromSheets],
    the debounce of [triggerSave], the deck colour identity of [DeckEditor]
    and the combo scoring of [findCombos].

    JavaScript data is modelled as the code has it:
    - a string is the list of its UTF-16 code units ([jstr]);
    - a value that went through, or can go to, JSON is a [json] tree; a
      missing property or array slot ([undefined]) is [None] of
      [option json];
    - an object is the list of its own properties in property order;
    - a number is an exact decimal ([number]): JS rounds to the nearest
      IEEE double, which is the same thing for the integers below 2^53 that
      quantities, counts and timestamps are.  *)

From Stdlib Require Import String Ascii.
From Stdlib Require Import List ZArith NArith QArith Bool Lia Lqa.
From Stdlib Require Import Permutation Sorted.
From Stdlib Require Decimal DecimalFacts DecimalPos DecimalN.
Import ListNotations.

Set Implicit Arguments.

(* ================================================================== *)
(** * 1. JavaScript values                                              *)
(* ================================================================== *)

(** ** 1.1 Strings: UTF-16 code units *)

Definition jstr := list N.

Definition jstr_eqb (a b : jstr) : bool :=
  if list_eq_dec N.eq_dec a b then true else false.

(** [js] reads a literal of this file (UTF-8 bytes) as a JS string.  A
    malformed byte sequence gives U+FFFD. *)
Definition cont (a : ascii) : N := N_of_ascii a - 128.

Definition utf16 (cp : N) : jstr :=
  if (cp <? 65536)%N then [cp]
  else [(55296 + (cp - 65536) / 1024)%N; (56320 + (cp - 65536) mod 1024)%N].

Fixpoint js (s : string) : jstr :=
  match s with
  | EmptyString => []
  | String a r =>
    let b := N_of_ascii a in
    if (b <? 128)%N then b :: js r
    else match r with
    | String a1 r1 =>
      if (b <? 224)%N then ((b - 192) * 64 + cont a1)%N :: js r1
      else match r1 with
      | String a2 r2 =>
        if (b <? 240)%N
        then ((b - 224) * 4096 + cont a1 * 64 + cont a2)%N :: js r2
        else match r2 with
        | String a3 r3 =>
          utf16 ((b - 240) * 262144 + cont a1 * 4096 + cont a2 * 64 + cont a3)%N
            ++ js r3
        | EmptyString => [65533%N]
        end
      | EmptyString => [65533%N]
      end
    | EmptyString => [65533%N]
    end
  end.

(** ** 1.2 Numbers: exact decimals *)

(** [Int z] is the integer [z]; [Frac m k] is [m / 10^k] with [m] not a
    multiple of 10, so that a number has one representation. *)
Inductive number :=
| Int (z : Z)
| Frac (m : Z) (k : positive).

Definition number_eqb (a b : number) : bool :=
  match a, b with
  | Int x, Int y => Z.eqb x y
  | Frac m k, Frac m' k' => Z.eqb m m' && Pos.eqb k k'
  | _, _ => false
  end.

Definition number_is_zero (a : number) : bool :=
  match a with Int z => Z.eqb z 0 | Frac _ _ => false end.

(** [a + 1] *)
Definition number_succ (a : number) : number :=
  match a with
  | Int z => Int (z + 1)
  | Frac m k => Frac (m + 10 ^ Zpos k) k
  end.

(** ** 1.3 Values *)

#[warnings="-register-all"]
Inductive json :=
| JNull
| JBool (b : bool)
| JNum (n : number)
| JStr (s : jstr)
| JArr (l : list json)
| JObj (o : list (jstr * json)).

(** An object: its own enumerable properties, in property order.  JS lists
    array-index keys first; the model keeps insertion order for them too,
    which changes the order of the properties only, never what a property
    holds. *)
Definition obj := list (jstr * json).

(** [undefined] is [None]. *)
Definition jsval := option json.

Definition undefined : jsval := None.

(** ToBoolean *)
Definition truthy (v : json) : bool :=
  match v with
  | JNull => false
  | JBool b => b
  | JNum n => negb (number_is_zero n)
  | JStr s => match s with [] => false | _ => true end
  | JArr _ => true
  | JObj _ => true
  end.

Definition truthy_val (v : jsval) : bool :=
  match v with Some x => truthy x | None => false end.

(** [a || b], with [b] a defined value *)
Definition js_or (a : jsval) (b : json) : json :=
  match a with
  | Some v => if truthy v then v else b
  | None => b
  end.

(** [a === b].  Primitives compare by value.  Arrays and objects compare by
    reference: two values that were parsed, fetched or built apart are
    never the same object, and the model answers [false] for them. *)
Definition strict_eq (a b : jsval) : bool :=
  match a, b with
  | None, None => true
  | Some JNull, Some JNull => true
  | Some (JBool x), Some (JBool y) => Bool.eqb x y
  | Some (JNum x), Some (JNum y) => number_eqb x y
  | Some (JStr x), Some (JStr y) => jstr_eqb x y
  | _, _ => false
  end.

(** ** 1.4 Objects *)

(** [o[k]] for an own property *)
Fixpoint get (k : jstr) (o : obj) : jsval :=
  match o with
  | [] => None
  | (k', v) :: r => if jstr_eqb k k' then Some v else get k r
  end.

(** [o[k] = v] on a copy: an existing property keeps its place. *)
Fixpoint set (k : jstr) (v : json) (o : obj) : obj :=
  match o with
  | [] => [(k, v)]
  | (k', v') :: r => if jstr_eqb k k' then (k, v) :: r else (k', v') :: set k v r
  end.

(** [v.k] for a key that no prototype defines ([id], [name], [qty],
    [collectionId], [color_identity]): the own property of an object,
    [undefined] on any other value but [null] and [undefined], where the
    access throws a TypeError ([None]). *)
Definition member (v : jsval) (k : jstr) : option jsval :=
  match v with
  | None => None
  | Some JNull => None
  | Some (JObj o) => Some (get k o)
  | Some _ => Some None
  end.

(** ** 1.5 Number::toString and ToString *)

Fixpoint uint_units (d : Decimal.uint) : jstr :=
  match d with
  | Decimal.Nil => []
  | Decimal.D0 d => 48%N :: uint_units d
  | Decimal.D1 d => 49%N :: uint_units d
  | Decimal.D2 d => 50%N :: uint_units d
  | Decimal.D3 d => 51%N :: uint_units d
  | Decimal.D4 d => 52%N :: uint_units d
  | Decimal.D5 d => 53%N :: uint_units d
  | Decimal.D6 d => 54%N :: uint_units d
  | Decimal.D7 d => 55%N :: uint_units d
  | Decimal.D8 d => 56%N :: uint_units d
  | Decimal.D9 d => 57%N :: uint_units d
  end.

(** the decimal digits of a natural number, no leading zero *)
Definition digits (n : N) : jstr := uint_units (N.to_uint n).

Fixpoint strip_zeros_rev (r : jstr) : jstr :=
  match r with
  | c :: r' => if (c =? 48)%N then strip_zeros_rev r' else r
  | [] => []
  end.

(** digits without the trailing zeros *)
Definition significant (ds : jstr) : jstr := rev (strip_zeros_rev (rev ds)).

(** The exponent form [d.ddde+x] of Number::toString: [ds] are the
    significant digits and [n] the position of the decimal point. *)
Definition exponent_form (ds : jstr) (n : Z) : jstr :=
  match ds with
  | [] => []
  | d :: rest =>
    (d :: match rest with [] => [] | _ => 46%N :: rest end)
      ++ [101%N] ++ (if (0 <? n - 1)%Z then [43%N] else [45%N])
      ++ digits (Z.to_N (Z.abs (n - 1)))
  end.

(** Number::toString of a positive number with significant digits [ds]
    (no trailing zero) and decimal point after position [n]. *)
Definition positive_to_string (ds : jstr) (n : Z) : jstr :=
  let k := Z.of_nat (length ds) in
  if ((k <=? n) && (n <=? 21))%Z then ds ++ repeat 48%N (Z.to_nat (n - k))
  else if ((0 <? n) && (n <=? 21))%Z
       then firstn (Z.to_nat n) ds ++ [46%N] ++ skipn (Z.to_nat n) ds
  else if ((-6 <? n) && (n <=? 0))%Z
       then [48%N; 46%N] ++ repeat 48%N (Z.to_nat (- n)) ++ ds
  else exponent_form ds n.

Definition number_to_string (a : number) : jstr :=
  match a with
  | Int z =>
    if (z =? 0)%Z then [48%N]
    else
      let ds := digits (Z.to_N (Z.abs z)) in
      (if (z <? 0)%Z then [45%N] else [])
        ++ positive_to_string (significant ds) (Z.of_nat (length ds))
  | Frac m k =>
    let ds := digits (Z.to_N (Z.abs m)) in
    (if (m <? 0)%Z then [45%N] else [])
      ++ positive_to_string ds (Z.of_nat (length ds) - Zpos k)
  end.

Fixpoint join (sep : jstr) (l : list jstr) : jstr :=
  match l with
  | [] => []
  | [x] => x
  | x :: r => x ++ sep ++ join sep r
  end.

(** ToString of a value: [String(v)], and what [+] and [JSON.parse] make
    of a non-string operand. *)
Fixpoint to_string (v : json) : jstr :=
  match v with
  | JNull => js "null"
  | JBool true => js "true"
  | JBool false => js "false"
  | JNum n => number_to_string n
  | JStr s => s
  | JArr l =>
    join [44%N]
      (map (fun e => match e with JNull => [] | _ => to_string e end) l)
  | JObj _ => js "[object Object]"
  end.

Definition to_string_val (v : jsval) : jstr :=
  match v with Some x => to_string x | None => js "undefined" end.

(** [v + 1] for a truthy [v] *)
Definition js_add_one (v : json) : json :=
  match v with
  | JNull => JNum (Int 1)
  | JBool b => JNum (Int (if b then 2 else 1))
  | JNum n => JNum (number_succ n)
  | JStr _ | JArr _ | JObj _ => JStr (to_string v ++ [49%N])
  end.

(** ** 1.6 Spread *)

Fixpoint index_props_from (i : N) (l : list json) : obj :=
  match l with
  | [] => []
  | v :: r => (digits i, v) :: index_props_from (i + 1) r
  end.

(** [{ ...v }]: the own enumerable properties of [v]. *)
Definition spread (v : jsval) : obj :=
  match v with
  | Some (JObj o) => o
  | Some (JArr l) => index_props_from 0 l
  | Some (JStr s) => index_props_from 0 (map (fun c => JStr [c]) s)
  | _ => []
  end.

(** ** 1.7 White space, [trim], [split] *)

(** [\s] of a regular expression, the white space of [trim] and of
    [parseInt]: WhiteSpace and LineTerminator of ECMAScript. *)
Definition is_space (c : N) : bool :=
  ((9 <=? c) && (c <=? 13) || (c =? 32) || (c =? 160) || (c =? 5760)
   || (8192 <=? c) && (c <=? 8202) || (c =? 8232) || (c =? 8233)
   || (c =? 8239) || (c =? 8287) || (c =? 12288) || (c =? 65279))%N.

Fixpoint trim_start (s : jstr) : jstr :=
  match s with
  | c :: r => if is_space c then trim_start r else s
  | [] => []
  end.

Definition trim (s : jstr) : jstr := rev (trim_start (rev (trim_start s))).

Fixpoint starts_with (p s : jstr) : option jstr :=
  match p with
  | [] => Some s
  | a :: p' =>
    match s with
    | b :: s' => if (a =? b)%N then starts_with p' s' else None
    | [] => None
    end
  end.

(** [s.split(sep)[0]] for a non-empty [sep]: the text before the first
    occurrence of [sep], all of [s] when there is none. *)
Fixpoint split_first (sep s : jstr) : jstr :=
  match s with
  | [] => []
  | c :: r =>
    match starts_with sep s with
    | Some _ => []
    | None => c :: split_first sep r
    end
  end.

(** [s.split(/\s+/)]: the pieces between the maximal runs of white space;
    a run at either end leaves an empty piece there. [cur] is the piece
    being read, reversed, and [in_run] says that the last unit was white. *)
Fixpoint split_ws_from (cur : jstr) (in_run : bool) (s : jstr) : list jstr :=
  match s with
  | [] => [rev cur]
  | c :: r =>
    if is_space c
    then (if in_run then split_ws_from cur true r
          else rev cur :: split_ws_from [] true r)
    else split_ws_from (c :: cur) false r
  end.

Definition split_ws (s : jstr) : list jstr := split_ws_from [] false s.

(** ** 1.8 [parseInt] *)

Definition digit_value (radix c : N) : option N :=
  let v :=
    if ((48 <=? c) && (c <=? 57))%N then Some (c - 48)%N
    else if ((97 <=? c) && (c <=? 122))%N then Some (c - 87)%N
    else if ((65 <=? c) && (c <=? 90))%N then Some (c - 55)%N
    else None in
  match v with
  | Some d => if (d <? radix)%N then Some d else None
  | None => None
  end.

(** the value of the longest prefix of digits; [None] when it is empty *)
Fixpoint read_digits (radix : N) (acc : option N) (s : jstr) : option N :=
  match s with
  | [] => acc
  | c :: r =>
    match digit_value radix c with
    | Some d =>
      read_digits radix
        (Some (match acc with Some a => a * radix + d | None => d end)%N) r
    | None => acc
    end
  end.

(** [parseInt(s)] without a radix; [None] is NaN. *)
Definition parseInt (s : jstr) : option Z :=
  let s1 := trim_start s in
  let (neg, s2) :=
    match s1 with
    | c :: r => if (c =? 45)%N then (true, r)
                else if (c =? 43)%N then (false, r) else (false, s1)
    | [] => (false, s1)
    end in
  let (radix, s3) :=
    match s2 with
    | z :: x :: r =>
      if ((z =? 48) && ((x =? 120) || (x =? 88)))%N then (16%N, r)
      else (10%N, s2)
    | _ => (10%N, s2)
    end in
  match read_digits radix None s3 with
  | Some n => Some (if neg then (- Z.of_N n)%Z else Z.of_N n)
  | None => None
  end.

(** [parseInt(v) || 1] *)
Definition parseInt_or_1 (v : jsval) : Z :=
  match parseInt (to_string_val v) with
  | Some n => if (n =? 0)%Z then 1%Z else n
  | None => 1%Z
  end.

(* ================================================================== *)
(** * 2. JSON                                                           *)
(* ================================================================== *)

(** ** 2.1 [JSON.stringify] *)

Definition hex_digit (n : N) : N := (if n <? 10 then 48 + n else 87 + n)%N.

(** [\uXXXX], lower-case digits *)
Definition unicode_escape (c : N) : jstr :=
  [92%N; 117%N; hex_digit (c / 4096); hex_digit ((c / 256) mod 16);
   hex_digit ((c / 16) mod 16); hex_digit (c mod 16)].

Definition is_high (c : N) : bool := ((55296 <=? c) && (c <=? 56319))%N.
Definition is_low (c : N) : bool := ((56320 <=? c) && (c <=? 57343))%N.

(** a unit that is no surrogate *)
Definition quote_unit (c : N) : jstr :=
  if (c =? 8)%N then [92%N; 98%N]
  else if (c =? 9)%N then [92%N; 116%N]
  else if (c =? 10)%N then [92%N; 110%N]
  else if (c =? 12)%N then [92%N; 102%N]
  else if (c =? 13)%N then [92%N; 114%N]
  else if (c =? 34)%N then [92%N; 34%N]
  else if (c =? 92)%N then [92%N; 92%N]
  else if (c <? 32)%N then unicode_escape c
  else [c].

(** QuoteJSONString without the quotes: a surrogate pair goes through, a
    lone surrogate is escaped. *)
Fixpoint quote_body (s : jstr) : jstr :=
  match s with
  | [] => []
  | c :: r =>
    if is_high c then
      match r with
      | d :: r' =>
        if is_low d then c :: d :: quote_body r'
        else unicode_escape c ++ quote_body r
      | [] => unicode_escape c
      end
    else if is_low c then unicode_escape c ++ quote_body r
    else quote_unit c ++ quote_body r
  end.

Definition quote (s : jstr) : jstr := 34%N :: quote_body s ++ [34%N].

(** [JSON.stringify(v)], no indentation *)
Fixpoint JSON_stringify (v : json) : jstr :=
  match v with
  | JNull => js "null"
  | JBool true => js "true"
  | JBool false => js "false"
  | JNum n => number_to_string n
  | JStr s => quote s
  | JArr l =>
    91%N ::
    (fix elements (l : list json) : jstr :=
       match l with
       | [] => [93%N]
       | [x] => JSON_stringify x ++ [93%N]
       | x :: r => JSON_stringify x ++ 44%N :: elements r
       end) l
  | JObj o =>
    123%N ::
    (fix members (o : list (jstr * json)) : jstr :=
       match o with
       | [] => [125%N]
       | [(k, x)] => quote k ++ 58%N :: JSON_stringify x ++ [125%N]
       | (k, x) :: r => quote k ++ 58%N :: JSON_stringify x ++ 44%N :: members r
       end) o
  end.

(** ** 2.2 [JSON.parse] *)

Definition is_json_ws (c : N) : bool :=
  ((c =? 32) || (c =? 9) || (c =? 10) || (c =? 13))%N.

Fixpoint skip_ws (s : jstr) : jstr :=
  match s with
  | c :: r => if is_json_ws c then skip_ws r else s
  | [] => []
  end.

Definition unescape (e : N) : option N :=
  if (e =? 34)%N then Some 34%N
  else if (e =? 92)%N then Some 92%N
  else if (e =? 47)%N then Some 47%N
  else if (e =? 98)%N then Some 8%N
  else if (e =? 102)%N then Some 12%N
  else if (e =? 110)%N then Some 10%N
  else if (e =? 114)%N then Some 13%N
  else if (e =? 116)%N then Some 9%N
  else None.

Definition hex4 (a b c d : N) : option N :=
  match digit_value 16 a, digit_value 16 b, digit_value 16 c, digit_value 16 d with
  | Some x, Some y, Some z, Some w => Some (((x * 16 + y) * 16 + z) * 16 + w)%N
  | _, _, _, _ => None
  end.

(** the characters of a string literal after its opening quote, and what
    follows the closing quote *)
Fixpoint parse_string_body (s : jstr) : option (jstr * jstr) :=
  match s with
  | [] => None
  | c :: r =>
    if (c =? 34)%N then Some ([], r)
    else if (c =? 92)%N then
      match r with
      | e :: r1 =>
        if (e =? 117)%N then
          match r1 with
          | h1 :: h2 :: h3 :: h4 :: r2 =>
            match hex4 h1 h2 h3 h4, parse_string_body r2 with
            | Some u, Some (t, rest) => Some (u :: t, rest)
            | _, _ => None
            end
          | _ => None
          end
        else
          match unescape e, parse_string_body r1 with
          | Some u, Some (t, rest) => Some (u :: t, rest)
          | _, _ => None
          end
      | [] => None
      end
    else if (c <? 32)%N then None
    else
      match parse_string_body r with
      | Some (t, rest) => Some (c :: t, rest)
      | None => None
      end
  end.

Definition is_digit (c : N) : bool := ((48 <=? c) && (c <=? 57))%N.

Fixpoint take_digits (s : jstr) : jstr * jstr :=
  match s with
  | c :: r =>
    if is_digit c then let (ds, rest) := take_digits r in (c :: ds, rest)
    else ([], s)
  | [] => ([], [])
  end.

Definition dec_value (ds : jstr) : N :=
  fold_left (fun a c => a * 10 + (c - 48))%N ds 0%N.

(** [m / 10^k] in its one representation *)
Fixpoint normalize (m : Z) (k : nat) : number :=
  match k with
  | O => Int m
  | S k' =>
    if (m mod 10 =? 0)%Z then normalize (m / 10) k'
    else Frac m (Pos.of_succ_nat k')
  end.

(** the number [sign * m * 10^e] *)
Definition decimal (neg : bool) (m : N) (e : Z) : number :=
  let z := if neg then (- Z.of_N m)%Z else Z.of_N m in
  if (0 <=? e)%Z then Int (z * 10 ^ e) else normalize z (Z.to_nat (- e)).

(** the optional fraction of a number literal: its digits *)
Definition parse_fraction (s : jstr) : option (jstr * jstr) :=
  match s with
  | c :: r =>
    if (c =? 46)%N then
      match take_digits r with
      | ([], _) => None
      | (fs, rest) => Some (fs, rest)
      end
    else Some ([], s)
  | [] => Some ([], s)
  end.

(** the optional exponent of a number literal: its value *)
Definition parse_exponent (s : jstr) : option (Z * jstr) :=
  match s with
  | c :: r =>
    if ((c =? 101) || (c =? 69))%N then
      let (neg, r1) :=
        match r with
        | g :: r' => if (g =? 45)%N then (true, r')
                     else if (g =? 43)%N then (false, r') else (false, r)
        | [] => (false, r)
        end in
      match take_digits r1 with
      | ([], _) => None
      | (es, rest) =>
        Some (if neg then (- Z.of_N (dec_value es))%Z else Z.of_N (dec_value es),
              rest)
      end
    else Some (0%Z, s)
  | [] => Some (0%Z, s)
  end.

(** a number literal after its sign: an integer part without leading
    zero, an optional fraction and an optional exponent *)
Definition parse_unsigned (neg : bool) (s1 : jstr) : option (number * jstr) :=
  match take_digits s1 with
  | ([], _) => None
  | (d :: more, s2) =>
    if ((d =? 48)%N && match more with [] => false | _ => true end) then None
    else
      match parse_fraction s2 with
      | Some (fs, s3) =>
        match parse_exponent s3 with
        | Some (e, s4) =>
          Some (decimal neg (dec_value (d :: more ++ fs))
                        (e - Z.of_nat (length fs)), s4)
        | None => None
        end
      | None => None
      end
  end.

(** a number literal: an optional minus and the rest *)
Definition parse_number (s : jstr) : option (number * jstr) :=
  match s with
  | c :: r => if (c =? 45)%N then parse_unsigned true r else parse_unsigned false s
  | [] => None
  end.

(** the members of an object literal define its properties one after the
    other: a repeated key keeps its first place and its last value *)
Definition define_all (members : list (jstr * json)) : obj :=
  fold_left (fun o kv => set (fst kv) (snd kv) o) members [].

(** A value, and the text after it.  [fuel] bounds the nesting of the
    calls; [JSON_parse] gives enough of it. *)
Fixpoint parse_value (fuel : nat) (s : jstr) : option (json * jstr) :=
  match fuel with
  | O => None
  | S f =>
    match skip_ws s with
    | [] => None
    | c :: r =>
      if (c =? 123)%N then
        match skip_ws r with
        | c' :: r' =>
          if (c' =? 125)%N then Some (JObj [], r')
          else match parse_members f r with
               | Some (ms, rest) => Some (JObj (define_all ms), rest)
               | None => None
               end
        | [] => None
        end
      else if (c =? 91)%N then
        match skip_ws r with
        | c' :: r' =>
          if (c' =? 93)%N then Some (JArr [], r')
          else match parse_elements f r with
               | Some (l, rest) => Some (JArr l, rest)
               | None => None
               end
        | [] => None
        end
      else if (c =? 34)%N then
        match parse_string_body r with
        | Some (t, rest) => Some (JStr t, rest)
        | None => None
        end
      else
        match starts_with (js "null") (c :: r),
              starts_with (js "true") (c :: r),
              starts_with (js "false") (c :: r) with
        | Some rest, _, _ => Some (JNull, rest)
        | _, Some rest, _ => Some (JBool true, rest)
        | _, _, Some rest => Some (JBool false, rest)
        | None, None, None =>
          match parse_number (c :: r) with
          | Some (n, rest) => Some (JNum n, rest)
          | None => None
          end
        end
    end
  end

with parse_elements (fuel : nat) (s : jstr) : option (list json * jstr) :=
  match fuel with
  | O => None
  | S f =>
    match parse_value f s with
    | Some (v, r) =>
      match skip_ws r with
      | c :: r' =>
        if (c =? 44)%N then
          match parse_elements f r' with
          | Some (l, rest) => Some (v :: l, rest)
          | None => None
          end
        else if (c =? 93)%N then Some ([v], r')
        else None
      | [] => None
      end
    | None => None
    end
  end

with parse_members (fuel : nat) (s : jstr) : option (list (jstr * json) * jstr) :=
  match fuel with
  | O => None
  | S f =>
    match skip_ws s with
    | q :: r =>
      if (q =? 34)%N then
        match parse_string_body r with
        | Some (k, r1) =>
          match skip_ws r1 with
          | c :: r2 =>
            if (c =? 58)%N then
              match parse_value f r2 with
              | Some (v, r3) =>
                match skip_ws r3 with
                | d :: r4 =>
                  if (d =? 44)%N then
                    match parse_members f r4 with
                    | Some (ms, rest) => Some ((k, v) :: ms, rest)
                    | None => None
                    end
                  else if (d =? 125)%N then Some ([(k, v)], r4)
                  else None
                | [] => None
                end
              | None => None
              end
            else None
          | [] => None
          end
        | None => None
        end
      else None
    | [] => None
    end
  end.

(** [JSON.parse(s)]; [None] is the SyntaxError it throws. *)
Definition JSON_parse (s : jstr) : option json :=
  match parse_value (2 * length s + 2) s with
  | Some (v, rest) =>
    match skip_ws rest with
    | [] => Some v
    | _ :: _ => None
    end
  | None => None
  end.

(* ================================================================== *)
(** * 3. The row codec                                                  *)
(* ================================================================== *)

(** A collection entry is a plain object: the card payload with [qty] and
    [addedAt]. *)
Definition Card := obj.

(** A sheet row: a JS array of cells.  A cell past the end is
    [undefined]. *)
Definition row := list jsval.

Definition cell (r : row) (i : nat) : jsval := nth i r None.

Record Deck := mkDeck {
  deck_id : jsval;
  deck_name : jsval;
  deck_format : jsval;
  deck_commander : jsval;
  deck_cards : json
}.

Definition k_id : jstr := js "id".
Definition k_name : jstr := js "name".
Definition k_qty : jstr := js "qty".
Definition k_collectionId : jstr := js "collectionId".
Definition k_color_identity : jstr := js "color_identity".

(** [collection.find(c => c[k] === v)] *)
Definition find_by (k : jstr) (v : jsval) (collection : list Card)
  : option Card :=
  find (fun c => strict_eq (get k c) v) collection.

(** [x?.k] on the result of [find] *)
Definition opt_get (k : jstr) (c : option Card) : jsval :=
  match c with Some o => get k o | None => None end.

Definition cardToRow (card : Card) : row :=
  [ get k_id card;
    get k_name card;
    Some (js_or (get (js "set_name") card) (JStr []));
    Some (js_or (get (js "set") card) (JStr []));
    Some (js_or (get (js "collector_number") card) (JStr []));
    Some (JStr (to_string (js_or (get k_qty card) (JNum (Int 1)))));
    Some (JStr (JSON_stringify (js_or (get (js "prices") card) (JObj []))));
    Some (JStr (JSON_stringify (JObj card))) ].

(** [None] is the [null] of the [catch]. *)
Definition rowToCard (r : row) : option Card :=
  match JSON_parse (to_string (js_or (cell r 7) (JStr (js "{}")))) with
  | Some full =>
    Some (set k_qty (JNum (Int (parseInt_or_1 (cell r 5)))) (spread (Some full)))
  | None => None
  end.

Definition deckToRow (deck : Deck) (collection : list Card) : row :=
  let commanderName :=
    if truthy_val (deck_commander deck)
    then js_or (opt_get k_name (find_by k_id (deck_commander deck) collection))
               (JStr [])
    else JStr [] in
  [ deck_id deck;
    deck_name deck;
    Some (js_or (deck_format deck) (JStr []));
    Some commanderName;
    Some (JStr (JSON_stringify (deck_cards deck))) ].

Definition rowToDeck (r : row) (collection : list Card) : option Deck :=
  let commanderName := js_or (cell r 3) (JStr []) in
  let commanderId :=
    if truthy commanderName
    then js_or (opt_get k_id (find_by k_name (Some commanderName) collection))
               (JStr [])
    else JStr [] in
  match JSON_parse (to_string (js_or (cell r 4) (JStr (js "[]")))) with
  | Some cards =>
    Some {| deck_id := cell r 0;
            deck_name := cell r 1;
            deck_format := Some (js_or (cell r 2) (JStr (js "Standard")));
            deck_commander := Some commanderId;
            deck_cards := cards |}
  | None => None
  end.

(** ** Type permutation *)

Definition SUPERTYPES : list jstr :=
  map js ["Legendary"; "Basic"; "Snow"; "World"; "Token"; "Elite"; "Ongoing"]%string.

Definition is_supertype (w : jstr) : bool := existsb (jstr_eqb w) SUPERTYPES.

Definition nonempty (s : jstr) : bool :=
  match s with [] => false | _ => true end.

Definition em_dash : jstr := js "—".

(** [None] is the TypeError of [.split] on a truthy value that is not a
    string. *)
Definition getTypePermutation (typeLine : jsval) : option jstr :=
  match js_or typeLine (JStr []) with
  | JStr s =>
    let superPart := split_first em_dash s in
    let words := filter nonempty (split_ws (trim superPart)) in
    let mainTypes := filter (fun w => negb (is_supertype w)) words in
    let joined := join (js " ") mainTypes in
    Some (if nonempty joined then joined else js "Other")
  | _ => None
  end.

(* ================================================================== *)
(** * 4. The sync controller                                            *)
(* ================================================================== *)

Inductive SyncStatus := idle | loading | saving | error | unconfigured.

Record AppState := mkApp {
  collection : list Card;
  decks : list Deck;
  syncStatus : SyncStatus;
  syncMsg : jstr
}.

(** ** 4.1 Collection mutations *)

(** the updater of [addToCollection]; [now] is [Date.now()] *)
Definition addToCollection (now : Z) (card : Card) (prev : list Card)
  : list Card :=
  match find (fun c => strict_eq (get k_id c) (get k_id card)) prev with
  | Some _ =>
    map (fun c =>
           if strict_eq (get k_id c) (get k_id card)
           then set k_qty (js_add_one (js_or (get k_qty c) (JNum (Int 1)))) c
           else c) prev
  | None =>
    prev ++ [set (js "addedAt") (JNum (Int now)) (set k_qty (JNum (Int 1)) card)]
  end.

(** [cards.filter(c => c.collectionId !== cardId)] on the entries of an
    array; reading a property of a [null] entry throws. *)
Fixpoint filter_entries (cardId : jsval) (l : list json) : option (list json) :=
  match l with
  | [] => Some []
  | c :: r =>
    match member (Some c) k_collectionId, filter_entries cardId r with
    | Some x, Some r' =>
      Some (if negb (strict_eq x cardId) then c :: r' else r')
    | _, _ => None
    end
  end.

(** [d.cards.filter(...)]: a TypeError when [d.cards] is no array. *)
Definition without_card (cardId : jsval) (cards : json) : option json :=
  match cards with
  | JArr l =>
    match filter_entries cardId l with
    | Some l' => Some (JArr l')
    | None => None
    end
  | _ => None
  end.

Fixpoint map_throwing {A B} (f : A -> option B) (l : list A) : option (list B) :=
  match l with
  | [] => Some []
  | x :: r =>
    match f x, map_throwing f r with
    | Some y, Some r' => Some (y :: r')
    | _, _ => None
    end
  end.

(** the two updaters of [removeFromCollection]; [None] when the deck
    updater throws *)
Definition removeFromCollection (cardId : jsval) (st : AppState)
  : option AppState :=
  let n := filter (fun c => negb (strict_eq (get k_id c) cardId)) (collection st) in
  match map_throwing
          (fun d =>
             match without_card cardId (deck_cards d) with
             | Some cs => Some {| deck_id := deck_id d;
                                  deck_name := deck_name d;
                                  deck_format := deck_format d;
                                  deck_commander := deck_commander d;
                                  deck_cards := cs |}
             | None => None
             end) (decks st) with
  | Some ds => Some {| collection := n; decks := ds;
                       syncStatus := syncStatus st; syncMsg := syncMsg st |}
  | None => None
  end.

(** ** 4.2 Load *)

(** what [sheetsGet] settles to: the rows, or an Error with its message *)
Inductive fetched :=
| Rows (rows : list row)
| Failed (message : jstr).

(** [Promise.all] of the two reads rejects with the rejection that comes
    first; [decks_first] says that the read of the decks settled before
    the read of the collection. *)
Definition Promise_all (collRes deckRes : fetched) (decks_first : bool)
  : (list row * list row) + jstr :=
  match collRes, deckRes with
  | Rows a, Rows b => inl (a, b)
  | Failed m, Rows _ => inr m
  | Rows _, Failed m => inr m
  | Failed m1, Failed m2 => inr (if decks_first then m2 else m1)
  end.

(** [rows.map(f).filter(Boolean)] *)
Fixpoint map_filter {A B} (f : A -> option B) (l : list A) : list B :=
  match l with
  | [] => []
  | x :: r =>
    match f x with
    | Some y => y :: map_filter f r
    | None => map_filter f r
    end
  end.

Definition loadFromSheets (collRes deckRes : fetched) (decks_first : bool)
           (st : AppState) : AppState :=
  match Promise_all collRes deckRes decks_first with
  | inl (collRows, deckRows) =>
    let cards := map_filter rowToCard collRows in
    let dks := map_filter (fun r => rowToDeck r cards) deckRows in
    {| collection := cards; decks := dks; syncStatus := idle;
       syncMsg := js "Loaded " ++ digits (N.of_nat (length cards)) ++ js " cards" |}
  | inr message =>
    {| collection := collection st; decks := decks st; syncStatus := error;
       syncMsg := js "Load failed: " ++ message |}
  end.

(** ** 4.3 The debounced save *)

(** The event loop as far as the save is concerned.  Time is in
    milliseconds.  [current] is what [collectionRef.current] and
    [decksRef.current] give; [saveTimeout] is the timer that
    [saveTimeout.current] names, if it has not fired yet, as the time at
    which it fires; [saved] lists the calls of [saveToSheets], the latest
    first, with the time and the two arguments of each. *)
Record World := mkWorld {
  clock : Z;
  current : AppState;
  saveTimeout : option Z;
  saved : list (Z * (list Card * list Deck))
}.

Section Debounce.

Variable isConfigured : bool.

(** [clearTimeout(saveTimeout.current)] and a new timer of 1500 ms *)
Definition triggerSave (w : World) : World :=
  if negb isConfigured then w
  else {| clock := clock w; current := current w;
          saveTimeout := Some (clock w + 1500)%Z; saved := saved w |}.

(** the callback of the timer: [saveToSheets] with the current state,
    which returns at once when the sheet is not configured *)
Definition saveToSheets (at_time : Z) (w : World) : World :=
  if negb isConfigured then w
  else {| clock := clock w;
          current := {| collection := collection (current w); decks := decks (current w);
                    syncStatus := saving; syncMsg := js "Saving..." |};
          saveTimeout := saveTimeout w;
          saved := (at_time, (collection (current w), decks (current w))) :: saved w |}.

(** time passes until [t]: the pending timer fires if it is due *)
Definition advance (t : Z) (w : World) : World :=
  let w' := {| clock := Z.max t (clock w); current := current w;
               saveTimeout := saveTimeout w; saved := saved w |} in
  match saveTimeout w with
  | Some due =>
    if (due <=? t)%Z
    then saveToSheets due
           {| clock := clock w'; current := current w'; saveTimeout := None;
              saved := saved w' |}
    else w'
  | None => w'
  end.

(** a mutating operation at time [t]: the state updater [f] runs, then
    the [triggerSave] that it queued with [setTimeout(triggerSave, 0)] *)
Definition mutate (t : Z) (f : AppState -> AppState) (w : World) : World :=
  let w' := advance t w in
  triggerSave {| clock := clock w'; current := f (current w');
                 saveTimeout := saveTimeout w'; saved := saved w' |}.

Fixpoint run (events : list (Z * (AppState -> AppState))) (w : World) : World :=
  match events with
  | [] => w
  | (t, f) :: rest => run rest (mutate t f w)
  end.

End Debounce.

(** the updaters of a sequence of operations, one after the other *)
Definition apply_all (events : list (Z * (AppState -> AppState)))
           (st : AppState) : AppState :=
  fold_left (fun s e => snd e s) events st.

(** each operation comes less than 1500 ms after the one before, the first
    one not before [t0] *)
Fixpoint within_quiet_interval (t0 : Z)
         (events : list (Z * (AppState -> AppState))) : Prop :=
  match events with
  | [] => True
  | (t, _) :: rest =>
    (t0 <= t)%Z /\
    match rest with
    | [] => True
    | (t', _) :: _ => (t' < t + 1500)%Z
    end /\ within_quiet_interval t rest
  end.

Definition last_time (t0 : Z) (events : list (Z * (AppState -> AppState))) : Z :=
  fold_left (fun _ e => fst e) events t0.

(** ** 4.4 Quantities *)

(** ToPrimitive: an array or a plain object becomes its string. *)
Definition to_primitive (v : json) : json :=
  match v with
  | JArr _ | JObj _ => JStr (to_string v)
  | _ => v
  end.

(** ToNumber of a primitive that is no string, where it is an integer;
    [undefined] is NaN *)
Definition to_integer (v : jsval) : option Z :=
  match v with
  | Some JNull => Some 0%Z
  | Some (JBool b) => Some (if b then 1 else 0)%Z
  | Some (JNum (Int z)) => Some z
  | _ => None
  end.

(** [a + b].  A string operand, or an array or object operand, which
    ToPrimitive turns into a string, makes it a concatenation.  Otherwise
    the operands are read as numbers, and the sum of two integers is
    exact.  [None] is a sum that is no value of the model: NaN (an operand
    is [undefined]), or a sum with a fraction, which JS rounds. *)
Definition js_plus (a b : jsval) : option json :=
  match option_map to_primitive a, option_map to_primitive b with
  | Some (JStr s), pb => Some (JStr (s ++ to_string_val pb))
  | pa, Some (JStr s) => Some (JStr (to_string_val pa ++ s))
  | pa, pb =>
    match to_integer pa, to_integer pb with
    | Some x, Some y => Some (JNum (Int (x + y)))
    | _, _ => None
    end
  end.

(** [Math.max(a, v)] for an integer [a].  [None]: [v] is a string, an
    array or an object, which ToNumber reads as a numeric literal or as
    NaN. *)
Definition Math_max (a : Z) (v : json) : option json :=
  match v with
  | JNull => Some (JNum (Int (Z.max a 0)))
  | JBool b => Some (JNum (Int (Z.max a (if b then 1 else 0))))
  | JNum (Int z) => Some (JNum (Int (Z.max a z)))
  | JNum (Frac m k) =>
    Some (JNum (if (a * 10 ^ Zpos k <? m)%Z then Frac m k else Int a))
  | JStr _ | JArr _ | JObj _ => None
  end.

(** [v > 0]; [None] as for [Math_max] *)
Definition js_positive (v : jsval) : option bool :=
  match v with
  | None | Some JNull => Some false
  | Some (JBool b) => Some b
  | Some (JNum (Int z)) => Some (0 <? z)%Z
  | Some (JNum (Frac m _)) => Some (0 <? m)%Z
  | Some (JStr _) | Some (JArr _) | Some (JObj _) => None
  end.

(** the updater of [updateQty].  [None]: the new quantity of the card is
    no number of the model (see [js_plus] and [Math_max]). *)
Definition updateQty (cardId delta : jsval) (prev : list Card)
  : option (list Card) :=
  map_throwing
    (fun c =>
       if strict_eq (get k_id c) cardId
       then match js_plus (Some (js_or (get k_qty c) (JNum (Int 1)))) delta with
            | Some s =>
              match Math_max 1 s with
              | Some q => Some (set k_qty q c)
              | None => None
              end
            | None => None
            end
       else Some c) prev.

(** [collection.reduce((s, c) => s + (c.qty || 1), 0)]: the number of
    cards that the header and the collection tab show *)
Definition total_cards (collection : list Card) : option json :=
  fold_left
    (fun s c =>
       match s with
       | Some v => js_plus (Some v) (Some (js_or (get k_qty c) (JNum (Int 1))))
       | None => None
       end) collection (Some (JNum (Int 0))).

(** ** 4.5 Decks *)

(** [{ ...dk, cards }] *)
Definition with_cards (dk : Deck) (cards : json) : Deck :=
  {| deck_id := deck_id dk; deck_name := deck_name dk;
     deck_format := deck_format dk; deck_commander := deck_commander dk;
     deck_cards := cards |}.

(** [{ collectionId: cid, qty: 1 }]; a [cid] that is [undefined] reads the
    same as no property. *)
Definition deck_entry (cid : jsval) : json :=
  JObj (match cid with Some v => [(k_collectionId, v)] | None => [] end
          ++ [(k_qty, JNum (Int 1))]).

(** [ids.includes(x)].  Identifiers are compared as [===] does; this is
    SameValueZero on the values of the model. *)
Definition includes (ids : list jsval) (x : jsval) : bool :=
  existsb (strict_eq x) ids.

(** [card._editionCards ? card._editionCards.map(e => e.id) : [card.id]];
    [None] is the TypeError of a truthy [_editionCards] without [map], or
    of a [null] edition. *)
Definition editionIds (card : Card) : option (list jsval) :=
  match get (js "_editionCards") card with
  | Some v =>
    if truthy v
    then match v with
         | JArr es => map_throwing (fun e => member (Some e) k_id) es
         | _ => None
         end
    else Some [get k_id card]
  | None => Some [get k_id card]
  end.

(** [l.some(c => p(c))]: stops at the first entry that satisfies [p] *)
Fixpoint some_throwing (p : json -> option bool) (l : list json) : option bool :=
  match l with
  | [] => Some false
  | c :: r =>
    match p c with
    | Some true => Some true
    | Some false => some_throwing p r
    | None => None
    end
  end.

(** [l.filter(c => p(c))] *)
Fixpoint filter_throwing (p : json -> option bool) (l : list json)
  : option (list json) :=
  match l with
  | [] => Some []
  | c :: r =>
    match p c, filter_throwing p r with
    | Some b, Some r' => Some (if b then c :: r' else r')
    | _, _ => None
    end
  end.

(** [editionIds.includes(c.collectionId)] *)
Definition in_editions (ids : list jsval) (c : json) : option bool :=
  option_map (includes ids) (member (Some c) k_collectionId).

(** the updater of [toggleCardInDeck], with the [editionIds] that were
    computed before it; [None] when it throws *)
Definition toggle_in (ids : list jsval) (cid deckId : jsval) (prev : list Deck)
  : option (list Deck) :=
  map_throwing
    (fun dk =>
       if negb (strict_eq (deck_id dk) deckId) then Some dk
       else match deck_cards dk with
            | JArr l =>
              match some_throwing (in_editions ids) l with
              | Some true =>
                option_map (fun l' => with_cards dk (JArr l'))
                           (filter_throwing
                              (fun c => option_map negb (in_editions ids c)) l)
              | Some false => Some (with_cards dk (JArr (l ++ [deck_entry cid])))
              | None => None
              end
            | _ => None
            end) prev.

Definition toggleCardInDeck (collectionCard : Card) (deckId : jsval)
           (prev : list Deck) : option (list Deck) :=
  match editionIds collectionCard with
  | Some ids => toggle_in ids (get k_id collectionCard) deckId prev
  | None => None
  end.

(** [updateDeck(deckId, updater)] of [DecksTab] *)
Definition updateDeck (deckId : jsval) (updater : Deck -> option Deck)
           (d : list Deck) : option (list Deck) :=
  map_throwing
    (fun dk => if strict_eq (deck_id dk) deckId then updater dk else Some dk) d.

(** [l.find(c => c.collectionId === cardId)]: the first such entry,
    [undefined] when there is none *)
Fixpoint find_entry (cardId : jsval) (l : list json) : option jsval :=
  match l with
  | [] => Some None
  | c :: r =>
    match member (Some c) k_collectionId with
    | Some x => if strict_eq x cardId then Some (Some c) else find_entry cardId r
    | None => None
    end
  end.

(** [{ ...c, qty: q }] for an entry [c] *)
Definition with_qty (q : json) (c : json) : json :=
  JObj (set k_qty q (spread (Some c))).

(** the updater that [DecksTab] passes as [onAdd].  [None]: a TypeError,
    or a quantity that is no number of the model. *)
Definition deck_onAdd (cardId : jsval) (dk : Deck) : option Deck :=
  match deck_cards dk with
  | JArr l =>
    match find_entry cardId l with
    | Some existing =>
      if truthy_val existing
      then option_map
             (fun l' => with_cards dk (JArr l'))
             (map_throwing
                (fun c =>
                   match member (Some c) k_collectionId, member (Some c) k_qty with
                   | Some x, Some q =>
                     if strict_eq x cardId
                     then option_map (fun q' => with_qty q' c)
                                     (js_plus q (Some (JNum (Int 1))))
                     else Some c
                   | _, _ => None
                   end) l)
      else Some (with_cards dk (JArr (l ++ [deck_entry cardId])))
    | None => None
    end
  | _ => None
  end.

(** the updater that [DecksTab] passes as [onRemove] *)
Definition deck_onRemove (cardId : jsval) (dk : Deck) : option Deck :=
  option_map (with_cards dk) (without_card cardId (deck_cards dk)).

(** the updater that [DecksTab] passes as [onQty]: the new quantity is
    [Math.max(0, c.qty + delta)], and the entries whose quantity is not
    above 0 are dropped.  [None] as for [deck_onAdd]. *)
Definition deck_onQty (cardId delta : jsval) (dk : Deck) : option Deck :=
  match deck_cards dk with
  | JArr l =>
    match map_throwing
            (fun c =>
               match member (Some c) k_collectionId, member (Some c) k_qty with
               | Some x, Some q =>
                 if negb (strict_eq x cardId) then Some c
                 else match js_plus q delta with
                      | Some s => option_map (fun q' => with_qty q' c) (Math_max 0 s)
                      | None => None
                      end
               | _, _ => None
               end) l with
    | Some l1 =>
      option_map
        (fun l2 => with_cards dk (JArr l2))
        (filter_throwing
           (fun c => match member (Some c) k_qty with
                     | Some q => js_positive q
                     | None => None
                     end) l1)
    | None => None
    end
  | _ => None
  end.

(** the format buttons of [DeckEditor]:
    [{ ...dk, format: fmt, commander: fmt === "Standard" ? "" : dk.commander }] *)
Definition set_format (fmt : jstr) (dk : Deck) : Deck :=
  {| deck_id := deck_id dk; deck_name := deck_name dk;
     deck_format := Some (JStr fmt);
     deck_commander := if jstr_eqb fmt (js "Standard") then Some (JStr [])
                       else deck_commander dk;
     deck_cards := deck_cards dk |}.

(** the commander buttons of [DeckEditor]: [{ ...dk, commander }] *)
Definition set_commander (commander : jsval) (dk : Deck) : Deck :=
  {| deck_id := deck_id dk; deck_name := deck_name dk;
     deck_format := deck_format dk; deck_commander := commander;
     deck_cards := deck_cards dk |}.

(** the state of [DecksTab] besides the decks *)
Record DecksTabState := mkDecksTab {
  activeDeck : json;
  newDeckName : jstr
}.

(** [createDeck]; [now] is [Date.now()] *)
Definition createDeck (now : Z) (tab : DecksTabState) (d : list Deck)
  : DecksTabState * list Deck :=
  if negb (nonempty (trim (newDeckName tab))) then (tab, d)
  else
    let ident := JStr (number_to_string (Int now)) in
    let deck := {| deck_id := Some ident;
                   deck_name := Some (JStr (trim (newDeckName tab)));
                   deck_format := Some (JStr (js "Standard"));
                   deck_commander := Some (JStr []);
                   deck_cards := JArr [] |} in
    ({| activeDeck := ident; newDeckName := [] |}, d ++ [deck]).

Definition deleteDeck (ident : jsval) (tab : DecksTabState) (d : list Deck)
  : DecksTabState * list Deck :=
  ({| activeDeck := if strict_eq (Some (activeDeck tab)) ident then JNull
                    else activeDeck tab;
      newDeckName := newDeckName tab |},
   filter (fun dk => negb (strict_eq (deck_id dk) ident)) d).


(** ** 4.6 The token of the session *)

(** [sessionStorage]: string keys and string values, each key once *)
Definition Storage := list (jstr * jstr).

(** [getItem]: [None] is [null] *)
Fixpoint getItem (k : jstr) (s : Storage) : option jstr :=
  match s with
  | [] => None
  | (k', v) :: r => if jstr_eqb k k' then Some v else getItem k r
  end.

Fixpoint setItem (k v : jstr) (s : Storage) : Storage :=
  match s with
  | [] => [(k, v)]
  | (k', v') :: r => if jstr_eqb k k' then (k, v) :: r else (k', v') :: setItem k v r
  end.

Definition removeItem (k : jstr) (s : Storage) : Storage :=
  filter (fun kv => negb (jstr_eqb k (fst kv))) s.

Definition OAUTH_TOKEN_KEY : jstr := js "mtg_oauth_token".
Definition OAUTH_EXPIRY_KEY : jstr := js "mtg_oauth_expiry".
Definition PENDING_SAVE_KEY : jstr := js "mtg_pending_save".

(** [getStoredToken]; [now] is [Date.now()].  An expiry that [parseInt]
    does not read is NaN, and no time is greater than NaN. *)
Definition getStoredToken (now : Z) (s : Storage) : option jstr * Storage :=
  match getItem OAUTH_TOKEN_KEY s, getItem OAUTH_EXPIRY_KEY s with
  | Some token, Some expiry =>
    if negb (nonempty token) || negb (nonempty expiry) then (None, s)
    else
      let expired :=
        match parseInt expiry with
        | Some e => (e <? now)%Z
        | None => false
        end in
      if expired
      then (None, removeItem OAUTH_EXPIRY_KEY (removeItem OAUTH_TOKEN_KEY s))
      else (Some token, s)
  | _, _ => (None, s)
  end.

(** [storeToken(token, expiresIn)], [expiresIn] in seconds *)
Definition storeToken (now : Z) (token : jstr) (expiresIn : Z) (s : Storage)
  : Storage :=
  setItem OAUTH_EXPIRY_KEY (number_to_string (Int (now + expiresIn * 1000)))
          (setItem OAUTH_TOKEN_KEY token s).

(** [requestToken]: the stored token for the callback, or [None] when the
    page leaves for the sign-in of Google ([redirectToGoogleAuth], which
    notes the pending save) *)
Definition requestToken (now : Z) (s : Storage) : option jstr * Storage :=
  match getStoredToken now s with
  | (Some existing, s') =>
    if nonempty existing then (Some existing, s')
    else (None, setItem PENDING_SAVE_KEY (js "1") s')
  | (None, s') => (None, setItem PENDING_SAVE_KEY (js "1") s')
  end.

(** ** 4.7 Saving *)

(** the requests of [sheetsClear] and [sheetsUpdate] *)
Inductive request :=
| Clear (range token : jstr)
| Update (range : jstr) (values : list row) (token : jstr).

Section Save.

Variable isConfigured : bool.

(** how the sheet answers a request: [None] when the request is done,
    the message of the Error that [sheetsClear] or [sheetsUpdate] throws
    otherwise *)
Variable respond : request -> option jstr.

(** [new Date().toLocaleTimeString()] when the save is done *)
Variable saved_at : jstr.

(** the awaited requests of the [try] block, in their order *)
Definition save_requests (col : list Card) (dks : list Deck) (token : jstr)
  : list request :=
  [Clear (js "Collection!A2:H1000") token]
    ++ (match col with
        | [] => []
        | _ => [Update (js "Collection!A2") (map cardToRow col) token]
        end)
    ++ [Clear (js "Decks!A2:E1000") token]
    ++ (match dks with
        | [] => []
        | _ => [Update (js "Decks!A2") (map (fun dk => deckToRow dk col) dks) token]
        end).

(** one request after the other, up to the first that throws: the requests
    that were sent, and the message of the Error, if any *)
Fixpoint send_all (reqs : list request) : list request * option jstr :=
  match reqs with
  | [] => ([], None)
  | r :: rest =>
    match respond r with
    | Some message => ([r], Some message)
    | None => let (sent, e) := send_all rest in (r :: sent, e)
    end
  end.

(** what a call of [saveToSheets] does *)
Record SaveResult := mkSaveResult {
  save_state : AppState;
  save_storage : Storage;
  save_sent : list request;
  save_redirected : bool
}.

Definition saveToSheets_run (now : Z) (col : list Card) (dks : list Deck)
           (st : AppState) (s : Storage) : SaveResult :=
  if negb isConfigured then mkSaveResult st s [] false
  else
    let st1 := {| collection := collection st; decks := decks st;
                  syncStatus := saving; syncMsg := js "Saving..." |} in
    match requestToken now s with
    | (Some token, s') =>
      let (sent, e) := send_all (save_requests col dks token) in
      mkSaveResult
        (match e with
         | None => {| collection := collection st; decks := decks st;
                      syncStatus := idle; syncMsg := js "Saved " ++ saved_at |}
         | Some message =>
           {| collection := collection st; decks := decks st;
              syncStatus := error; syncMsg := js "Save failed: " ++ message |}
         end) s' sent false
    | (None, s') => mkSaveResult st1 s' [] true
    end.

End Save.


(* ================================================================== *)
(** * 5. Derived views                                                  *)
(* ================================================================== *)

(** ** 5.1 Deck colour identity ([DeckEditor]) *)

(** [s.add(v)] on a [Set], kept in insertion order *)
Definition set_add (s : list json) (v : json) : list json :=
  if existsb (fun x => strict_eq (Some x) (Some v)) s then s else s ++ [v].

(** [(c.color_identity || []).forEach(ci => s.add(ci))]; a truthy
    [color_identity] that is no array has no [forEach]. *)
Definition add_colors (s : list json) (c : Card) : option (list json) :=
  match js_or (get k_color_identity c) (JArr []) with
  | JArr l => Some (fold_left set_add l s)
  | _ => None
  end.

Fixpoint add_all_colors (s : list json) (cs : list Card) : option (list json) :=
  match cs with
  | [] => Some s
  | c :: r =>
    match add_colors s c with
    | Some s' => add_all_colors s' r
    | None => None
    end
  end.

(** [{ ...card, deckQty: q }]; a [q] that is [undefined] reads the same as
    no property. *)
Definition with_deckQty (q : jsval) (o : obj) : obj :=
  match q with
  | Some v => set (js "deckQty") v o
  | None => o
  end.

Definition deckCards (deck : Deck) (collection : list Card)
  : option (list Card) :=
  match deck_cards deck with
  | JArr l =>
    match map_throwing
            (fun c =>
               match member (Some c) k_collectionId, member (Some c) k_qty with
               | Some cid, Some q =>
                 Some (with_deckQty q
                         (spread (option_map JObj (find_by k_id cid collection))))
               | _, _ => None
               end) l with
    | Some cs => Some (filter (fun c => truthy_val (get k_id c)) cs)
    | None => None
    end
  | _ => None
  end.

Definition commanderCard (deck : Deck) (collection : list Card) : option Card :=
  if truthy_val (deck_commander deck)
  then find_by k_id (deck_commander deck) collection
  else None.

Definition Commander : jsval := Some (JStr (js "Commander")).
Definition Standard : jsval := Some (JStr (js "Standard")).

(** the [Set] of [deckColorIdentity], in insertion order; [None] is a
    TypeError while it is built *)
Definition deckColorIdentity (deck : Deck) (collection : list Card)
  : option (list json) :=
  match deckCards deck collection with
  | Some dcs =>
    match (if strict_eq (deck_format deck) Commander
           then commanderCard deck collection else None) with
    | Some cc => add_colors [] cc
    | None => add_all_colors [] dcs
    end
  | None => None
  end.

(** [deck.cards.reduce((s, c) => s + c.qty, 0)]: the number of cards that
    the header of [DeckEditor] shows *)
Definition totalCards (deck : Deck) : option json :=
  match deck_cards deck with
  | JArr l =>
    fold_left
      (fun s c =>
         match s, member (Some c) k_qty with
         | Some v, Some q => js_plus (Some v) q
         | _, _ => None
         end) l (Some (JNum (Int 0)))
  | _ => None
  end.


(** ** 5.2 Combo scoring ([findCombos]) *)

(** the numbers of the comparator: quotients and their differences, as
    exact rationals.  Rounding to doubles is monotone and two different
    ratios of counts below 2^26 are further apart than one rounding step,
    so for card counts the sign of a difference is the one computed here. *)
Inductive jsnum := Fin (q : Q) | PInf | NInf | NaN.

Definition js_div (a b : N) : jsnum :=
  match b with
  | N0 => match a with N0 => NaN | Npos _ => PInf end
  | Npos p => Fin (Z.of_N a # p)
  end.

Definition js_sub (a b : jsnum) : jsnum :=
  match a, b with
  | NaN, _ | _, NaN => NaN
  | Fin x, Fin y => Fin (x - y)
  | PInf, PInf | NInf, NInf => NaN
  | PInf, _ | _, NInf => PInf
  | NInf, _ | _, PInf => NInf
  end.

Definition num_truthy (a : jsnum) : bool :=
  match a with
  | Fin q => negb (Qeq_bool q 0)
  | PInf | NInf => true
  | NaN => false
  end.

(** [a || b] *)
Definition num_or (a b : jsnum) : jsnum := if num_truthy a then a else b.

Definition num_positive (a : jsnum) : bool :=
  match a with
  | Fin q => negb (Qle_bool q 0)
  | PInf => true
  | NInf | NaN => false
  end.

(** a variant of the combo database: its id, the names [u.card.name] of
    its [uses], its popularity *)
Record Variant := mkVariant {
  variant_id : jstr;
  uses : list jstr;
  popularity : Z
}.

(** [{ ...v, _owned, _total }] *)
Record Scored := mkScored {
  variant : Variant;
  _owned : N;
  _total : N
}.

(** [arr.sort(cmp)]: stable, an element moves behind the ones that [cmp]
    puts before it *)
Fixpoint sort_insert {A} (cmp : A -> A -> jsnum) (x : A) (l : list A) : list A :=
  match l with
  | [] => [x]
  | y :: r => if num_positive (cmp x y) then y :: sort_insert cmp x r else x :: l
  end.

Definition js_sort {A} (cmp : A -> A -> jsnum) (l : list A) : list A :=
  fold_right (sort_insert cmp) [] l.

Section Combos.

(** [String.prototype.toLowerCase] *)
Variable toLowerCase : jstr -> jstr.

(** [new Set(deckCards.map(c => c.name?.toLowerCase()))]: [None] when a
    name is neither missing nor a string *)
Definition deckNames (cards : list Card) : option (list jsval) :=
  map_throwing
    (fun c =>
       match get k_name c with
       | None | Some JNull => Some None
       | Some (JStr s) => Some (Some (JStr (toLowerCase s)))
       | Some _ => None
       end) cards.

(** [names.has(n)] *)
Definition has (names : list jsval) (n : jstr) : bool :=
  existsb (strict_eq (Some (JStr n))) names.

Definition score (names : list jsval) (v : Variant) : Scored :=
  let comboNames := map toLowerCase (uses v) in
  {| variant := v;
     _owned := N.of_nat (length (filter (has names) comboNames));
     _total := N.of_nat (length comboNames) |}.

(** the comparator of [scored.sort] *)
Definition by_score (a b : Scored) : jsnum :=
  num_or
    (num_or (Fin (inject_Z (Z.of_N (_owned b) - Z.of_N (_owned a))))
            (js_sub (js_div (_owned b) (_total b)) (js_div (_owned a) (_total a))))
    (Fin (inject_Z (popularity (variant b) - popularity (variant a)))).

(** the scored and sorted list that [findCombos] stores *)
Definition scored_combos (names : list jsval) (all : list Variant) : list Scored :=
  js_sort by_score (map (score names) all).

End Combos.

(** ** 5.3 The unique-names view ([CollectionTab]) *)

Definition k_totalQty : jstr := js "_totalQty".
Definition k_editions : jstr := js "_editions".
Definition k_editionCards : jstr := js "_editionCards".

(** [{ ...c, _totalQty: c.qty || 1, _editions: 1, _editionCards: [c] }]:
    the entry of a name that [byName] does not have yet *)
Definition first_edition (c : Card) : Card :=
  set k_editionCards (JArr [JObj c])
      (set k_editions (JNum (Int 1))
           (set k_totalQty (js_or (get k_qty c) (JNum (Int 1))) c)).

(** one more edition of [existing]: [_totalQty += c.qty || 1],
    [_editions += 1], [_editionCards.push(c)].  [None]: a sum that is no
    value of the model, or a TypeError. *)
Definition next_edition (existing c : Card) : option Card :=
  match js_plus (get k_totalQty existing)
                (Some (js_or (get k_qty c) (JNum (Int 1)))) with
  | Some t =>
    let e1 := set k_totalQty t existing in
    match js_plus (get k_editions e1) (Some (JNum (Int 1))) with
    | Some n =>
      let e2 := set k_editions n e1 in
      match get k_editionCards e2 with
      | Some (JArr l) => Some (set k_editionCards (JArr (l ++ [JObj c])) e2)
      | _ => None
      end
    | None => None
    end
  | None => None
  end.

(** [byName]: a [Map] from names to entries, in insertion order; the keys
    are compared as [===] does (SameValueZero on the values of the
    model) *)
Fixpoint byName_add (c : Card) (m : list (jsval * Card))
  : option (list (jsval * Card)) :=
  match m with
  | [] => Some [(get k_name c, first_edition c)]
  | (k, e) :: r =>
    if strict_eq k (get k_name c)
    then option_map (fun e' => (k, e') :: r) (next_edition e c)
    else option_map (cons (k, e)) (byName_add c r)
  end.

Definition byName (cards : list Card) : option (list (jsval * Card)) :=
  fold_left
    (fun m c => match m with Some m' => byName_add c m' | None => None end)
    cards (Some []).

(** [{ ...c, qty: c._totalQty }] *)
Definition with_total (c : Card) : Card :=
  match get k_totalQty c with
  | Some t => set k_qty t c
  | None => filter (fun kv => negb (jstr_eqb (fst kv) k_qty)) c
  end.

(** the rows of the collection tab: the cards, or one row per name when
    [viewMode] is ["unique"] *)
Definition displayCards (unique : bool) (cards : list Card)
  : option (list Card) :=
  if unique
  then option_map (map (fun kv => with_total (snd kv))) (byName cards)
  else Some cards.


(** ** 5.4 The sections of a deck ([DeckEditor]) *)

Definition TYPE_GROUP_ORDER : list jstr :=
  map js ["Creature"; "Artifact Creature"; "Enchantment Creature";
          "Artifact Enchantment Creature"; "Planeswalker"; "Battle";
          "Instant"; "Sorcery"; "Artifact"; "Enchantment";
          "Artifact Enchantment"; "Land"; "Other"]%string.

(** the properties that a plain object has from [Object.prototype]:
    [groupedCards[t]] is truthy for them, and has no [push] *)
Definition Object_prototype : list jstr :=
  map js ["constructor"; "__proto__"; "hasOwnProperty"; "isPrototypeOf";
          "propertyIsEnumerable"; "toLocaleString"; "toString"; "valueOf";
          "__defineGetter__"; "__defineSetter__"; "__lookupGetter__";
          "__lookupSetter__"]%string.

(** [groupedCards[t]] for an own property *)
Fixpoint group_of (t : jstr) (g : list (jstr * list Card)) : option (list Card) :=
  match g with
  | [] => None
  | (t', cs) :: r => if jstr_eqb t t' then Some cs else group_of t r
  end.

(** [if (!groupedCards[t]) groupedCards[t] = []; groupedCards[t].push(c)] *)
Fixpoint group_push (t : jstr) (c : Card) (g : list (jstr * list Card))
  : list (jstr * list Card) :=
  match g with
  | [] => [(t, [c])]
  | (t', cs) :: r =>
    if jstr_eqb t t' then (t', cs ++ [c]) :: r else (t', cs) :: group_push t c r
  end.

(** [groupedCards], with its groups in the order in which they were
    made; [None] is a TypeError: a [type_line] that is no string, or a
    type permutation that names a property of [Object.prototype] *)
Definition groupedCards (deckCards : list Card)
  : option (list (jstr * list Card)) :=
  fold_left
    (fun g c =>
       match g, getTypePermutation (get (js "type_line") c) with
       | Some g', Some t =>
         if existsb (jstr_eqb t) Object_prototype then None
         else Some (group_push t c g')
       | _, _ => None
       end) deckCards (Some []).

(** a key that is an array index: the canonical text of an integer below
    2^32 - 1 *)
Definition array_index (k : jstr) : option N :=
  match k with
  | [] => None
  | c :: r =>
    if forallb is_digit k && negb ((c =? 48)%N && nonempty r)
       && (dec_value k <? 4294967295)%N
    then Some (dec_value k) else None
  end.

Fixpoint insert_index (i : N) (k : jstr) (l : list (N * jstr)) : list (N * jstr) :=
  match l with
  | [] => [(i, k)]
  | (j, k') :: r => if (i <? j)%N then (i, k) :: l else (j, k') :: insert_index i k r
  end.

(** [Object.keys(o)]: the array indices in ascending order, then the
    other keys in the order in which they were made *)
Definition Object_keys {A} (o : list (jstr * A)) : list jstr :=
  map snd
      (fold_right (fun kv acc => match array_index (fst kv) with
                                 | Some i => insert_index i (fst kv) acc
                                 | None => acc
                                 end) [] o)
  ++ map fst (filter (fun kv => match array_index (fst kv) with
                                | Some _ => false
                                | None => true
                                end) o).

(** [l.indexOf(x)]; [None] is -1 *)
Fixpoint indexOf (x : jstr) (l : list jstr) : option nat :=
  match l with
  | [] => None
  | y :: r => if jstr_eqb x y then Some O else option_map S (indexOf x r)
  end.

Section Sections.

(** [a.localeCompare(b)] *)
Variable localeCompare : jstr -> jstr -> Z.

(** the comparator of [sortedTypes] *)
Definition by_group_order (a b : jstr) : jsnum :=
  match indexOf a TYPE_GROUP_ORDER, indexOf b TYPE_GROUP_ORDER with
  | None, None => Fin (inject_Z (localeCompare a b))
  | None, Some _ => Fin 1
  | Some _, None => Fin (-1)
  | Some ia, Some ib => Fin (inject_Z (Z.of_nat ia - Z.of_nat ib))
  end.

Definition sortedTypes (g : list (jstr * list Card)) : list jstr :=
  js_sort by_group_order (Object_keys g).

(** the cards of the sections, as [DeckEditor] lists them; a group is
    there for every one of the [sortedTypes] *)
Definition deck_sections (deckCards : list Card)
  : option (list (jstr * list Card)) :=
  match groupedCards deckCards with
  | Some g =>
    Some (map (fun t => (t, match group_of t g with Some cs => cs | None => [] end))
              (sortedTypes g))
  | None => None
  end.

End Sections.


(** ** 5.5 The requests of [findCombos] and [fetchColorIdentities] *)

(** [[...new Set(l)]]: the values in the order of their first occurrence *)
Definition Set_of (l : list json) : list json := fold_left set_add l [].

(** the loop of [fetchColorIdentities]:
    [for (let i = 0; i < unique.length; i += 75) unique.slice(i, i + 75)];
    [fuel] bounds the number of rounds *)
Fixpoint batches_from (fuel i : nat) (unique : list json) : list (list json) :=
  match fuel with
  | O => []
  | S fuel' =>
    if (i <? length unique)%nat
    then firstn 75 (skipn i unique) :: batches_from fuel' (i + 75) unique
    else []
  end.

(** [[...new Set(names.filter(Boolean))]] *)
Definition unique_names (names : list jsval) : list json :=
  Set_of (flat_map (fun n => match n with
                             | Some v => if truthy v then [v] else []
                             | None => []
                             end) names).

(** [[...new Set(deckCards.map(c => c.name).filter(Boolean))].slice(0, 60)]:
    the names that [findCombos] asks the combo database for *)
Definition combo_names (deckCards : list Card) : list json :=
  firstn 60 (unique_names (map (get k_name) deckCards)).

(** the identifiers of the requests that [fetchColorIdentities] sends,
    one list per request *)
Definition color_identity_batches (names : list jsval) : list (list json) :=
  batches_from (length (unique_names names)) O (unique_names names).

(** [seen] and [all] of [findCombos]: a variant is kept when no variant
    before it has its id *)
Fixpoint dedupe_from (seen : list jstr) (l : list Variant) : list Variant :=
  match l with
  | [] => []
  | v :: r =>
    if existsb (jstr_eqb (variant_id v)) seen then dedupe_from seen r
    else v :: dedupe_from (variant_id v :: seen) r
  end.

Section FoundCombos.

Variable toLowerCase : jstr -> jstr.

(** the combos that [findCombos] stores: the results of the batches,
    without the variants that were seen before, scored and sorted *)
Definition found_combos (names : list jsval) (batchResults : list (list Variant))
  : list Scored :=
  scored_combos toLowerCase names (dedupe_from [] (concat batchResults)).

End FoundCombos.

(** ** 5.6 [pool]: tasks, a few at a time *)

Section Pool.

(** what the tasks resolve to *)
Variable R : Type.

(** A call of [pool(tasks, concurrency)], between two steps of the event
    loop: [next_index] is [index], [results] the array with its holes,
    [running] the tasks that a runner awaits, one per runner that has not
    returned. *)
Record PoolState := mkPool {
  task_count : nat;
  next_index : nat;
  results : list (option R);
  running : list nat
}.

(** [runner()] up to its first [await]: it takes the next task, if there
    is one *)
Definition start_runner (p : PoolState) : PoolState :=
  if (next_index p <? task_count p)%nat
  then {| task_count := task_count p; next_index := S (next_index p);
          results := results p; running := running p ++ [next_index p] |}
  else p.

(** [Array.from({ length: Math.min(concurrency, tasks.length) }, runner)]
    on [new Array(tasks.length)]; a length below 0 is 0 *)
Definition pool_start (n : nat) (concurrency : Z) : PoolState :=
  Nat.iter (Z.to_nat (Z.min concurrency (Z.of_nat n))) start_runner
           {| task_count := n; next_index := O;
              results := repeat None n; running := [] |}.

Fixpoint store (i : nat) (v : R) (l : list (option R)) : list (option R) :=
  match l, i with
  | [], _ => []
  | _ :: r, O => Some v :: r
  | x :: r, S j => x :: store j v r
  end.

(** the task [i] that a runner awaits resolves to [v]: the runner stores
    the result and goes on with the next task, or returns; [None] when no
    runner awaits [i] *)
Definition settle (i : nat) (v : R) (p : PoolState) : option PoolState :=
  if existsb (Nat.eqb i) (running p)
  then Some (start_runner
               {| task_count := task_count p; next_index := next_index p;
                  results := store i v (results p);
                  running := filter (fun j => negb (Nat.eqb i j)) (running p) |})
  else None.

(** the tasks resolve in the order of [events] *)
Fixpoint settle_all (events : list (nat * R)) (p : PoolState) : option PoolState :=
  match events with
  | [] => Some p
  | (i, v) :: rest =>
    match settle i v p with
    | Some p' => settle_all rest p'
    | None => None
    end
  end.

(** [pool] returns when every runner has returned *)
Definition pool_result (p : PoolState) : option (list (option R)) :=
  match running p with
  | [] => Some (results p)
  | _ => None
  end.

End Pool.

(** ** 5.7 [toEdhrecSlug] *)

(** [s.replace(/[^a-z0-9\s-]/g, "")] *)
Definition slug_unit (c : N) : bool :=
  ((97 <=? c) && (c <=? 122) || (48 <=? c) && (c <=? 57) || is_space c
   || (c =? 45))%N.

(** [s.replace(/\s+/g, "-")]: every maximal run of white space becomes one
    hyphen; [in_run] says that the unit before was white *)
Fixpoint hyphenate (in_run : bool) (s : jstr) : jstr :=
  match s with
  | [] => []
  | c :: r =>
    if is_space c
    then (if in_run then hyphenate true r else 45%N :: hyphenate true r)
    else c :: hyphenate false r
  end.

Section Slug.

Variable toLowerCase : jstr -> jstr.

Definition toEdhrecSlug (name : jstr) : jstr :=
  hyphenate false (trim (filter slug_unit (toLowerCase name))).

End Slug.

(** ** 5.8 The proxy of the combo database *)

(** [s.indexOf("?")]; [None] is -1 *)
Fixpoint index_of_unit (d : N) (s : jstr) : option nat :=
  match s with
  | [] => None
  | c :: r => if (c =? d)%N then Some O else option_map S (index_of_unit d r)
  end.

(** the URL that [handler] fetches for the request URL [url]:
    [req.url.includes("?") ? req.url.slice(req.url.indexOf("?")) : ""]
    after the address of the variants *)
Definition handler_apiUrl (url : jstr) : jstr :=
  let qs := match index_of_unit 63 url with
            | Some i => skipn i url
            | None => []
            end in
  js "https://backend.commanderspellbook.com/variants/" ++ qs.


(* ================================================================== *)
(** * 6. Specification-side definitions                                 *)
(* ================================================================== *)

(** ** 6.1 Type permutation, in the words of its description *)

(** the text before the first unit [d] *)
Fixpoint before (d : N) (s : jstr) : jstr :=
  match s with
  | [] => []
  | c :: r => if (c =? d)%N then [] else c :: before d r
  end.

(** the words of a text: its maximal runs of units that are not white
    space; [cur] is the word being read, reversed *)
Fixpoint words_from (cur : jstr) (s : jstr) : list jstr :=
  match s with
  | [] => match cur with [] => [] | _ => [rev cur] end
  | c :: r =>
    if is_space c
    then match cur with
         | [] => words_from [] r
         | _ => rev cur :: words_from [] r
         end
    else words_from (c :: cur) r
  end.

Definition words (s : jstr) : list jstr := words_from [] s.

(** the words before the dash that are no supertype, in their order *)
Definition main_types (typeLine : jstr) : list jstr :=
  filter (fun w => negb (is_supertype w)) (words (before 8212 typeLine)).

Definition type_permutation (typeLine : jstr) : jstr :=
  match main_types typeLine with
  | [] => js "Other"
  | ws => join (js " ") ws
  end.

(** ** 6.2 Sequences of [addCard] *)

(** the entry is the one of the identifier [ident] *)
Definition has_id (ident : jsval) (c : Card) : bool :=
  strict_eq (get k_id c) ident.

(** [addCard] once per call, each with its [Date.now()] and its card *)
Definition add_all (calls : list (Z * Card)) (prev : list Card) : list Card :=
  fold_left (fun st call => addToCollection (fst call) (snd call) st) calls prev.

(** ** 6.3 Well-formed decks *)

(** the cards of a deck are an array of entries, none of them [null] *)
Definition entries_ok (cards : json) : bool :=
  match cards with
  | JArr l => forallb (fun e => match e with JNull => false | _ => true end) l
  | _ => false
  end.

(** the deck entry [e] references [cardId] *)
Definition references (cardId : jsval) (e : json) : bool :=
  match member (Some e) k_collectionId with
  | Some x => strict_eq x cardId
  | None => false
  end.

(** ** 6.4 Sample data *)

Definition str (s : string) : jsval := Some (JStr (js s)).

Definition card_atraxa : Card :=
  [(k_id, JStr (js "a1")); (k_name, JStr (js "Atraxa"));
   (k_color_identity, JArr [JStr (js "B"); JStr (js "G")])].

Definition card_atraxa_promo : Card :=
  [(k_id, JStr (js "a2")); (k_name, JStr (js "Atraxa"));
   (k_color_identity, JArr [JStr (js "B"); JStr (js "G")])].

Definition card_bolt : Card :=
  [(k_id, JStr (js "b1")); (k_name, JStr (js "Lightning Bolt"));
   (k_color_identity, JArr [JStr (js "R")])].

Definition entry (cardId : string) (qty : Z) : json :=
  JObj [(k_collectionId, JStr (js cardId)); (k_qty, JNum (Int qty))].

Definition deck_sample (format commander : jsval) : Deck :=
  {| deck_id := str "1700000000000"; deck_name := str "Superfriends";
     deck_format := format; deck_commander := commander;
     deck_cards := JArr [entry "a1" 1; entry "b1" 2] |}.

(** ** 6.5 Colour identities *)





(** ** 6.6 The order of the combos *)

(** the ratio of the required cards that the deck has; 0 for a variant
    that requires none *)
Definition coverage (a : Scored) : Q :=
  match _total a with
  | N0 => 0
  | Npos p => Z.of_N (_owned a) # p
  end.

(** [a] is not behind [b] in the descending lexicographic order of
    (owned count, coverage ratio, popularity) *)
Definition ranks_before (a b : Scored) : Prop :=
  (_owned b < _owned a)%N
  \/ (_owned a = _owned b
      /\ (coverage b < coverage a
          \/ (coverage a == coverage b
              /\ (popularity (variant b) <= popularity (variant a))%Z))).

(** a variant does not have more of its cards in the deck than it requires *)
Definition consistent (a : Scored) : Prop := (_owned a <= _total a)%N.

(** lower case for the letters of ASCII, for the examples *)
Definition ascii_lower (s : jstr) : jstr :=
  map (fun c => if ((65 <=? c) && (c <=? 90))%N then (c + 32)%N else c) s.

Definition named (name : string) : Card := [(k_name, JStr (js name))].

(** the combo of the example: two cards of the deck, and the same two
    with a third one that the deck does not have *)
Definition combo_ab (p : Z) : Variant :=
  mkVariant (js "1-2") [js "Isochron Scepter"; js "Dramatic Reversal"] p.

Definition combo_abc (p : Z) : Variant :=
  mkVariant (js "1-2-3")
            [js "Isochron Scepter"; js "Dramatic Reversal"; js "Sol Ring"] p.

Definition deck_ab : list Card :=
  [named "Isochron Scepter"; named "Dramatic Reversal"].

Definition names_ab : list jsval :=
  [str "isochron scepter"; str "dramatic reversal"].

(** ** 6.7 Values that [JSON.stringify] and [JSON.parse] carry over *)

(** a number in its one representation *)
Definition number_canonical (n : number) : bool :=
  match n with
  | Int _ => true
  | Frac m _ => negb (m mod 10 =? 0)%Z
  end.

(** the digits that a number prints: some, all of them digits, the first
    one not a zero *)
Definition leading (ds : jstr) : Prop :=
  forallb is_digit ds = true
  /\ exists c r, ds = c :: r /\ c <> 48%N.

Fixpoint distinct (ks : list jstr) : bool :=
  match ks with
  | [] => true
  | k :: r => negb (existsb (jstr_eqb k) r) && distinct r
  end.

(** a value whose numbers are in their one representation and whose
    objects have each key once, as every JS object has *)
Fixpoint json_canonical (v : json) : bool :=
  match v with
  | JNull | JBool _ | JStr _ => true
  | JNum n => number_canonical n
  | JArr l => forallb json_canonical l
  | JObj o => forallb (fun kv => json_canonical (snd kv)) o && distinct (map fst o)
  end.

(** the text of the elements of an array after its bracket, and of the
    members of an object after its brace, as [JSON_stringify] writes them *)
Fixpoint stringify_elements (l : list json) : jstr :=
  match l with
  | [] => [93%N]
  | x :: r =>
    JSON_stringify x
      ++ match r with [] => [93%N] | _ => 44%N :: stringify_elements r end
  end.

Fixpoint stringify_members (o : list (jstr * json)) : jstr :=
  match o with
  | [] => [125%N]
  | (k, x) :: r =>
    quote k ++ 58%N :: JSON_stringify x
      ++ match r with [] => [125%N] | _ => 44%N :: stringify_members r end
  end.

(** the first unit of the text of a value: no white space, no closing
    bracket or brace *)
Definition value_start (c : N) : Prop :=
  is_json_ws c = false /\ c <> 93%N /\ c <> 125%N.

(** what may follow a number literal: no digit, point or exponent mark *)
Definition delimited (rest : jstr) : bool :=
  match rest with
  | [] => true
  | c :: _ => negb (is_digit c || (c =? 46) || (c =? 101) || (c =? 69))%N
  end.

(** calls of the parser that the text of a value needs *)
Fixpoint value_fuel (v : json) : nat :=
  match v with
  | JArr l => S (fold_right (fun x n => S (value_fuel x + n)) O l)
  | JObj o => S (fold_right (fun kv n => S (value_fuel (snd kv) + n)) O o)
  | _ => 1
  end.

(** the text of [v], followed by [rest], is read back as [v] and [rest] *)
Definition roundtrips (v : json) : Prop :=
  json_canonical v = true ->
  forall fuel rest,
    (value_fuel v <= fuel)%nat -> delimited rest = true ->
    parse_value fuel (JSON_stringify v ++ rest) = Some (v, rest).

(** a parse that succeeded with some fuel succeeds with the fuel that the
    text it read calls for: [slack] is 1 for a value, 2 for the elements
    of an array and the members of an object *)
Definition fuel_adequate {A} (parse : nat -> jstr -> option (A * jstr))
           (slack : nat) (f : nat) : Prop :=
  forall s x r,
    parse f s = Some (x, r) ->
    (length r + slack <= length s)%nat
    /\ forall f', (2 * (length s - length r) - slack <= f')%nat ->
                  parse f' s = Some (x, r).

(** induction on values, through arrays and objects *)
Section JsonInduction.

Variable P : json -> Prop.
Hypothesis P_null : P JNull.
Hypothesis P_bool : forall b, P (JBool b).
Hypothesis P_num : forall n, P (JNum n).
Hypothesis P_str : forall s, P (JStr s).
Hypothesis P_arr : forall l, Forall P l -> P (JArr l).
Hypothesis P_obj : forall o, Forall (fun kv => P (snd kv)) o -> P (JObj o).

Fixpoint json_induction (v : json) : P v :=
  match v with
  | JNull => P_null
  | JBool b => P_bool b
  | JNum n => P_num n
  | JStr s => P_str s
  | JArr l =>
    P_arr ((fix all (l : list json) : Forall P l :=
              match l with
              | [] => Forall_nil P
              | x :: r => Forall_cons x (json_induction x) (all r)
              end) l)
  | JObj o =>
    P_obj ((fix all (o : list (jstr * json)) : Forall (fun kv => P (snd kv)) o :=
              match o with
              | [] => Forall_nil _
              | kv :: r => Forall_cons kv (json_induction (snd kv)) (all r)
              end) o)
  end.

End JsonInduction.

(** ** 6.8 Valid cards and decks *)

(** a CollectionCard: an object, with a quantity that is an integer, 1 at
    least (and below 10^21, from where on [String] writes an exponent,
    far above the integers that a JS number counts exactly) *)
Definition valid_card (c : Card) : Prop :=
  json_canonical (JObj c) = true
  /\ exists q, (1 <= q)%Z /\ (q < 10 ^ 21)%Z
               /\ get k_qty c = Some (JNum (Int q)).

(** the commander of the deck is the empty reference, or the identifier
    of a card of the collection that has a name and is the first card of
    that name *)
Definition commander_resolves (deck : Deck) (coll : list Card) : Prop :=
  deck_commander deck = Some (JStr [])
  \/ exists cid c nm c',
      deck_commander deck = Some cid /\ truthy cid = true
      /\ find_by k_id (Some cid) coll = Some c
      /\ get k_name c = Some nm /\ truthy nm = true
      /\ find_by k_name (Some nm) coll = Some c'
      /\ get k_id c' = Some cid.

(** ** 6.9 Well-formed states and the operations of the interface *)

(** the quantity of a card is an integer, 1 at least *)
Definition card_ok (c : Card) : bool :=
  match get k_qty c with
  | Some (JNum (Int q)) => (1 <=? q)%Z
  | _ => false
  end.

(** a deck entry is an object whose quantity is an integer, 1 at least *)
Definition entry_ok (e : json) : bool :=
  match e with
  | JObj o => card_ok o
  | _ => false
  end.

Definition deck_ok (d : Deck) : bool :=
  match deck_cards d with
  | JArr l => forallb entry_ok l
  | _ => false
  end.

(** no two cards of the collection have the same identifier *)
Fixpoint ids_distinct (l : list Card) : bool :=
  match l with
  | [] => true
  | c :: r => negb (existsb (has_id (get k_id c)) r) && ids_distinct r
  end.

Definition state_ok (st : AppState) : bool :=
  forallb card_ok (collection st) && ids_distinct (collection st)
  && forallb deck_ok (decks st).

(** what the interface lets the user do: the buttons call the mutations
    with these arguments (the quantity buttons pass 1 and -1) *)
Inductive operation :=
| AddCard (now : Z) (card : Card)
| RemoveCard (cardId : jsval)
| UpdateQty (cardId : jsval) (delta : Z)
| ToggleDeck (collectionCard : Card) (deckId : jsval)
| CreateDeck (now : Z) (name : jstr)
| DeleteDeck (ident : jsval)
| DeckAdd (deckId cardId : jsval)
| DeckRemove (deckId cardId : jsval)
| DeckQty (deckId cardId : jsval) (delta : Z)
| SetFormat (deckId : jsval) (fmt : jstr)
| SetCommander (deckId commander : jsval).

Definition with_collection (st : AppState) (c : list Card) : AppState :=
  {| collection := c; decks := decks st;
     syncStatus := syncStatus st; syncMsg := syncMsg st |}.

Definition with_decks (st : AppState) (d : list Deck) : AppState :=
  {| collection := collection st; decks := d;
     syncStatus := syncStatus st; syncMsg := syncMsg st |}.

(** the state after an operation; [None] when the mutation throws or
    leaves the values of the model *)
Definition apply_operation (op : operation) (st : AppState) : option AppState :=
  match op with
  | AddCard now card =>
    Some (with_collection st (addToCollection now card (collection st)))
  | RemoveCard cardId => removeFromCollection cardId st
  | UpdateQty cardId delta =>
    option_map (with_collection st)
               (updateQty cardId (Some (JNum (Int delta))) (collection st))
  | ToggleDeck card deckId =>
    option_map (with_decks st) (toggleCardInDeck card deckId (decks st))
  | CreateDeck now name =>
    Some (with_decks st (snd (createDeck now (mkDecksTab JNull name) (decks st))))
  | DeleteDeck ident =>
    Some (with_decks st (snd (deleteDeck ident (mkDecksTab JNull []) (decks st))))
  | DeckAdd deckId cardId =>
    option_map (with_decks st) (updateDeck deckId (deck_onAdd cardId) (decks st))
  | DeckRemove deckId cardId =>
    option_map (with_decks st) (updateDeck deckId (deck_onRemove cardId) (decks st))
  | DeckQty deckId cardId delta =>
    option_map (with_decks st)
               (updateDeck deckId (deck_onQty cardId (Some (JNum (Int delta))))
                           (decks st))
  | SetFormat deckId fmt =>
    option_map (with_decks st)
               (updateDeck deckId (fun dk => Some (set_format fmt dk)) (decks st))
  | SetCommander deckId commander =>
    option_map (with_decks st)
               (updateDeck deckId (fun dk => Some (set_commander commander dk))
                           (decks st))
  end.

Fixpoint apply_operations (ops : list operation) (st : AppState)
  : option AppState :=
  match ops with
  | [] => Some st
  | op :: rest =>
    match apply_operation op st with
    | Some st' => apply_operations rest st'
    | None => None
    end
  end.

(** the card that a deck is toggled for is a card of the collection, a
    bare [{ id }], or a row of the unique-names view: its [_editionCards],
    if any, are cards *)
Definition operation_ok (op : operation) : bool :=
  match op with
  | ToggleDeck card _ =>
    match editionIds card with Some _ => true | None => false end
  | _ => true
  end.

(** the sum of the quantities of a collection of well-formed cards *)
Definition quantity (c : Card) : Z :=
  match get k_qty c with
  | Some (JNum (Int q)) => q
  | _ => 1%Z
  end.

Definition sum_quantities (l : list Card) : Z :=
  fold_right (fun c s => (quantity c + s)%Z) 0%Z l.


(** the deck has an entry of the card *)
Definition holds_card (cardId : jsval) (dk : Deck) : bool :=
  match deck_cards dk with
  | JArr l => existsb (references cardId) l
  | _ => false
  end.

(** the quantity of a deck entry *)
Definition entry_quantity (e : json) : Z :=
  match e with
  | JObj o => quantity o
  | _ => 1%Z
  end.


(** ** 6.10 The sheet *)

(** an ideal sheet, as far as [loadFromSheets] reads it: the rows below the
    header after the requests are those of the last write, none after a
    clear, and the cells come back as they were written; a read of
    [A2:H1000] or [A2:E1000] takes the first 999 of them *)
Definition rows_after (clear_range update_range : jstr) (sent : list request)
  : list row :=
  firstn 999
    (fold_left
       (fun rows r =>
          match r with
          | Clear range _ => if jstr_eqb range clear_range then [] else rows
          | Update range values _ =>
            if jstr_eqb range update_range then values else rows
          end) sent []).

(** a deck that [deckToRow] and [rowToDeck] carry over, with the
    collection [coll] *)
Definition valid_deck (coll : list Card) (d : Deck) : Prop :=
  json_canonical (deck_cards d) = true
  /\ truthy_val (deck_format d) = true
  /\ commander_resolves d coll.


(** ** 6.11 The editions of a name *)

(** the values in the order of their first occurrence, each once *)
Fixpoint first_names (l : list jsval) : list jsval :=
  match l with
  | [] => []
  | n :: r => n :: filter (fun x => negb (strict_eq x n)) (first_names r)
  end.

(** the card has the name [n] *)
Definition named_like (n : jsval) (c : Card) : bool := strict_eq (get k_name c) n.

(** a value that [===] finds equal to itself: no array, no object *)
Definition primitive (v : jsval) : bool := strict_eq v v.

(** the row of the editions [eds] of one name, before its [qty] is set *)
Definition edition_row (eds : list Card) : Card :=
  match eds with
  | [] => []
  | c1 :: _ =>
    set k_editionCards (JArr (map JObj eds))
        (set k_editions (JNum (Int (Z.of_nat (length eds))))
             (set k_totalQty (JNum (Int (sum_quantities eds))) c1))
  end.


(** the deck entry [e] references one of the identifiers *)
Definition references_any (ids : list jsval) (e : json) : bool :=
  existsb (fun i => references i e) ids.


(** ** 6.12 The sections of a deck *)

(** the type permutation of a card, for a card that has one *)
Definition type_of (c : Card) : jstr :=
  match getTypePermutation (get (js "type_line") c) with
  | Some t => t
  | None => []
  end.

(** the card has a type permutation, and it names no property of
    [Object.prototype] *)
Definition sectionable (c : Card) : bool :=
  match getTypePermutation (get (js "type_line") c) with
  | Some t => negb (existsb (jstr_eqb t) Object_prototype)
  | None => false
  end.

(** the place of a type in the display order; the types that the order
    does not list come after all others *)
Definition group_rank (t : jstr) : nat :=
  match indexOf t TYPE_GROUP_ORDER with
  | Some i => i
  | None => length TYPE_GROUP_ORDER
  end.


(** ** 6.13 The invariant of [pool] *)

Section PoolInvariant.

Variable R : Type.

(** between two steps of the event loop, after the tasks of [done] have
    resolved, in a pool of [n] tasks with [k] runners: the tasks below
    [next_index] are those that were started, each of them is awaited by
    a runner or has its result stored, and all [k] runners are at work as
    long as a task is left to start *)
Definition pool_inv (n k : nat) (done : list (nat * R)) (p : PoolState R) : Prop :=
  task_count p = n
  /\ (next_index p <= n)%nat
  /\ length (results p) = n
  /\ NoDup (running p)
  /\ NoDup (map fst done)
  /\ (forall i, (i < next_index p)%nat <-> In i (running p) \/ In i (map fst done))
  /\ (forall i, In i (running p) -> ~ In i (map fst done))
  /\ (forall i v, In (i, v) done -> nth i (results p) None = Some v)
  /\ (forall i, ~ In i (map fst done) -> nth i (results p) None = None)
  /\ (length (running p) <= k)%nat
  /\ ((next_index p < n)%nat -> length (running p) = k).

End PoolInvariant.


(** ** 6.14 Slugs *)

(** a lower-case letter of ASCII, a digit or a hyphen *)
Definition slug_char (c : N) : bool :=
  ((97 <=? c) && (c <=? 122) || (48 <=? c) && (c <=? 57) || (c =? 45))%N.


(* ================================================================== *)
(** * 7. Properties                                                     *)
(* ================================================================== *)

(** ** 7.1 Strings and values *)

Lemma jstr_eqb_eq (a b : jstr) : jstr_eqb a b = true <-> a = b.
Proof.
  unfold jstr_eqb. destruct (list_eq_dec N.eq_dec a b); split; congruence.
Qed.

Lemma jstr_eqb_refl (a : jstr) : jstr_eqb a a = true.
Proof. now apply jstr_eqb_eq. Qed.

Lemma jstr_eqb_neq (a b : jstr) : jstr_eqb a b = false <-> a <> b.
Proof.
  unfold jstr_eqb. destruct (list_eq_dec N.eq_dec a b); split; congruence.
Qed.

Lemma number_eqb_eq (a b : number) : number_eqb a b = true <-> a = b.
Proof.
  destruct a, b; simpl; split; intros H; try discriminate.
  - apply Z.eqb_eq in H. now subst.
  - injection H as ->. apply Z.eqb_refl.
  - apply andb_true_iff in H as [H1 H2].
    apply Z.eqb_eq in H1. apply Pos.eqb_eq in H2. now subst.
  - injection H as -> ->. now rewrite Z.eqb_refl, Pos.eqb_refl.
Qed.

(** what [===] holds of is one and the same value *)
Lemma strict_eq_true (a b : jsval) : strict_eq a b = true -> a = b.
Proof.
  destruct a as [[| x | x | x | x | x]|], b as [[| y | y | y | y | y]|];
    simpl; intros H; try discriminate; try reflexivity.
  - apply Bool.eqb_prop in H. now subst.
  - apply number_eqb_eq in H. now subst.
  - apply jstr_eqb_eq in H. now subst.
Qed.

Lemma strict_eq_str_refl (a : jstr) :
  strict_eq (Some (JStr a)) (Some (JStr a)) = true.
Proof. apply jstr_eqb_refl. Qed.

Lemma nonempty_rev (s : jstr) : nonempty (rev s) = nonempty s.
Proof.
  destruct s as [|c r]; [reflexivity|]. simpl.
  destruct (rev r ++ [c]) eqn:E; [|reflexivity].
  now apply app_eq_nil in E as [_ E].
Qed.

(** ** 7.2 [getTypePermutation] *)

Lemma split_first_dash (s : jstr) : split_first em_dash s = before 8212 s.
Proof.
  induction s as [|c r IH]; [reflexivity|].
  change em_dash with [8212%N] in *.
  change (split_first [8212%N] (c :: r))
    with (match (if (8212 =? c)%N then Some r else None) with
          | Some _ => []
          | None => c :: split_first [8212%N] r
          end).
  simpl before. rewrite (N.eqb_sym 8212 c).
  destruct (c =? 8212)%N; [reflexivity|]. f_equal. exact IH.
Qed.

(** the pieces of [split] that are not empty are the words *)
Lemma split_ws_words (s cur : jstr) (in_run : bool) :
  (in_run = true -> cur = []) ->
  filter nonempty (split_ws_from cur in_run s) = words_from cur s.
Proof.
  revert cur in_run. induction s as [|c r IH]; intros cur in_run Hrun; simpl.
  - rewrite nonempty_rev. now destruct cur.
  - destruct (is_space c).
    + destruct in_run.
      * rewrite (Hrun eq_refl). now apply IH.
      * simpl. rewrite nonempty_rev. destruct cur; simpl; now rewrite IH.
    + apply IH. discriminate.
Qed.

Lemma words_trim_start (s : jstr) : words (trim_start s) = words s.
Proof.
  unfold words. induction s as [|c r IH]; [reflexivity|].
  simpl. destruct (is_space c) eqn:E; [exact IH|].
  simpl. now rewrite E.
Qed.

Lemma words_from_spaces (ws cur : jstr) :
  forallb is_space ws = true -> words_from cur ws = words_from cur [].
Proof.
  intros H. destruct ws as [|c r]; [reflexivity|].
  simpl in H. apply andb_true_iff in H as [Hc Hr]. simpl. rewrite Hc.
  assert (E : words_from [] r = []).
  { clear Hc. induction r as [|d r IH]; [reflexivity|].
    simpl in Hr. apply andb_true_iff in Hr as [Hd Hr]. simpl. rewrite Hd.
    now apply IH. }
  rewrite E. now destruct cur.
Qed.

Lemma words_from_app_spaces (s ws cur : jstr) :
  forallb is_space ws = true -> words_from cur (s ++ ws) = words_from cur s.
Proof.
  intros H. revert cur. induction s as [|c r IH]; intros cur; simpl.
  - now apply words_from_spaces.
  - destruct (is_space c); [destruct cur|]; now rewrite IH.
Qed.

Lemma trim_start_split (s : jstr) :
  exists ws, forallb is_space ws = true /\ s = ws ++ trim_start s.
Proof.
  induction s as [|c r [ws [Hws E]]]; [now exists []|].
  simpl. destruct (is_space c) eqn:Ec.
  - exists (c :: ws). simpl. rewrite Ec, Hws. split; [reflexivity|]. now f_equal.
  - now exists [].
Qed.

Lemma words_trim (s : jstr) : words (trim s) = words s.
Proof.
  unfold trim. rewrite <- (words_trim_start s).
  destruct (trim_start_split (rev (trim_start s))) as [ws [Hws E]].
  apply (f_equal (@rev N)) in E. rewrite rev_involutive, rev_app_distr in E.
  rewrite E at 2. unfold words. rewrite words_from_app_spaces; [reflexivity|].
  rewrite forallb_forall in *. intros x Hx. apply Hws. now apply in_rev.
Qed.

Lemma words_from_nonempty (s cur : jstr) :
  Forall (fun w => w <> []) (words_from cur s).
Proof.
  revert cur. induction s as [|c r IH]; intros cur; simpl.
  - destruct cur as [|x cur]; constructor; [|constructor].
    intros E. apply (f_equal (@length N)) in E. rewrite length_rev in E.
    discriminate.
  - destruct (is_space c); [|apply IH].
    destruct cur as [|x cur]; [apply IH|]. constructor; [|apply IH].
    intros E. apply (f_equal (@length N)) in E. rewrite length_rev in E.
    discriminate.
Qed.

Lemma join_nonempty (sep : jstr) (l : list jstr) :
  Forall (fun w => w <> []) l -> l <> [] -> nonempty (join sep l) = true.
Proof.
  intros H Hl. destruct l as [|x r]; [congruence|].
  inversion H as [|? ? Hx _]; subst.
  destruct x as [|c x]; [congruence|]. now destruct r.
Qed.

(** [before d s] is the text of [s] up to its first [d] *)
Lemma before_spec (d : N) (s : jstr) :
  ~ In d (before d s)
  /\ (before d s = s \/ exists rest, s = before d s ++ d :: rest).
Proof.
  induction s as [|c r [IH1 IH2]]; [split; [intros []|now left]|].
  simpl. destruct (N.eqb_spec c d) as [->|Hc].
  - split; [intros []|]. right. now exists r.
  - split; [intros [H|H]; [congruence|contradiction]|].
    destruct IH2 as [E|[rest E]]; [left; now rewrite E|].
    right. exists rest. simpl. now rewrite <- E.
Qed.

(** the words have no white space, and are, one after the other, the
    units of the text that are not white space *)
Lemma words_from_spec (s cur : jstr) :
  forallb (fun c => negb (is_space c)) cur = true ->
  Forall (fun w => forallb (fun c => negb (is_space c)) w = true)
         (words_from cur s)
  /\ concat (words_from cur s)
     = rev cur ++ filter (fun c => negb (is_space c)) s.
Proof.
  revert cur. induction s as [|c r IH]; intros cur Hcur.
  - assert (Hrev : forallb (fun c => negb (is_space c)) (rev cur) = true).
    { rewrite forallb_forall in *. intros x Hx. apply Hcur. now apply in_rev. }
    simpl. destruct cur as [|x cur'].
    + split; [constructor|reflexivity].
    + split; [now repeat constructor|]. simpl. now rewrite !app_nil_r.
  - simpl. destruct (is_space c) eqn:Ec; simpl.
    + destruct (IH [] eq_refl) as [F E].
      assert (Hrev : forallb (fun c => negb (is_space c)) (rev cur) = true).
      { rewrite forallb_forall in *. intros x Hx. apply Hcur. now apply in_rev. }
      destruct cur as [|x cur'].
      * split; [exact F|exact E].
      * split; [now constructor|]. simpl concat. now rewrite E.
    + destruct (IH (c :: cur)) as [F E]; [simpl; now rewrite Ec|].
      split; [exact F|]. rewrite E. simpl. now rewrite <- app_assoc.
Qed.

Lemma words_spec (s : jstr) :
  Forall (fun w => w <> []
                   /\ forallb (fun c => negb (is_space c)) w = true) (words s)
  /\ concat (words s) = filter (fun c => negb (is_space c)) s.
Proof.
  destruct (words_from_spec s [] eq_refl) as [F E]. split; [|exact E].
  pose proof (words_from_nonempty s []) as Hne. unfold words.
  rewrite Forall_forall in *. auto.
Qed.

(** the source computes the type permutation of the description *)
Lemma getTypePermutation_refines (typeLine : jstr) :
  getTypePermutation (Some (JStr typeLine)) = Some (type_permutation typeLine).
Proof.
  unfold getTypePermutation, type_permutation, main_types.
  assert (E : js_or (Some (JStr typeLine)) (JStr []) = JStr typeLine)
    by now destruct typeLine.
  rewrite E, split_first_dash. unfold split_ws.
  rewrite split_ws_words by discriminate.
  fold (words (trim (before 8212 typeLine))). rewrite words_trim.
  set (ws := filter _ (words _)).
  assert (Hne : Forall (fun w : jstr => w <> []) ws).
  { apply Forall_forall. intros w Hw. apply filter_In in Hw as [Hw _].
    pose proof (words_from_nonempty (before 8212 typeLine) []) as F.
    rewrite Forall_forall in F. now apply F. }
  destruct ws as [|w ws'] eqn:Ews; [reflexivity|].
  rewrite join_nonempty; [reflexivity|exact Hne|discriminate].
Qed.

(** the two examples of the description, and the one that it gets wrong *)
Example type_permutation_equipment :
  getTypePermutation (Some (JStr (js "Legendary Artifact Creature — Equipment")))
  = Some (js "Artifact Creature").
Proof. vm_compute. reflexivity. Qed.

Example type_permutation_land :
  getTypePermutation (Some (JStr (js "Land"))) = Some (js "Land").
Proof. vm_compute. reflexivity. Qed.

Example type_permutation_missing :
  getTypePermutation undefined = Some (js "Other").
Proof. vm_compute. reflexivity. Qed.

(** C4, as stated, fails: for "Basic Land — Island" the source answers
    "Land", not "Other": "Land" is no supertype. *)
Lemma getTypePermutation_basic_land_is_not_other :
  getTypePermutation (Some (JStr (js "Basic Land — Island"))) = Some (js "Land")
  /\ getTypePermutation (Some (JStr (js "Basic Land — Island")))
     <> Some (js "Other").
Proof. split; vm_compute; [reflexivity|discriminate]. Qed.

(** C4 (amended): for every type-line string, [getTypePermutation] gives
    the words before the first dash that are no supertype, in their order,
    joined by a space, and "Other" when there is none; in particular
    "Legendary Artifact Creature — Equipment" gives "Artifact Creature" and
    "Basic Land — Island" gives "Land". *)
Theorem getTypePermutation_spec :
  (forall typeLine : jstr,
      getTypePermutation (Some (JStr typeLine))
      = Some (match main_types typeLine with
              | [] => js "Other"
              | ws => join (js " ") ws
              end))
  /\ getTypePermutation
       (Some (JStr (js "Legendary Artifact Creature — Equipment")))
     = Some (js "Artifact Creature")
  /\ getTypePermutation (Some (JStr (js "Basic Land — Island")))
     = Some (js "Land").
Proof.
  split; [|split].
  - exact getTypePermutation_refines.
  - vm_compute. reflexivity.
  - vm_compute. reflexivity.
Qed.

(** ** 7.3 Objects *)

Lemma get_set_same (k : jstr) (v : json) (o : obj) : get k (set k v o) = Some v.
Proof.
  induction o as [|[k' v'] r IH]; simpl.
  - now rewrite jstr_eqb_refl.
  - destruct (jstr_eqb k k') eqn:E; simpl; rewrite ?jstr_eqb_refl, ?E; auto.
Qed.

Lemma get_set_other (k k' : jstr) (v : json) (o : obj) :
  k <> k' -> get k' (set k v o) = get k' o.
Proof.
  intros Hk. assert (Hk' : jstr_eqb k' k = false)
    by (apply jstr_eqb_neq; congruence).
  induction o as [|[k0 v0] r IH]; simpl.
  - now rewrite Hk'.
  - destruct (jstr_eqb k k0) eqn:E; simpl.
    + apply jstr_eqb_eq in E. subst k0. now rewrite Hk'.
    + now rewrite IH.
Qed.

Lemma find_all_false {A} (f : A -> bool) (l : list A) :
  (forall x, In x l -> f x = false) -> find f l = None.
Proof.
  induction l as [|x r IH]; intros H; [reflexivity|].
  simpl. rewrite (H x (or_introl eq_refl)). apply IH.
  intros y Hy. apply H. now right.
Qed.

Lemma find_exists {A} (f : A -> bool) (l : list A) :
  existsb f l = true -> exists x, find f l = Some x.
Proof.
  induction l as [|x r IH]; simpl; [discriminate|].
  destruct (f x); [now exists x|exact IH].
Qed.

(** ** 7.4 [addToCollection] *)

Lemma k_id_not_qty : k_qty <> k_id.
Proof. vm_compute. discriminate. Qed.

Lemma k_id_not_addedAt : js "addedAt" <> k_id.
Proof. vm_compute. discriminate. Qed.

Lemma k_qty_not_addedAt : js "addedAt" <> k_qty.
Proof. vm_compute. discriminate. Qed.

(** the first [addCard] of an identifier appends one entry of quantity 1 *)
Lemma addToCollection_absent (now : Z) (card : Card) (prev : list Card) :
  (forall c, In c prev -> has_id (get k_id card) c = false) ->
  addToCollection now card prev
  = prev ++ [set (js "addedAt") (JNum (Int now)) (set k_qty (JNum (Int 1)) card)].
Proof.
  intros H. unfold addToCollection.
  assert (E : find (fun c => strict_eq (get k_id c) (get k_id card)) prev = None)
    by (apply find_all_false; exact H).
  now rewrite E.
Qed.

(** an [addCard] of a present identifier maps over the entries *)
Lemma addToCollection_present (now : Z) (card : Card) (prev : list Card) :
  existsb (has_id (get k_id card)) prev = true ->
  addToCollection now card prev
  = map (fun c =>
           if has_id (get k_id card) c
           then set k_qty (js_add_one (js_or (get k_qty c) (JNum (Int 1)))) c
           else c) prev.
Proof.
  intros H. unfold addToCollection.
  destruct (find_exists _ _ H) as [x Hx].
  change (find (fun c => strict_eq (get k_id c) (get k_id card)) prev = Some x)
    in Hx.
  now rewrite Hx.
Qed.

(** [(q || 1) + 1] is [q + 1] for a number [q] that is not 0 *)
Lemma bump_quantity (c : Card) (q : Z) :
  get k_qty c = Some (JNum (Int q)) -> q <> 0%Z ->
  js_add_one (js_or (get k_qty c) (JNum (Int 1))) = JNum (Int (q + 1)).
Proof.
  intros E Hq. rewrite E. simpl.
  destruct (Z.eqb_spec q 0) as [->|_]; [congruence|reflexivity].
Qed.

Lemma add_all_cons (call : Z * Card) (calls : list (Z * Card)) (prev : list Card) :
  add_all (call :: calls) prev
  = add_all calls (addToCollection (fst call) (snd call) prev).
Proof. reflexivity. Qed.

Lemma add_all_single_entry (i : jstr) (calls : list (Z * Card)) :
  Forall (fun call => get k_id (snd call) = Some (JStr i)) calls ->
  forall (prev : list Card) (e : Card) (q : Z),
    (forall c, In c prev -> has_id (Some (JStr i)) c = false) ->
    get k_id e = Some (JStr i) ->
    get k_qty e = Some (JNum (Int q)) -> (1 <= q)%Z ->
    exists e',
      add_all calls (prev ++ [e]) = prev ++ [e']
      /\ get k_id e' = Some (JStr i)
      /\ get k_qty e' = Some (JNum (Int (q + Z.of_nat (length calls)))).
Proof.
  induction 1 as [|[now card] calls Hid _ IH]; intros prev e q Hprev He Hq Hpos.
  - exists e. simpl. rewrite Z.add_0_r. auto.
  - simpl in Hid. rewrite add_all_cons. simpl fst. simpl snd.
    assert (Hhas : has_id (Some (JStr i)) e = true)
      by (unfold has_id; rewrite He; apply strict_eq_str_refl).
    rewrite addToCollection_present;
      [|rewrite Hid, existsb_app; simpl; rewrite Hhas; apply orb_true_iff; auto].
    rewrite Hid, map_app. simpl. rewrite Hhas.
    rewrite (bump_quantity e Hq) by lia.
    assert (Emap : map (fun c => if has_id (Some (JStr i)) c
                                 then set k_qty (js_add_one (js_or (get k_qty c) (JNum (Int 1)))) c
                                 else c) prev = prev).
    { clear - Hprev. induction prev as [|c r IHr]; [reflexivity|].
      simpl. rewrite (Hprev c (or_introl eq_refl)). f_equal.
      apply IHr. intros x Hx. apply Hprev. now right. }
    rewrite Emap.
    destruct (IH prev (set k_qty (JNum (Int (q + 1))) e) (q + 1)%Z)
      as [e' [E1 [E2 E3]]]; auto.
    + now rewrite (get_set_other _ _ k_id_not_qty).
    + apply get_set_same.
    + lia.
    + exists e'. split; [exact E1|]. split; [exact E2|].
      rewrite E3. do 2 f_equal. f_equal. simpl length. lia.
Qed.

(** C1: from a state without the identifier, [n >= 1] calls of [addCard]
    with it leave one entry for it, of quantity [n]; an [addCard] of a
    present identifier adds 1 to the quantity of its entry (a number that
    is not 0, as the quantity of every CollectionCard is) and makes no
    entry: the entries keep their places and their identifiers, and the
    other ones are unchanged. *)
Theorem addToCollection_quantity (i : jstr) :
  (forall (prev : list Card) (calls : list (Z * Card)),
      calls <> [] ->
      Forall (fun call => get k_id (snd call) = Some (JStr i)) calls ->
      (forall c, In c prev -> has_id (Some (JStr i)) c = false) ->
      exists e,
        add_all calls prev = prev ++ [e]
        /\ get k_id e = Some (JStr i)
        /\ get k_qty e = Some (JNum (Int (Z.of_nat (length calls))))
        /\ length (filter (has_id (Some (JStr i))) (add_all calls prev)) = 1%nat)
  /\
  (forall (now : Z) (card : Card) (prev : list Card),
      get k_id card = Some (JStr i) ->
      existsb (has_id (Some (JStr i))) prev = true ->
      Forall2
        (fun c c' =>
           get k_id c' = get k_id c
           /\ (has_id (Some (JStr i)) c = false -> c' = c)
           /\ (has_id (Some (JStr i)) c = true ->
               forall q, get k_qty c = Some (JNum (Int q)) -> q <> 0%Z ->
                 get k_qty c' = Some (JNum (Int (q + 1)))
                 /\ forall k, k <> k_qty -> get k c' = get k c))
        prev (addToCollection now card prev)).
Proof.
  split.
  - intros prev calls Hne Hids Hprev.
    destruct calls as [|[now card] calls]; [congruence|].
    inversion Hids as [|? ? Hid Hrest]; subst. simpl in Hid.
    rewrite add_all_cons. simpl fst. simpl snd.
    rewrite addToCollection_absent by (now rewrite Hid).
    destruct (add_all_single_entry Hrest prev
                (set (js "addedAt") (JNum (Int now)) (set k_qty (JNum (Int 1)) card))
                (q := 1%Z)) as [e [E1 [E2 E3]]]; auto.
    + rewrite (get_set_other _ _ k_id_not_addedAt).
      now rewrite (get_set_other _ _ k_id_not_qty).
    + rewrite (get_set_other _ _ k_qty_not_addedAt). apply get_set_same.
    + lia.
    + exists e. split; [exact E1|]. split; [exact E2|]. split.
      * rewrite E3. do 3 f_equal. simpl length. lia.
      * assert (G : forall x : list Card,
                   x = prev ++ [e] ->
                   length (filter (has_id (Some (JStr i))) x) = 1%nat);
          [|now apply G].
        intros x ->. rewrite filter_app, length_app. simpl. unfold has_id at 2.
        rewrite E2, strict_eq_str_refl. simpl.
        assert (F : filter (has_id (Some (JStr i))) prev = []).
        { clear - Hprev. induction prev as [|c r IH]; [reflexivity|].
          simpl. rewrite (Hprev c (or_introl eq_refl)). apply IH.
          intros x Hx. apply Hprev. now right. }
        now rewrite F.
  - intros now card prev Hid Hex.
    rewrite addToCollection_present by (now rewrite Hid). rewrite Hid.
    clear Hex. induction prev as [|c r IH]; simpl; constructor; [|exact IH].
    destruct (has_id (Some (JStr i)) c) eqn:Hc.
    + split; [now rewrite (get_set_other _ _ k_id_not_qty)|].
      split; [discriminate|]. intros _ q Hq Hq0.
      rewrite (bump_quantity c Hq Hq0). split; [apply get_set_same|].
      intros k Hk. apply get_set_other. congruence.
    + split; [reflexivity|]. split; [reflexivity|discriminate].
Qed.

(** two calls on an empty collection, and a third one on their result *)
Lemma addToCollection_quantity_witness :
  (exists e,
      add_all [(5%Z, card_atraxa); (6%Z, card_atraxa)] [card_bolt]
      = [card_bolt] ++ [e]
      /\ get k_id e = Some (JStr (js "a1"))
      /\ get k_qty e = Some (JNum (Int 2))
      /\ length (filter (has_id (Some (JStr (js "a1"))))
                   (add_all [(5%Z, card_atraxa); (6%Z, card_atraxa)] [card_bolt]))
         = 1%nat)
  /\ Forall2
       (fun c c' =>
          get k_id c' = get k_id c
          /\ (has_id (Some (JStr (js "a1"))) c = false -> c' = c)
          /\ (has_id (Some (JStr (js "a1"))) c = true ->
              forall q, get k_qty c = Some (JNum (Int q)) -> q <> 0%Z ->
                get k_qty c' = Some (JNum (Int (q + 1)))
                /\ forall k, k <> k_qty -> get k c' = get k c))
       (add_all [(5%Z, card_atraxa)] [card_bolt])
       (addToCollection 7 card_atraxa (add_all [(5%Z, card_atraxa)] [card_bolt])).
Proof.
  split.
  - apply (proj1 (addToCollection_quantity (js "a1"))).
    + discriminate.
    + repeat constructor.
    + intros c [<-|[]]. reflexivity.
  - apply (proj2 (addToCollection_quantity (js "a1"))); reflexivity.
Defined.

(** ** 7.5 [removeFromCollection] *)

Lemma filter_entries_total (cardId : jsval) (l : list json) :
  forallb (fun e => match e with JNull => false | _ => true end) l = true ->
  exists l',
    filter_entries cardId l = Some l'
    /\ forall e, In e l' <-> In e l /\ references cardId e = false.
Proof.
  induction l as [|c r IH]; cbn [filter_entries forallb]; intros H.
  - exists []. split; [reflexivity|]. simpl. tauto.
  - apply andb_true_iff in H as [Hc Hr]. destruct (IH Hr) as [r' [E Hin]].
    rewrite E.
    assert (Hm : exists x, member (Some c) k_collectionId = Some x)
      by (destruct c; try discriminate; simpl; eauto).
    destruct Hm as [x Hx]. rewrite Hx.
    assert (Href : references cardId c = strict_eq x cardId)
      by (unfold references; now rewrite Hx).
    destruct (strict_eq x cardId) eqn:Ex; simpl; eexists; split;
      try reflexivity; intros e; rewrite ?Hin; simpl.
    + split; [tauto|]. intros [[<-|He] Hf]; [congruence|tauto].
    + rewrite Hin. split.
      * intros [<-|He]; [split; [now left|congruence]|tauto].
      * intros [[<-|He] Hf]; [now left|tauto].
Qed.

(** C2: [removeCard(id)], on decks whose card lists are arrays of entries,
    leaves no collection entry and no deck entry that references the
    identifier, keeps every other collection entry and every other deck
    entry as it is, and keeps the identifier, name, format and commander
    of every deck. *)
Theorem removeFromCollection_cascade (cardId : jsval) (st : AppState) :
  Forall (fun d => entries_ok (deck_cards d) = true) (decks st) ->
  exists st',
    removeFromCollection cardId st = Some st'
    /\ (forall c, In c (collection st')
                  <-> In c (collection st) /\ has_id cardId c = false)
    /\ Forall2
         (fun d d' =>
            deck_id d' = deck_id d /\ deck_name d' = deck_name d
            /\ deck_format d' = deck_format d
            /\ deck_commander d' = deck_commander d
            /\ exists l l',
                deck_cards d = JArr l /\ deck_cards d' = JArr l'
                /\ forall e, In e l' <-> In e l /\ references cardId e = false)
         (decks st) (decks st').
Proof.
  intros Hok. unfold removeFromCollection.
  set (f := fun d : Deck => match without_card cardId (deck_cards d) with
                           | Some cs => Some _
                           | None => None
                           end).
  assert (Hd : exists ds,
             map_throwing f (decks st) = Some ds
             /\ Forall2
                  (fun d d' =>
                     deck_id d' = deck_id d /\ deck_name d' = deck_name d
                     /\ deck_format d' = deck_format d
                     /\ deck_commander d' = deck_commander d
                     /\ exists l l',
                         deck_cards d = JArr l /\ deck_cards d' = JArr l'
                         /\ forall e, In e l'
                                      <-> In e l /\ references cardId e = false)
                  (decks st) ds).
  { induction Hok as [|d r Hd _ IH]; [exists []; split; [reflexivity|constructor]|].
    destruct IH as [ds [E F]]. simpl. rewrite E.
    destruct (deck_cards d) as [| | | |l|] eqn:Ec; try discriminate.
    simpl in Hd. destruct (filter_entries_total cardId l Hd) as [l' [El Hin]].
    unfold f at 1. rewrite Ec. simpl. rewrite El.
    eexists. split; [reflexivity|]. constructor; [|exact F].
    simpl. repeat split; auto. exists l, l'. auto. }
  destruct Hd as [ds [E F]]. rewrite E. eexists. split; [reflexivity|].
  simpl. split; [|exact F].
  intros c. rewrite filter_In. unfold has_id.
  destruct (strict_eq (get k_id c) cardId); simpl; intuition congruence.
Qed.

Lemma removeFromCollection_cascade_witness :
  exists st',
    removeFromCollection (str "a1")
      (mkApp [card_atraxa; card_bolt] [deck_sample Commander (str "a1")] idle [])
    = Some st'
    /\ (forall c, In c (collection st')
                  <-> In c [card_atraxa; card_bolt]
                      /\ has_id (str "a1") c = false)
    /\ Forall2
         (fun d d' =>
            deck_id d' = deck_id d /\ deck_name d' = deck_name d
            /\ deck_format d' = deck_format d
            /\ deck_commander d' = deck_commander d
            /\ exists l l',
                deck_cards d = JArr l /\ deck_cards d' = JArr l'
                /\ forall e, In e l' <-> In e l /\ references (str "a1") e = false)
         [deck_sample Commander (str "a1")] (decks st').
Proof.
  apply (removeFromCollection_cascade (str "a1")
           (mkApp [card_atraxa; card_bolt] [deck_sample Commander (str "a1")]
                  idle [])).
  repeat constructor.
Defined.

(** ** 7.6 [loadFromSheets] *)

(** C9: when a read fails, [load] leaves the collection and the decks as
    they were and sets the status to [error] with the message of the
    failure; the state is replaced, by what the rows decode to, only when
    both reads succeed. *)
Theorem loadFromSheets_failure_keeps_state
        (collRes deckRes : fetched) (decks_first : bool) (st : AppState) :
  ((exists m, collRes = Failed m) \/ (exists m, deckRes = Failed m) ->
   collection (loadFromSheets collRes deckRes decks_first st) = collection st
   /\ decks (loadFromSheets collRes deckRes decks_first st) = decks st
   /\ syncStatus (loadFromSheets collRes deckRes decks_first st) = error
   /\ exists m, (collRes = Failed m \/ deckRes = Failed m)
               /\ syncMsg (loadFromSheets collRes deckRes decks_first st)
                  = js "Load failed: " ++ m)
  /\ (forall collRows deckRows,
         collRes = Rows collRows -> deckRes = Rows deckRows ->
         collection (loadFromSheets collRes deckRes decks_first st)
         = map_filter rowToCard collRows
         /\ decks (loadFromSheets collRes deckRes decks_first st)
            = map_filter (fun r => rowToDeck r (map_filter rowToCard collRows))
                         deckRows
         /\ syncStatus (loadFromSheets collRes deckRes decks_first st) = idle)
  /\ (collection (loadFromSheets collRes deckRes decks_first st) <> collection st
      \/ decks (loadFromSheets collRes deckRes decks_first st) <> decks st ->
      exists collRows deckRows, collRes = Rows collRows /\ deckRes = Rows deckRows).
Proof.
  unfold loadFromSheets.
  destruct collRes as [a|m1], deckRes as [b|m2]; simpl.
  - split; [|split].
    + intros [[m E]|[m E]]; discriminate E.
    + intros ? ? E1 E2. injection E1 as <-. injection E2 as <-. auto.
    + intros _. now exists a, b.
  - split; [|split].
    + intros _. repeat split. exists m2. auto.
    + discriminate.
    + intros [H|H]; congruence.
  - split; [|split].
    + intros _. repeat split. exists m1. auto.
    + discriminate.
    + intros [H|H]; congruence.
  - split; [|split].
    + intros _. repeat split. destruct decks_first; [exists m2|exists m1]; auto.
    + discriminate.
    + intros [H|H]; congruence.
Qed.

Lemma loadFromSheets_failure_keeps_state_witness :
  let st := mkApp [card_atraxa] [deck_sample Standard (str "")] idle [] in
  let st' := loadFromSheets (Rows []) (Failed (js "Sheets read failed: 403")) false st in
  collection st' = collection st /\ decks st' = decks st
  /\ syncStatus st' = error
  /\ exists m, (Rows [] = Failed m \/ Failed (js "Sheets read failed: 403") = Failed m)
              /\ syncMsg st' = js "Load failed: " ++ m.
Proof.
  intros st st'.
  apply (proj1 (loadFromSheets_failure_keeps_state
                  (Rows []) (Failed (js "Sheets read failed: 403")) false st)).
  right. now exists (js "Sheets read failed: 403").
Defined.

(** ** 7.7 Decoding rows *)

Lemma js_or_falsy (v : jsval) (d : json) : truthy_val v = false -> js_or v d = d.
Proof. destruct v as [x|]; simpl; [intros ->|]; reflexivity. Qed.

Lemma js_or_truthy (v : json) (d : json) : truthy v = true -> js_or (Some v) d = v.
Proof. simpl. now intros ->. Qed.


Lemma parse_empty_array : JSON_parse (js "[]") = Some (JArr []).
Proof. vm_compute. reflexivity. Qed.

(** the payload that [rowToCard] parses, when the cell is not empty *)
Lemma payload_cell (c : jsval) (d : json) :
  JSON_parse (to_string d) <> None ->
  JSON_parse (to_string (js_or c d)) = None ->
  exists v, c = Some v /\ truthy v = true /\ JSON_parse (to_string v) = None.
Proof.
  intros Hd H. destruct c as [v|]; simpl in H; [|congruence].
  destruct (truthy v) eqn:Hv; [|congruence]. now exists v.
Qed.



Example rowToCard_quantity_examples :
  rowToCard [str "a1"; str "Atraxa"; str ""; str ""; str ""; str "3"]
  = Some [(k_qty, JNum (Int 3))]
  /\ rowToCard [str "a1"; str "Atraxa"; str ""; str ""; str ""; str "three"]
     = Some [(k_qty, JNum (Int 1))]
  /\ rowToCard [str "a1"; str "Atraxa"; str ""; str ""; str ""; str "0"]
     = Some [(k_qty, JNum (Int 1))]
  /\ rowToCard [str "a1"]
     = Some [(k_qty, JNum (Int 1))].
Proof. repeat split; vm_compute; reflexivity. Qed.

(** C5, as stated, fails: a deck row whose fifth cell is not empty and is
    no JSON is dropped, like a collection row. *)
Lemma rowToDeck_malformed_cards_dropped :
  JSON_parse (js "[{oops") = None
  /\ rowToDeck [str "d1"; str "Deck"; str "Standard"; str ""; str "[{oops"] []
     = None
  /\ ~ (exists d,
          rowToDeck [str "d1"; str "Deck"; str "Standard"; str ""; str "[{oops"] []
          = Some d /\ deck_cards d = JArr []).
Proof.
  split; [vm_compute; reflexivity|].
  assert (E : rowToDeck [str "d1"; str "Deck"; str "Standard"; str ""; str "[{oops"] []
              = None) by (vm_compute; reflexivity).
  split; [exact E|]. intros [d [H _]]. congruence.
Qed.

(** C5 (amended): a deck row whose fifth cell is absent or empty decodes
    to a deck with an empty card list; a fifth cell that is not empty and
    whose text is no JSON makes [rowToDeck] answer [null], so that the
    row is dropped; [rowToDeck] answers [null] in that case only. *)
Theorem rowToDeck_cards_field (r : row) (coll : list Card) :
  (cell r 4 = None \/ cell r 4 = Some (JStr []) ->
   exists d, rowToDeck r coll = Some d /\ deck_cards d = JArr [])
  /\ (forall v, cell r 4 = Some v -> truthy v = true ->
                JSON_parse (to_string v) = None -> rowToDeck r coll = None)
  /\ (rowToDeck r coll = None ->
      exists v, cell r 4 = Some v /\ truthy v = true
                /\ JSON_parse (to_string v) = None).
Proof.
  split; [|split].
  - intros H. unfold rowToDeck.
    rewrite (js_or_falsy (cell r 4)) by (destruct H as [-> | ->]; reflexivity).
    change (to_string (JStr (js "[]"))) with (js "[]").
    rewrite parse_empty_array. eexists. split; reflexivity.
  - intros v Hc Hv Hp. unfold rowToDeck. rewrite Hc, js_or_truthy, Hp by exact Hv.
    reflexivity.
  - unfold rowToDeck. intros H. apply payload_cell with (d := JStr (js "[]")).
    + change (to_string (JStr (js "[]"))) with (js "[]").
      now rewrite parse_empty_array.
    + destruct (JSON_parse _); [discriminate|reflexivity].
Qed.

Lemma rowToDeck_cards_field_witness :
  (exists d,
      rowToDeck [str "d1"; str "Deck"; str "Commander"; str "Atraxa"] [card_atraxa]
      = Some d /\ deck_cards d = JArr [])
  /\ rowToDeck [str "d1"; str "Deck"; str "Standard"; str ""; str "[{oops"] [] = None.
Proof.
  split.
  - apply (proj1 (rowToDeck_cards_field
                    [str "d1"; str "Deck"; str "Commander"; str "Atraxa"]
                    [card_atraxa])).
    left. reflexivity.
  - apply (proj1 (proj2 (rowToDeck_cards_field
                    [str "d1"; str "Deck"; str "Standard"; str ""; str "[{oops"] []))
             (JStr (js "[{oops"))); vm_compute; reflexivity.
Defined.

(** ** 7.8 Deck colour identity *)

Lemma set_add_in (s : list json) (v x : json) :
  In x (set_add s v) <-> In x s \/ x = v.
Proof.
  unfold set_add.
  destruct (existsb (fun y => strict_eq (Some y) (Some v)) s) eqn:E.
  - split; [auto|]. intros [H| ->]; [exact H|].
    apply existsb_exists in E as [y [Hy Heq]].
    apply strict_eq_true in Heq. now injection Heq as <-.
  - rewrite in_app_iff. simpl. intuition.
Qed.

Lemma fold_set_add_in (l s : list json) (x : json) :
  In x (fold_left set_add l s) <-> In x s \/ In x l.
Proof.
  revert s. induction l as [|v l IH]; intros s; simpl; [tauto|].
  rewrite IH, set_add_in. intuition.
Qed.







(** C7, as stated, fails for a commander that the collection no longer has.
    A Commander deck has the commander [a1], black and green, and reports
    black and green.  [removeFromCollection] of [a1] takes the card and the
    entry of the deck away and keeps the commander reference: the deck is
    still a Commander deck with its commander set, and it reports red, the
    colour identity of its member. *)
Lemma deckColorIdentity_dangling_commander :
  let deck := deck_sample Commander (str "a1") in
  let st := mkApp [card_atraxa; card_bolt] [deck] idle [] in
  deckColorIdentity deck (collection st) = Some [JStr (js "B"); JStr (js "G")]
  /\ exists st' deck',
      removeFromCollection (str "a1") st = Some st'
      /\ decks st' = [deck']
      /\ collection st' = [card_bolt]
      /\ deck_format deck' = Commander
      /\ deck_commander deck' = str "a1"
      /\ deck_cards deck' = JArr [entry "b1" 2]
      /\ deckColorIdentity deck' (collection st') = Some [JStr (js "R")].
Proof.
  split; [vm_compute; reflexivity|].
  eexists. eexists. split; [vm_compute; reflexivity|].
  repeat split; vm_compute; reflexivity.
Qed.


(** ** 7.9 The debounced save *)

(** two [triggerSave] at one instant, as [removeFromCollection] queues
    them, are one *)
Lemma triggerSave_twice (isConfigured : bool) (w : World) :
  triggerSave isConfigured (triggerSave isConfigured w)
  = triggerSave isConfigured w.
Proof. unfold triggerSave. now destruct isConfigured. Qed.

(** a mutation before the pending timer is due replaces the timer and
    saves nothing *)
Lemma mutate_reschedules (t : Z) (f : AppState -> AppState) (w : World) :
  (clock w <= t)%Z ->
  (forall due, saveTimeout w = Some due -> (t < due)%Z) ->
  mutate true t f w
  = {| clock := t; current := f (current w); saveTimeout := Some (t + 1500)%Z;
       saved := saved w |}.
Proof.
  intros Hc Hdue. unfold mutate, advance, triggerSave. simpl.
  destruct (saveTimeout w) as [due|] eqn:E.
  - specialize (Hdue due eq_refl).
    destruct (Z.leb_spec due t); [lia|]. simpl. now rewrite Z.max_l.
  - simpl. now rewrite Z.max_l.
Qed.

Lemma last_time_cons (t0 t : Z) (f : AppState -> AppState)
      (events : list (Z * (AppState -> AppState))) :
  last_time t0 ((t, f) :: events) = last_time t events.
Proof. reflexivity. Qed.

Lemma apply_all_cons (t : Z) (f : AppState -> AppState)
      (events : list (Z * (AppState -> AppState))) (st : AppState) :
  apply_all ((t, f) :: events) st = apply_all events (f st).
Proof. reflexivity. Qed.

(** after a sequence of mutations, each within the quiet interval of the
    one before, nothing was saved and one timer is pending, set by the
    last of them *)
Lemma run_quiet (events : list (Z * (AppState -> AppState))) :
  forall w : World,
    events <> [] ->
    within_quiet_interval (clock w) events ->
    (forall due t f rest,
        saveTimeout w = Some due -> events = (t, f) :: rest -> (t < due)%Z) ->
    run true events w
    = {| clock := last_time (clock w) events;
         current := apply_all events (current w);
         saveTimeout := Some (last_time (clock w) events + 1500)%Z;
         saved := saved w |}.
Proof.
  induction events as [|[t f] rest IH]; intros w Hne Hq Hdue; [congruence|].
  simpl in Hq. destruct Hq as [Ht [Hnext Hrest]].
  cbn [run]. rewrite mutate_reschedules; [|exact Ht|eauto].
  rewrite last_time_cons, apply_all_cons.
  destruct rest as [|[t' f'] rest']; [reflexivity|].
  rewrite IH; [reflexivity|discriminate|exact Hrest|].
  simpl. intros due t1 f1 rest1 E1 E2. injection E1 as <-.
  injection E2 as <- _ _. exact Hnext.
Qed.

(** when the sheet is not configured a mutation sets no timer and nothing
    is saved, whenever the mutations come *)
Lemma run_unconfigured (events : list (Z * (AppState -> AppState))) :
  forall w : World,
    saveTimeout w = None ->
    saveTimeout (run false events w) = None
    /\ saved (run false events w) = saved w.
Proof.
  induction events as [|[t f] rest IH]; intros w Hnone; [now split|].
  cbn [run].
  assert (H : saveTimeout (mutate false t f w) = None
              /\ saved (mutate false t f w) = saved w)
    by (unfold mutate, advance, triggerSave; rewrite Hnone; now split).
  destruct H as [H1 H2]. destruct (IH _ H1) as [H3 H4].
  split; [exact H3|congruence].
Qed.

(** C6, as stated, fails when the sheet is not configured: [triggerSave]
    returns at once and no save is ever issued. *)
Lemma debounce_unconfigured_never_saves :
  let w0 := {| clock := 0; current := mkApp [] [] unconfigured [];
               saveTimeout := None; saved := [] |} in
  saved (advance false 10000
           (run false [(0%Z, fun st : AppState =>
                               mkApp (addToCollection 0 card_atraxa (collection st))
                                     (decks st) (syncStatus st) (syncMsg st))] w0))
  = [].
Proof. reflexivity. Qed.

(** C6 (amended): when the sheet is configured, [N >= 1] mutations, each
    less than 1500 ms after the one before, issue no save before the
    interval has elapsed after the last of them, and one save once it has:
    it is called with the collection and the decks as of the last
    mutation.  Each mutation replaces the pending timer: after the
    sequence the one timer pending is due 1500 ms after the last
    mutation.  When the sheet is not configured, no sequence of mutations,
    whenever they come, sets a timer, and no save is issued, however long
    one waits. *)
Theorem debounce_single_save
        (events : list (Z * (AppState -> AppState))) (w : World) (T : Z) :
  saveTimeout w = None ->
  (events <> [] ->
   within_quiet_interval (clock w) events ->
   let t_last := last_time (clock w) events in
   let final := apply_all events (current w) in
   saveTimeout (run true events w) = Some (t_last + 1500)%Z
   /\ saved (run true events w) = saved w
   /\ ((T < t_last + 1500)%Z ->
       saved (advance true T (run true events w)) = saved w)
   /\ ((t_last + 1500 <= T)%Z ->
       saved (advance true T (run true events w))
       = (t_last + 1500, (collection final, decks final))%Z :: saved w
       /\ saveTimeout (advance true T (run true events w)) = None))
  /\ (saveTimeout (run false events w) = None
      /\ saved (run false events w) = saved w
      /\ saveTimeout (advance false T (run false events w)) = None
      /\ saved (advance false T (run false events w)) = saved w).
Proof.
  intros Hnone. split.
  - intros Hne Hq t_last final.
    rewrite run_quiet; [|exact Hne|exact Hq|intros; congruence].
    fold t_last. fold final. simpl. repeat split.
    + intros HT. unfold advance. simpl.
      destruct (Z.leb_spec (t_last + 1500) T); [lia|]. reflexivity.
    + unfold advance. simpl. destruct (Z.leb_spec (t_last + 1500) T); [|lia].
      reflexivity.
    + unfold advance. simpl. destruct (Z.leb_spec (t_last + 1500) T); [|lia].
      reflexivity.
  - destruct (run_unconfigured events w Hnone) as [H1 H2].
    split; [exact H1|]. split; [exact H2|].
    unfold advance. rewrite H1. simpl. split; [reflexivity|exact H2].
Qed.

(** three additions, 400 ms apart.  Configured: one save, 1500 ms after the
    third, with the three cards counted.  Not configured: no timer and no
    save. *)
Lemma debounce_single_save_witness :
  let add := fun now (st : AppState) =>
               mkApp (addToCollection now card_atraxa (collection st))
                     (decks st) (syncStatus st) (syncMsg st) in
  let events := [(100%Z, add 100%Z); (500%Z, add 500%Z); (900%Z, add 900%Z)] in
  let w0 := {| clock := 0; current := mkApp [] [] idle [];
               saveTimeout := None; saved := [] |} in
  (saved (advance true 2400 (run true events w0))
   = [(2400%Z, (collection (apply_all events (current w0)),
                decks (apply_all events (current w0))))]
   /\ saveTimeout (advance true 2400 (run true events w0)) = None)
  /\ (saveTimeout (run false events w0) = None
      /\ saved (run false events w0) = []
      /\ saveTimeout (advance false 2400 (run false events w0)) = None
      /\ saved (advance false 2400 (run false events w0)) = []).
Proof.
  intros add events w0. split.
  - apply (proj2 (proj2 (proj2
             (proj1 (@debounce_single_save events w0 2400 eq_refl)
                    ltac:(discriminate)
                    ltac:(simpl; repeat split; lia))))).
    simpl. lia.
  - exact (proj2 (@debounce_single_save events w0 2400 eq_refl)).
Defined.

(** ** 7.10 Combo scoring *)

Section Sorting.

Variables (A : Type) (cmp : A -> A -> jsnum).
Variables (P : A -> Prop) (R : A -> A -> Prop).

Hypothesis R_trans :
  forall x y z, P x -> P y -> P z -> R x y -> R y z -> R x z.
Hypothesis cmp_sound :
  forall x y, P x -> P y -> if num_positive (cmp x y) then R y x else R x y.

Lemma sort_insert_perm (x : A) (l : list A) :
  Permutation (x :: l) (sort_insert cmp x l).
Proof.
  induction l as [|y r IH]; simpl; [reflexivity|].
  destruct (num_positive (cmp x y)); [|reflexivity].
  rewrite perm_swap. now apply perm_skip.
Qed.

Lemma js_sort_perm (l : list A) : Permutation l (js_sort cmp l).
Proof.
  induction l as [|x r IH]; simpl; [reflexivity|].
  rewrite <- sort_insert_perm. now apply perm_skip.
Qed.

Lemma sort_insert_sorted (x : A) (l : list A) :
  P x -> Forall P l -> StronglySorted R l ->
  StronglySorted R (sort_insert cmp x l).
Proof.
  intros Hx Hl Hs. induction Hs as [|y r Hs IH Hy]; simpl.
  - repeat constructor.
  - inversion Hl as [|? ? Py Pr]; subst.
    pose proof (cmp_sound Hx Py) as Hc.
    destruct (num_positive (cmp x y)).
    + constructor; [now apply IH|].
      apply (Permutation_Forall (sort_insert_perm x r)). now constructor.
    + constructor; [now constructor|]. constructor; [exact Hc|].
      rewrite Forall_forall in *. intros z Hz.
      apply (R_trans (y := y)); auto.
Qed.

Lemma js_sort_sorted (l : list A) :
  Forall P l -> StronglySorted R (js_sort cmp l).
Proof.
  induction 1 as [|x r Hx Hr IH]; simpl; [constructor|].
  apply sort_insert_sorted; auto.
  apply (Permutation_Forall (js_sort_perm r)). exact Hr.
Qed.

End Sorting.

Lemma inject_Z_truthy (d : Z) :
  num_truthy (Fin (inject_Z d)) = negb (d =? 0)%Z.
Proof.
  simpl. f_equal. destruct (Z.eqb_spec d 0) as [->|Hd]; [reflexivity|].
  apply not_true_is_false. rewrite Qeq_bool_iff. unfold Qeq. simpl. lia.
Qed.

Lemma inject_Z_positive (d : Z) :
  num_positive (Fin (inject_Z d)) = (0 <? d)%Z.
Proof.
  simpl. destruct (Z.ltb_spec 0 d) as [Hd|Hd].
  - apply negb_true_iff, not_true_is_false. rewrite Qle_bool_iff.
    unfold Qle. simpl. lia.
  - apply negb_false_iff. rewrite Qle_bool_iff. unfold Qle. simpl. lia.
Qed.

Lemma fin_truthy (q : Q) : num_truthy (Fin q) = false <-> q == 0.
Proof. simpl. rewrite negb_false_iff. apply Qeq_bool_iff. Qed.

Lemma fin_positive (q : Q) : num_positive (Fin q) = true <-> 0 < q.
Proof.
  simpl. rewrite negb_true_iff. split.
  - intros H. apply Qnot_le_lt. intros Hle. apply Qle_bool_iff in Hle. congruence.
  - intros H. apply not_true_is_false. rewrite Qle_bool_iff. lra.
Qed.

Lemma ranks_before_trans (a b c : Scored) :
  ranks_before a b -> ranks_before b c -> ranks_before a c.
Proof.
  unfold ranks_before.
  intros [H1|[E1 [H1|[H1 P1]]]] [H2|[E2 [H2|[H2 P2]]]];
    try (left; lia);
    right; (split; [lia|]); try (left; lra); right; split; [lra|lia].
Qed.

(** the comparator decides the lexicographic order *)
Lemma by_score_sound (a b : Scored) :
  consistent a -> consistent b ->
  if num_positive (by_score a b) then ranks_before b a else ranks_before a b.
Proof.
  unfold consistent, by_score, ranks_before. intros Ca Cb.
  set (d := (Z.of_N (_owned b) - Z.of_N (_owned a))%Z).
  set (dp := (popularity (variant b) - popularity (variant a))%Z).
  unfold num_or at 2. rewrite inject_Z_truthy.
  destruct (Z.eqb_spec d 0) as [Hd|Hd]; simpl negb; cbv iota.
  - assert (Eo : _owned a = _owned b) by lia.
    assert (Hpop : if num_positive (Fin (inject_Z dp))
                   then (popularity (variant a) <= popularity (variant b))%Z
                   else (popularity (variant b) <= popularity (variant a))%Z).
    { rewrite inject_Z_positive. destruct (Z.ltb_spec 0 dp); lia. }
    unfold coverage.
    destruct (_total a) as [|pa] eqn:Ta, (_total b) as [|pb] eqn:Tb.
    + assert (_owned a = 0%N) by lia. assert (_owned b = 0%N) by lia.
      replace (_owned b) with 0%N. replace (_owned a) with 0%N. simpl js_sub.
      unfold num_or. simpl num_truthy. cbv iota.
      destruct (num_positive (Fin (inject_Z dp))); right;
        (split; [congruence|]); right; split; (reflexivity || lia).
    + assert (Ha0 : _owned a = 0%N) by lia.
      rewrite Ha0 in *. rewrite <- Eo. simpl js_sub.
      unfold num_or. simpl num_truthy. cbv iota.
      destruct (num_positive (Fin (inject_Z dp))); right;
        (split; [reflexivity|]); right; (split; [|lia]);
        unfold Qeq; simpl; reflexivity.
    + assert (Hb0 : _owned b = 0%N) by lia.
      rewrite Hb0 in *. rewrite Eo. simpl js_sub.
      unfold num_or. simpl num_truthy. cbv iota.
      destruct (num_positive (Fin (inject_Z dp))); right;
        (split; [reflexivity|]); right; (split; [|lia]);
        unfold Qeq; simpl; reflexivity.
    + simpl js_div. simpl js_sub.
      set (q := (Z.of_N (_owned b) # pb) - (Z.of_N (_owned a) # pa)) in *.
      unfold num_or. destruct (num_truthy (Fin q)) eqn:Tq.
      * destruct (num_positive (Fin q)) eqn:Pq.
        -- apply fin_positive in Pq. right. split; [congruence|]. left.
           unfold q in Pq. lra.
        -- right. split; [exact Eo|]. left.
           assert (~ 0 < q) by (rewrite <- fin_positive; congruence).
           assert (~ q == 0) by (rewrite <- fin_truthy; congruence).
           unfold q in *. lra.
      * apply fin_truthy in Tq. unfold q in Tq.
        destruct (num_positive (Fin (inject_Z dp))); right;
          (split; [congruence|]); right; (split; [lra|lia]).
  - unfold num_or. rewrite inject_Z_truthy.
    destruct (Z.eqb_spec d 0) as [|_]; [congruence|]. simpl negb. cbv iota.
    rewrite inject_Z_positive. destruct (Z.ltb_spec 0 d); left; lia.
Qed.

Lemma score_consistent (lower : jstr -> jstr) (names : list jsval) (v : Variant) :
  consistent (score lower names v).
Proof.
  unfold consistent, score. simpl.
  pose proof (filter_length_le (has names) (map lower (uses v))). lia.
Qed.

Lemma filter_map_length {A B} (f : A -> B) (p : B -> bool) (l : list A) :
  length (filter p (map f l)) = length (filter (fun x => p (f x)) l).
Proof.
  induction l as [|x r IH]; simpl; [reflexivity|].
  destruct (p (f x)); simpl; now rewrite IH.
Qed.

Example deckNames_example : deckNames ascii_lower deck_ab = Some names_ab.
Proof. vm_compute. reflexivity. Qed.

(** C8: every variant gets the count of its required cards whose name is
    in the deck and, with the count of its required cards, the ratio of
    the two; the list that [findCombos] stores is a permutation of the
    scored variants in descending lexicographic order of (owned count,
    coverage ratio, popularity).  In particular the variant that requires
    two cards of the deck (ratio 1) comes before the one that requires
    them and a third card (ratio 2/3), whatever the two popularities and
    the order in which the database gave them. *)
Theorem scored_combos_order
        (toLowerCase : jstr -> jstr) (names : list jsval) (all : list Variant) :
  Permutation (map (score toLowerCase names) all)
              (scored_combos toLowerCase names all)
  /\ (forall s, In s (scored_combos toLowerCase names all) ->
        In (variant s) all
        /\ _owned s
           = N.of_nat (length (filter (fun n => has names (toLowerCase n))
                                      (uses (variant s))))
        /\ _total s = N.of_nat (length (uses (variant s)))
        /\ coverage s * inject_Z (Z.of_N (_total s))
           == inject_Z (Z.of_N (_owned s)))
  /\ StronglySorted ranks_before (scored_combos toLowerCase names all)
  /\ (forall p1 p2 : Z,
        scored_combos ascii_lower names_ab [combo_abc p1; combo_ab p2]
        = [mkScored (combo_ab p2) 2 2; mkScored (combo_abc p1) 2 3]
        /\ scored_combos ascii_lower names_ab [combo_ab p2; combo_abc p1]
           = [mkScored (combo_ab p2) 2 2; mkScored (combo_abc p1) 2 3]
        /\ coverage (mkScored (combo_ab p2) 2 2) == 1
        /\ coverage (mkScored (combo_abc p1) 2 3) == 2 # 3).
Proof.
  assert (Hperm : Permutation (map (score toLowerCase names) all)
                              (scored_combos toLowerCase names all))
    by apply js_sort_perm.
  split; [exact Hperm|]. split; [|split].
  - intros s Hs. apply (Permutation_in _ (Permutation_sym Hperm)) in Hs.
    apply in_map_iff in Hs as [v [<- Hv]]. split; [exact Hv|].
    split; [|split].
    + simpl. now rewrite filter_map_length.
    + simpl. now rewrite length_map.
    + pose proof (score_consistent toLowerCase names v) as Hc.
      unfold consistent in Hc. unfold coverage.
      destruct (_total (score toLowerCase names v)) as [|p] eqn:Et.
      * assert (E0 : _owned (score toLowerCase names v) = 0%N) by lia.
        rewrite E0. reflexivity.
      * unfold Qeq, Qmult, inject_Z. simpl. lia.
  - unfold scored_combos.
    apply js_sort_sorted with (P := consistent).
    + intros x y z _ _ _. apply ranks_before_trans.
    + apply by_score_sound.
    + apply Forall_forall. intros s Hs. apply in_map_iff in Hs as [v [<- _]].
      apply score_consistent.
  - intros p1 p2. repeat split; vm_compute; reflexivity.
Qed.

(** ** 7.11 Decimal digits *)

Lemma dec_value_units (d u : Decimal.uint) :
  fold_left (fun a c => a * 10 + (c - 48))%N (uint_units d)
            (DecimalPos.Unsigned.of_lu u)
  = DecimalPos.Unsigned.of_lu (Decimal.revapp d u).
Proof.
  revert u.
  induction d as [|d IH|d IH|d IH|d IH|d IH|d IH|d IH|d IH|d IH|d IH];
    intros u; [reflexivity|..];
    cbn [uint_units fold_left Decimal.revapp]; rewrite <- IH; f_equal;
    cbn [DecimalPos.Unsigned.of_lu]; lia.
Qed.

(** reading the digits of [n] gives [n] *)
Lemma dec_value_digits (n : N) : dec_value (digits n) = n.
Proof.
  unfold dec_value, digits.
  change 0%N with (DecimalPos.Unsigned.of_lu Decimal.Nil).
  rewrite dec_value_units. fold (Decimal.rev (N.to_uint n)).
  rewrite <- DecimalPos.Unsigned.of_uint_alt.
  apply DecimalN.Unsigned.of_to.
Qed.

Lemma units_all_digits (d : Decimal.uint) : forallb is_digit (uint_units d) = true.
Proof. induction d; simpl; auto. Qed.

Lemma digits_all_digits (n : N) : forallb is_digit (digits n) = true.
Proof. apply units_all_digits. Qed.

(** no leading zero: the digits are "0" or start with another digit *)
Lemma digits_head (n : N) :
  digits n = [48%N]
  \/ exists c r, digits n = c :: r /\ c <> 48%N /\ is_digit c = true.
Proof.
  unfold digits.
  assert (E : N.to_uint n = Decimal.unorm (N.to_uint n)).
  { rewrite <- DecimalN.Unsigned.to_of. now rewrite DecimalN.Unsigned.of_to. }
  set (d := N.to_uint n) in *. unfold Decimal.unorm in E.
  destruct (Decimal.nzhead d) eqn:Hz; try (left; rewrite E; reflexivity);
    right; rewrite E; cbn [uint_units]; eexists _, _; split; try reflexivity;
    try (split; [discriminate|reflexivity]).
  exfalso. exact (DecimalFacts.nzhead_nonzero _ _ Hz).
Qed.

Lemma digits_zero (n : N) : digits n = [48%N] -> n = 0%N.
Proof.
  intros E. rewrite <- (dec_value_digits n), E. reflexivity.
Qed.

Lemma digits_nonempty (n : N) : digits n <> [].
Proof.
  destruct (digits_head n) as [E|[c [r [E _]]]]; rewrite E; discriminate.
Qed.

Lemma fold_digits_lower_bound (r : jstr) (a : N) :
  forallb is_digit r = true ->
  (a * 10 ^ N.of_nat (length r)
   <= fold_left (fun a c => a * 10 + (c - 48)) r a)%N.
Proof.
  revert a. induction r as [|c r IH]; intros a H.
  - simpl. lia.
  - simpl in H. apply andb_true_iff in H as [_ Hr].
    cbn [fold_left length]. specialize (IH (a * 10 + (c - 48))%N Hr).
    rewrite Nat2N.inj_succ, N.pow_succ_r'. nia.
Qed.

(** a number below 10^21 has at most 21 digits *)
Lemma digits_length (n : N) : (n < 10 ^ 21)%N -> (length (digits n) <= 21)%nat.
Proof.
  intros Hn. destruct (digits_head n) as [E|[c [r [E [Hc Hd]]]]].
  - rewrite E. simpl. lia.
  - destruct (Nat.le_gt_cases (length (digits n)) 21) as [H|H]; [exact H|].
    exfalso. pose proof (dec_value_digits n) as V.
    pose proof (digits_all_digits n) as A. rewrite E in *.
    simpl in A. apply andb_true_iff in A as [_ A].
    unfold dec_value in V. cbn [fold_left] in V.
    pose proof (fold_digits_lower_bound r (0 * 10 + (c - 48)) A) as L.
    rewrite V in L. simpl length in H.
    assert (Hc1 : (1 <= c - 48)%N).
    { unfold is_digit in Hd. apply andb_true_iff in Hd as [H1 H2].
      apply N.leb_le in H1. lia. }
    assert (P : (10 ^ 21 <= 10 ^ N.of_nat (length r))%N)
      by (apply N.pow_le_mono_r; lia).
    nia.
Qed.

(** ** 7.12 Numbers through [JSON.stringify] and [JSON.parse] *)

Lemma strip_zeros_rev_split (r : jstr) :
  r = repeat 48%N (length r - length (strip_zeros_rev r)) ++ strip_zeros_rev r
  /\ (length (strip_zeros_rev r) <= length r)%nat.
Proof.
  induction r as [|c r [IH1 IH2]]; [split; reflexivity|].
  cbn [strip_zeros_rev]. destruct (N.eqb_spec c 48) as [->|Hc].
  - split; [|cbn [length]; lia].
    replace (length (48%N :: r) - length (strip_zeros_rev r))%nat
      with (S (length r - length (strip_zeros_rev r))) by (cbn [length]; lia).
    cbn [repeat]. rewrite <- app_comm_cons. f_equal. exact IH1.
  - split; [|lia]. now rewrite Nat.sub_diag.
Qed.

Lemma rev_repeat_same {A} (x : A) (n : nat) : rev (repeat x n) = repeat x n.
Proof.
  induction n as [|n IH]; [reflexivity|].
  simpl. rewrite IH. clear IH. induction n as [|n IH]; [reflexivity|].
  simpl. now rewrite IH.
Qed.

Lemma significant_restore (ds : jstr) :
  significant ds ++ repeat 48%N (length ds - length (significant ds)) = ds
  /\ (length (significant ds) <= length ds)%nat.
Proof.
  unfold significant. destruct (strip_zeros_rev_split (rev ds)) as [E L].
  rewrite length_rev in *. split; [|exact L].
  apply (f_equal (@rev N)) in E.
  rewrite rev_involutive, rev_app_distr, rev_repeat_same in E.
  symmetry. exact E.
Qed.

(** a plain integer prints as its sign and its digits *)
Lemma number_to_string_plain (z : Z) :
  (Z.abs z < 10 ^ 21)%Z ->
  number_to_string (Int z)
  = (if (z <? 0)%Z then [45%N] else []) ++ digits (Z.to_N (Z.abs z)).
Proof.
  intros Hz. unfold number_to_string.
  destruct (Z.eqb_spec z 0) as [->|H0]; [reflexivity|]. f_equal.
  set (ds := digits (Z.to_N (Z.abs z))).
  assert (L : (length ds <= 21)%nat).
  { apply digits_length. change (10 ^ 21)%N with (Z.to_N (10 ^ 21)).
    apply Z2N.inj_lt; [lia|now compute|exact Hz]. }
  destruct (significant_restore ds) as [E K].
  unfold positive_to_string.
  replace ((Z.of_nat (length (significant ds)) <=? Z.of_nat (length ds))
           && (Z.of_nat (length ds) <=? 21))%Z with true
    by (symmetry; apply andb_true_iff; split; apply Z.leb_le; lia).
  transitivity (significant ds
                  ++ repeat 48%N (length ds - length (significant ds)));
    [|exact E].
  do 2 f_equal. lia.
Qed.

Lemma take_digits_app (ds rest : jstr) :
  forallb is_digit ds = true ->
  match rest with [] => true | c :: _ => negb (is_digit c) end = true ->
  take_digits (ds ++ rest) = (ds, rest).
Proof.
  intros Hds Hrest. induction ds as [|c r IH]; simpl.
  - destruct rest as [|c r]; [reflexivity|]. simpl.
    apply negb_true_iff in Hrest. now rewrite Hrest.
  - simpl in Hds. apply andb_true_iff in Hds as [Hc Hr].
    now rewrite Hc, (IH Hr).
Qed.

Lemma delimited_no_digit (rest : jstr) :
  delimited rest = true ->
  match rest with [] => true | c :: _ => negb (is_digit c) end = true.
Proof.
  destruct rest as [|c r]; [reflexivity|]. simpl.
  rewrite negb_true_iff, !orb_false_iff. intros [[[H _] _] _]. now rewrite H.
Qed.

Lemma delimited_no_fraction (rest : jstr) :
  delimited rest = true -> parse_fraction rest = Some ([], rest).
Proof.
  destruct rest as [|c r]; [reflexivity|]. simpl.
  rewrite negb_true_iff, !orb_false_iff. intros [[[_ H] _] _]. now rewrite H.
Qed.

Lemma delimited_no_exponent (rest : jstr) :
  delimited rest = true -> parse_exponent rest = Some (0%Z, rest).
Proof.
  destruct rest as [|c r]; [reflexivity|]. simpl.
  rewrite negb_true_iff, !orb_false_iff. intros [[[_ _] H1] H2].
  now rewrite H1, H2.
Qed.

(** the digits of [n], read after the sign of a number literal *)
Lemma parse_unsigned_digits (neg : bool) (n : N) (rest : jstr) :
  delimited rest = true ->
  parse_unsigned neg (digits n ++ rest)
  = Some (Int (if neg then - Z.of_N n else Z.of_N n), rest).
Proof.
  intros Hd. unfold parse_unsigned.
  rewrite take_digits_app;
    [|apply digits_all_digits|now apply delimited_no_digit].
  assert (Hlead : match digits n with
                  | [] => False
                  | d :: more =>
                    ((d =? 48)%N && match more with [] => false | _ => true end)
                    = false
                  end).
  { destruct (digits_head n) as [E|[c [r [E [Hc _]]]]]; rewrite E.
    - reflexivity.
    - apply N.eqb_neq in Hc. now rewrite Hc. }
  pose proof (dec_value_digits n) as V.
  destruct (digits n) as [|d more]; [contradiction|]. rewrite Hlead.
  rewrite (delimited_no_fraction _ Hd), (delimited_no_exponent _ Hd).
  change (d :: more ++ []) with ((d :: more) ++ []).
  rewrite app_nil_r, V. unfold decimal. simpl. now rewrite Z.mul_1_r.
Qed.

Lemma digit_not_minus (c : N) : is_digit c = true -> (c =? 45)%N = false.
Proof.
  unfold is_digit. intros H. apply andb_true_iff in H as [H1 _].
  apply N.leb_le in H1. apply N.eqb_neq. lia.
Qed.

(** *** every number in its one representation *)

Lemma dec_value_app (a b : jstr) :
  dec_value (a ++ b)
  = fold_left (fun a c => a * 10 + (c - 48))%N b (dec_value a).
Proof. unfold dec_value. apply fold_left_app. Qed.

Lemma fold_zeros (j : nat) (a : N) :
  fold_left (fun a c => a * 10 + (c - 48))%N (repeat 48%N j) a
  = (a * 10 ^ N.of_nat j)%N.
Proof.
  revert a. induction j as [|j IH]; intros a.
  - simpl. lia.
  - cbn [repeat fold_left]. rewrite IH, Nat2N.inj_succ, N.pow_succ_r'. lia.
Qed.

Lemma dec_value_leading_zeros (j : nat) (ds : jstr) :
  dec_value (repeat 48%N j ++ ds) = dec_value ds.
Proof.
  rewrite dec_value_app.
  replace (dec_value (repeat 48%N j)) with 0%N; [reflexivity|].
  unfold dec_value. rewrite fold_zeros. lia.
Qed.

Lemma dec_value_trailing_zeros (j : nat) (ds : jstr) :
  dec_value (ds ++ repeat 48%N j) = (dec_value ds * 10 ^ N.of_nat j)%N.
Proof. rewrite dec_value_app. apply fold_zeros. Qed.

Lemma repeat_zero_digits (j : nat) : forallb is_digit (repeat 48%N j) = true.
Proof. induction j as [|j IH]; [reflexivity|exact IH]. Qed.

Lemma leading_digits (n : N) : n <> 0%N -> leading (digits n).
Proof.
  intros Hn. split; [apply digits_all_digits|].
  destruct (digits_head n) as [E|[c [r [E [Hc _]]]]];
    [now apply digits_zero in E|eauto].
Qed.

Lemma leading_significant (ds : jstr) : leading ds -> leading (significant ds).
Proof.
  intros [A [c [r [E Hc]]]]. destruct (significant_restore ds) as [R _].
  split.
  - rewrite <- R, forallb_app in A. now apply andb_true_iff in A.
  - destruct (significant ds) as [|c' r'] eqn:Es.
    + simpl in R. rewrite E in R. destruct (length (c :: r) - 0)%nat; [discriminate|].
      simpl in R. injection R as R _. congruence.
    + exists c', r'. split; [reflexivity|]. rewrite E in R. simpl in R.
      injection R as R _. congruence.
Qed.

Lemma fraction_digits (fs rest : jstr) :
  forallb is_digit fs = true -> fs <> [] ->
  match rest with [] => true | c :: _ => negb (is_digit c) end = true ->
  parse_fraction (46%N :: fs ++ rest) = Some (fs, rest).
Proof.
  intros A Hne Hr. unfold parse_fraction. change (46 =? 46)%N with true. cbv iota.
  rewrite take_digits_app by assumption. destruct fs; [congruence|reflexivity].
Qed.

Lemma no_fraction (c : N) (tl : jstr) :
  c <> 46%N -> parse_fraction (c :: tl) = Some ([], c :: tl).
Proof. intros H. unfold parse_fraction. apply N.eqb_neq in H. now rewrite H. Qed.

(** the exponent that [exponent_form] prints, read back *)
Lemma exponent_digits (e : Z) (rest : jstr) :
  e <> 0%Z -> delimited rest = true ->
  parse_exponent
    ([101%N] ++ (if (0 <? e)%Z then [43%N] else [45%N])
       ++ digits (Z.to_N (Z.abs e)) ++ rest)
  = Some (e, rest).
Proof.
  intros He Hd. unfold parse_exponent.
  change ([101%N] ++ ?x) with (101%N :: x).
  change ((101 =? 101) || (101 =? 69))%N with true. cbv iota.
  assert (T : take_digits (digits (Z.to_N (Z.abs e)) ++ rest)
              = (digits (Z.to_N (Z.abs e)), rest))
    by (apply take_digits_app;
        [apply digits_all_digits|now apply delimited_no_digit]).
  pose proof (dec_value_digits (Z.to_N (Z.abs e))) as V.
  pose proof (@digits_nonempty (Z.to_N (Z.abs e))) as Hne.
  destruct (Z.ltb_spec 0 e).
  - change ([43%N] ++ ?x) with (43%N :: x). cbv beta iota.
    change (43 =? 45)%N with false. change (43 =? 43)%N with true. cbv beta iota.
    change ((101 =? 101) || (101 =? 69))%N with true. cbv beta iota.
    rewrite T. destruct (digits (Z.to_N (Z.abs e))); [congruence|].
    rewrite V. do 2 f_equal. lia.
  - change ([45%N] ++ ?x) with (45%N :: x). cbv beta iota.
    change (45 =? 45)%N with true. cbv beta iota.
    change ((101 =? 101) || (101 =? 69))%N with true. cbv beta iota.
    rewrite T. destruct (digits (Z.to_N (Z.abs e))); [congruence|].
    rewrite V. do 2 f_equal. lia.
Qed.

(** a number literal read part by part *)
Lemma parse_unsigned_parts (neg : bool) (s ip s2 fs s3 : jstr) (e : Z)
      (rest : jstr) :
  match ip with
  | [] => False
  | d :: more =>
    ((d =? 48)%N && match more with [] => false | _ => true end) = false
  end ->
  take_digits s = (ip, s2) ->
  parse_fraction s2 = Some (fs, s3) ->
  parse_exponent s3 = Some (e, rest) ->
  parse_unsigned neg s
  = Some (decimal neg (dec_value (ip ++ fs)) (e - Z.of_nat (length fs)), rest).
Proof.
  intros Hip T F X. unfold parse_unsigned. rewrite T.
  destruct ip as [|d more]; [contradiction|]. now rewrite Hip, F, X.
Qed.

Lemma decimal_shift (neg : bool) (m : N) (j : nat) :
  decimal neg (m * 10 ^ N.of_nat j) 0 = decimal neg m (Z.of_nat j).
Proof.
  unfold decimal. destruct (Z.leb_spec 0 (Z.of_nat j)); [|lia].
  change (0 <=? 0)%Z with true. cbv iota. f_equal.
  rewrite N2Z.inj_mul, N2Z.inj_pow, nat_N_Z. change (10 ^ 0)%Z with 1%Z.
  change (Z.of_N 10) with 10%Z. destruct neg; lia.
Qed.

(** what Number::toString prints for the digits [ds] and the position [n]
    of the point is read back as [ds * 10^(n - length ds)] *)
Lemma parse_positive (neg : bool) (ds : jstr) (n : Z) (rest : jstr) :
  leading ds -> delimited rest = true ->
  parse_unsigned neg (positive_to_string ds n ++ rest)
  = Some (decimal neg (dec_value ds) (n - Z.of_nat (length ds)), rest).
Proof.
  intros [A [c [r [E Hc]]]] Hd. unfold positive_to_string.
  assert (Hc48 : (c =? 48)%N = false) by now apply N.eqb_neq.
  assert (Dc : is_digit c = true /\ forallb is_digit r = true)
    by (rewrite E in A; simpl in A; now apply andb_true_iff in A).
  destruct Dc as [Dc Ar].
  pose proof (delimited_no_digit _ Hd) as Hnd.
  destruct ((Z.of_nat (length ds) <=? n) && (n <=? 21))%Z eqn:C1.
  { (* digits and zeros *)
    apply andb_true_iff in C1 as [C1 _]. apply Z.leb_le in C1.
    set (j := Z.to_nat (n - Z.of_nat (length ds))).
    rewrite (@parse_unsigned_parts neg _ (ds ++ repeat 48%N j) rest [] rest 0 rest).
    - rewrite app_nil_r, dec_value_trailing_zeros, decimal_shift.
      do 3 f_equal. unfold j. simpl length. lia.
    - rewrite E, <- app_comm_cons. now rewrite Hc48.
    - apply take_digits_app; [|exact Hnd].
      rewrite forallb_app, A. apply repeat_zero_digits.
    - now apply delimited_no_fraction.
    - now apply delimited_no_exponent. }
  apply andb_false_iff in C1.
  destruct ((0 <? n) && (n <=? 21))%Z eqn:C2.
  { (* digits, point, digits *)
    apply andb_true_iff in C2 as [C2 C2']. apply Z.ltb_lt in C2.
    apply Z.leb_le in C2'.
    assert (Hn : (n < Z.of_nat (length ds))%Z)
      by (destruct C1 as [C1|C1]; apply Z.leb_gt in C1; lia).
    set (i := Z.to_nat n).
    assert (Hi : (0 < i < length ds)%nat) by (unfold i; lia).
    rewrite <- !app_assoc.
    rewrite (@parse_unsigned_parts neg _ (firstn i ds)
               ([46%N] ++ skipn i ds ++ rest) (skipn i ds) rest 0 rest).
    - rewrite firstn_skipn. do 3 f_equal. rewrite length_skipn. lia.
    - rewrite E. destruct i as [|i']; [lia|]. cbn [firstn]. now rewrite Hc48.
    - apply take_digits_app; [|reflexivity].
      rewrite <- (firstn_skipn i ds), forallb_app in A.
      now apply andb_true_iff in A.
    - apply (@fraction_digits (skipn i ds) rest); [| |exact Hnd].
      + rewrite <- (firstn_skipn i ds), forallb_app in A.
        now apply andb_true_iff in A.
      + intros Es. apply (f_equal (@length N)) in Es.
        rewrite length_skipn in Es. simpl in Es. lia.
    - now apply delimited_no_exponent. }
  apply andb_false_iff in C2.
  destruct ((-6 <? n) && (n <=? 0))%Z eqn:C3.
  { (* zero, point, zeros, digits *)
    apply andb_true_iff in C3 as [C3 C3']. apply Z.ltb_lt in C3.
    apply Z.leb_le in C3'.
    set (j := Z.to_nat (- n)).
    change ([48%N; 46%N] ++ repeat 48%N j ++ ds)
      with ([48%N] ++ [46%N] ++ repeat 48%N j ++ ds).
    rewrite <- !app_assoc.
    rewrite (@parse_unsigned_parts neg _ [48%N]
               ([46%N] ++ repeat 48%N j ++ ds ++ rest)
               (repeat 48%N j ++ ds) rest 0 rest).
    - change ([48%N] ++ repeat 48%N j ++ ds) with (repeat 48%N (S j) ++ ds).
      rewrite dec_value_leading_zeros. do 3 f_equal.
      rewrite length_app, repeat_length. unfold j. lia.
    - reflexivity.
    - apply take_digits_app; reflexivity.
    - rewrite (app_assoc (repeat 48%N j)).
      apply (@fraction_digits (repeat 48%N j ++ ds) rest); [| |exact Hnd].
      + rewrite forallb_app, A, repeat_zero_digits. reflexivity.
      + rewrite E. intros Es. apply app_eq_nil in Es as [_ Es]. discriminate.
    - now apply delimited_no_exponent. }
  apply andb_false_iff in C3.
  (* the exponent form *)
  assert (Hn1 : (n - 1 <> 0)%Z).
  { intros Hn. assert (n = 1%Z) by lia. subst n.
    destruct C2 as [C2|C2]; [apply Z.ltb_ge in C2|apply Z.leb_gt in C2]; lia. }
  unfold exponent_form. rewrite E.
  destruct r as [|c2 r2].
  - rewrite <- !app_assoc.
    set (tail := [101%N] ++ (if (0 <? n - 1)%Z then [43%N] else [45%N])
                   ++ digits (Z.to_N (Z.abs (n - 1))) ++ rest).
    rewrite (@parse_unsigned_parts neg _ [c] tail [] tail (n - 1) rest).
    + do 3 f_equal. simpl length. lia.
    + now rewrite Hc48.
    + apply take_digits_app; [simpl; now rewrite Dc|reflexivity].
    + apply (@no_fraction 101%N). discriminate.
    + now apply exponent_digits.
  - rewrite <- !app_assoc.
    set (tail := [101%N] ++ (if (0 <? n - 1)%Z then [43%N] else [45%N])
                   ++ digits (Z.to_N (Z.abs (n - 1))) ++ rest).
    change (parse_unsigned neg ([c] ++ 46%N :: (c2 :: r2) ++ tail)
            = Some (decimal neg (dec_value ([c] ++ c2 :: r2))
                            (n - Z.of_nat (length (c :: c2 :: r2))), rest)).
    rewrite (@parse_unsigned_parts neg _ [c] (46%N :: (c2 :: r2) ++ tail)
               (c2 :: r2) tail (n - 1) rest).
    + do 3 f_equal. simpl length. lia.
    + now rewrite Hc48.
    + apply take_digits_app; [simpl; now rewrite Dc|reflexivity].
    + apply (@fraction_digits (c2 :: r2)); [exact Ar|discriminate|reflexivity].
    + now apply exponent_digits.
Qed.

Lemma positive_to_string_start (ds : jstr) (n : Z) :
  leading ds ->
  exists c tl, positive_to_string ds n = c :: tl /\ is_digit c = true.
Proof.
  intros [A [c [r [E Hc]]]]. unfold positive_to_string.
  assert (Dc : is_digit c = true)
    by (rewrite E in A; simpl in A; now apply andb_true_iff in A).
  destruct ((Z.of_nat (length ds) <=? n) && (n <=? 21))%Z.
  { rewrite E. eexists _, _. split; [reflexivity|exact Dc]. }
  destruct ((0 <? n) && (n <=? 21))%Z eqn:C2.
  { apply andb_true_iff in C2 as [C2 _]. apply Z.ltb_lt in C2.
    rewrite E. destruct (Z.to_nat n) as [|i] eqn:Ei; [lia|].
    eexists _, _. split; [reflexivity|exact Dc]. }
  destruct ((-6 <? n) && (n <=? 0))%Z.
  { eexists _, _. split; reflexivity. }
  unfold exponent_form. rewrite E. eexists _, _. split; [reflexivity|exact Dc].
Qed.

Lemma normalize_canonical (m : Z) (k : positive) :
  (m mod 10 =? 0)%Z = false -> normalize m (Pos.to_nat k) = Frac m k.
Proof.
  intros H. destruct (Pos2Nat.is_succ k) as [j Ej]. rewrite Ej.
  cbn [normalize]. rewrite H. f_equal.
  apply Pos2Nat.inj. now rewrite SuccNat2Pos.id_succ.
Qed.

(** the sign and the digits that a number prints, and what they are read
    back as *)
Lemma number_to_string_parts (a : number) :
  number_canonical a = true ->
  a = Int 0
  \/ exists (neg : bool) (ds : jstr) (n : Z),
      leading ds
      /\ number_to_string a
         = (if neg then [45%N] else []) ++ positive_to_string ds n
      /\ decimal neg (dec_value ds) (n - Z.of_nat (length ds)) = a.
Proof.
  intros Hc. destruct a as [z|m k].
  - destruct (Z.eq_dec z 0) as [->|Hz]; [now left|]. right.
    set (D := digits (Z.to_N (Z.abs z))).
    assert (LD : leading D) by (apply leading_digits; lia).
    exists (z <? 0)%Z, (significant D), (Z.of_nat (length D)).
    split; [now apply leading_significant|]. split.
    + unfold number_to_string. destruct (Z.eqb_spec z 0); [lia|reflexivity].
    + destruct (significant_restore D) as [R L].
      pose proof (dec_value_digits (Z.to_N (Z.abs z))) as V. fold D in V.
      rewrite <- R, dec_value_trailing_zeros in V.
      set (j := (length D - length (significant D))%nat) in *.
      replace (Z.of_nat (length D) - Z.of_nat (length (significant D)))%Z
        with (Z.of_nat j) by (unfold j; lia).
      rewrite <- decimal_shift, V. unfold decimal.
      change (0 <=? 0)%Z with true. cbv iota. f_equal.
      destruct (Z.ltb_spec z 0); change (10 ^ 0)%Z with 1%Z; lia.
  - right. simpl in Hc. apply negb_true_iff in Hc.
    assert (Hm : m <> 0%Z) by (intros ->; discriminate).
    set (D := digits (Z.to_N (Z.abs m))).
    exists (m <? 0)%Z, D, (Z.of_nat (length D) - Zpos k)%Z.
    split; [apply leading_digits; lia|]. split; [reflexivity|].
    pose proof (dec_value_digits (Z.to_N (Z.abs m))) as V. fold D in V.
    rewrite V. unfold decimal.
    destruct (Z.leb_spec 0 (Z.of_nat (length D) - Z.pos k - Z.of_nat (length D)));
      [lia|].
    replace (Z.to_nat (- (Z.of_nat (length D) - Z.pos k - Z.of_nat (length D))))
      with (Pos.to_nat k) by lia.
    replace (if (m <? 0)%Z then (- Z.of_N (Z.to_N (Z.abs m)))%Z
             else Z.of_N (Z.to_N (Z.abs m))) with m
      by (destruct (Z.ltb_spec m 0); lia).
    now apply normalize_canonical.
Qed.

Lemma number_start (a : number) :
  number_canonical a = true ->
  exists c tl, number_to_string a = c :: tl
               /\ (c = 45%N \/ is_digit c = true).
Proof.
  intros Hc. destruct (number_to_string_parts a Hc)
    as [->|[neg [ds [n [L [E _]]]]]].
  - eexists _, _. split; [reflexivity|now right].
  - rewrite E. destruct neg.
    + eexists _, _. split; [reflexivity|now left].
    + destruct (positive_to_string_start n L) as [c [tl [Ep Dc]]].
      exists c, tl. split; [exact Ep|now right].
Qed.

(** a number, printed and read, is itself *)
Lemma parse_number_roundtrip (a : number) (rest : jstr) :
  number_canonical a = true -> delimited rest = true ->
  parse_number (number_to_string a ++ rest) = Some (a, rest).
Proof.
  intros Hc Hd. destruct (number_to_string_parts a Hc)
    as [->|[neg [ds [n [L [E V]]]]]].
  - change (number_to_string (Int 0) ++ rest) with (48%N :: digits 0 ++ rest)
      || change (number_to_string (Int 0) ++ rest) with ([48%N] ++ rest).
    unfold parse_number. change (48 =? 45)%N with false. cbv iota.
    change ([48%N] ++ rest) with (digits 0 ++ rest).
    now rewrite parse_unsigned_digits.
  - rewrite E, <- app_assoc. destruct neg.
    + change ([45%N] ++ ?x) with (45%N :: x). unfold parse_number.
      change (45 =? 45)%N with true. cbv iota.
      rewrite parse_positive by assumption. now rewrite V.
    + change ([] ++ ?x) with x.
      pose proof (parse_positive false n rest L Hd) as P.
      destruct (positive_to_string_start n L) as [c [tl [Ep Dc]]].
      rewrite Ep in *. rewrite <- app_comm_cons in *. unfold parse_number.
      rewrite (digit_not_minus c Dc), P. now rewrite V.
Qed.

(** ** 7.13 Strings through [JSON.stringify] and [JSON.parse] *)

Lemma hex_digit_value (d : N) :
  (d < 16)%N -> digit_value 16 (hex_digit d) = Some d.
Proof.
  intros Hd. unfold hex_digit, digit_value.
  destruct (N.ltb_spec d 10) as [H10|H10].
  - replace ((48 <=? 48 + d) && (48 + d <=? 57))%N with true
      by (symmetry; apply andb_true_iff; split; apply N.leb_le; lia).
    replace (48 + d - 48)%N with d by lia.
    now replace (d <? 16)%N with true by (symmetry; apply N.ltb_lt; lia).
  - replace ((48 <=? 87 + d) && (87 + d <=? 57))%N with false
      by (symmetry; apply andb_false_iff; right; apply N.leb_gt; lia).
    replace ((97 <=? 87 + d) && (87 + d <=? 122))%N with true
      by (symmetry; apply andb_true_iff; split; apply N.leb_le; lia).
    replace (87 + d - 87)%N with d by lia.
    now replace (d <? 16)%N with true by (symmetry; apply N.ltb_lt; lia).
Qed.

Lemma hex4_escape (c : N) :
  (c < 65536)%N ->
  hex4 (hex_digit (c / 4096)) (hex_digit ((c / 256) mod 16))
       (hex_digit ((c / 16) mod 16)) (hex_digit (c mod 16)) = Some c.
Proof.
  intros Hc. unfold hex4.
  rewrite !hex_digit_value;
    try (apply N.mod_lt; discriminate);
    try (apply N.Div0.div_lt_upper_bound; exact Hc).
  f_equal.
  pose proof (N.div_mod c 16 ltac:(discriminate)) as E1.
  pose proof (N.div_mod (c / 16) 16 ltac:(discriminate)) as E2.
  pose proof (N.div_mod (c / 16 / 16) 16 ltac:(discriminate)) as E3.
  rewrite !N.Div0.div_div in *. change (16 * 16)%N with 256%N in *.
  change (256 * 16)%N with 4096%N in *.
  assert (E4 : ((c / 4096) mod 16 = c / 4096)%N).
  { apply N.mod_small. apply N.Div0.div_lt_upper_bound. exact Hc. }
  lia.
Qed.

Lemma parse_plain_unit (c : N) (tl : jstr) :
  c <> 34%N -> c <> 92%N -> (32 <= c)%N ->
  parse_string_body (c :: tl)
  = match parse_string_body tl with
    | Some (t, rest) => Some (c :: t, rest)
    | None => None
    end.
Proof.
  intros H34 H92 H32. cbn [parse_string_body].
  apply N.eqb_neq in H34, H92. rewrite H34, H92.
  now replace (c <? 32)%N with false by (symmetry; apply N.ltb_ge; exact H32).
Qed.

Lemma parse_unicode_escape (c : N) (tl : jstr) :
  (c < 65536)%N ->
  parse_string_body (unicode_escape c ++ tl)
  = match parse_string_body tl with
    | Some (t, rest) => Some (c :: t, rest)
    | None => None
    end.
Proof.
  intros Hc. unfold unicode_escape.
  change (parse_string_body
            ([92%N; 117%N; hex_digit (c / 4096); hex_digit ((c / 256) mod 16);
              hex_digit ((c / 16) mod 16); hex_digit (c mod 16)] ++ tl))
    with (match hex4 (hex_digit (c / 4096)) (hex_digit ((c / 256) mod 16))
                     (hex_digit ((c / 16) mod 16)) (hex_digit (c mod 16)),
                parse_string_body tl with
          | Some u, Some (t, rest) => Some (u :: t, rest)
          | _, _ => None
          end).
  now rewrite hex4_escape.
Qed.

Lemma parse_quote_unit (c : N) (tl : jstr) :
  parse_string_body (quote_unit c ++ tl)
  = match parse_string_body tl with
    | Some (t, rest) => Some (c :: t, rest)
    | None => None
    end.
Proof.
  unfold quote_unit.
  destruct (N.eqb_spec c 8) as [->|H8]; [reflexivity|].
  destruct (N.eqb_spec c 9) as [->|H9]; [reflexivity|].
  destruct (N.eqb_spec c 10) as [->|H10]; [reflexivity|].
  destruct (N.eqb_spec c 12) as [->|H12]; [reflexivity|].
  destruct (N.eqb_spec c 13) as [->|H13]; [reflexivity|].
  destruct (N.eqb_spec c 34) as [->|H34]; [reflexivity|].
  destruct (N.eqb_spec c 92) as [->|H92]; [reflexivity|].
  destruct (N.ltb_spec c 32) as [H32|H32].
  - apply parse_unicode_escape. lia.
  - now apply parse_plain_unit.
Qed.

Lemma surrogate_bounds (c : N) :
  is_high c = true \/ is_low c = true ->
  c <> 34%N /\ c <> 92%N /\ (32 <= c)%N /\ (c < 65536)%N.
Proof.
  unfold is_high, is_low.
  intros [H|H]; apply andb_true_iff in H as [H1 H2];
    apply N.leb_le in H1, H2; lia.
Qed.

Lemma parse_quote_body_length (n : nat) :
  forall s rest,
    (length s <= n)%nat ->
    parse_string_body (quote_body s ++ 34%N :: rest) = Some (s, rest).
Proof.
  induction n as [|n IH]; intros s rest Hlen.
  - destruct s; [reflexivity|simpl in Hlen; lia].
  - destruct s as [|c r]; [reflexivity|]. simpl in Hlen.
    cbn [quote_body]. destruct (is_high c) eqn:Hh.
    + destruct (surrogate_bounds c (or_introl Hh)) as [A [B [C D]]].
      destruct r as [|d r'].
      * rewrite parse_unicode_escape by exact D. reflexivity.
      * destruct (is_low d) eqn:Hl.
        -- destruct (surrogate_bounds d (or_intror Hl)) as [A' [B' [C' _]]].
           rewrite <- !app_comm_cons.
           rewrite parse_plain_unit, parse_plain_unit by assumption.
           rewrite IH by (simpl in Hlen; lia). reflexivity.
        -- rewrite <- app_assoc, parse_unicode_escape by exact D.
           rewrite IH by lia. reflexivity.
    + destruct (is_low c) eqn:Hl.
      * destruct (surrogate_bounds c (or_intror Hl)) as [_ [_ [_ D]]].
        rewrite <- app_assoc, parse_unicode_escape by exact D.
        rewrite IH by lia. reflexivity.
      * rewrite <- app_assoc, parse_quote_unit. rewrite IH by lia. reflexivity.
Qed.

(** a quoted string, read after its opening quote, is the string *)
Lemma parse_quote_body (s rest : jstr) :
  parse_string_body (quote_body s ++ 34%N :: rest) = Some (s, rest).
Proof. apply parse_quote_body_length with (n := length s). lia. Qed.

(** ** 7.14 Values through [JSON.stringify] and [JSON.parse] *)

Lemma stringify_array (l : list json) :
  JSON_stringify (JArr l) = 91%N :: stringify_elements l.
Proof.
  cbn [JSON_stringify]. f_equal.
  induction l as [|x r IH]; [reflexivity|].
  cbn [stringify_elements]. destruct r as [|y r']; [reflexivity|].
  now rewrite <- IH.
Qed.

Lemma stringify_object (o : list (jstr * json)) :
  JSON_stringify (JObj o) = 123%N :: stringify_members o.
Proof.
  cbn [JSON_stringify]. f_equal.
  induction o as [|[k x] r IH]; [reflexivity|].
  cbn [stringify_members]. destruct r as [|y r']; [reflexivity|].
  now rewrite <- IH.
Qed.

Lemma number_start_bounds (c : N) :
  c = 45%N \/ is_digit c = true ->
  value_start c /\ (c =? 123)%N = false /\ (c =? 91)%N = false
  /\ (c =? 34)%N = false /\ (c =? 110)%N = false /\ (c =? 116)%N = false
  /\ (c =? 102)%N = false.
Proof.
  unfold value_start, is_json_ws, is_digit. intros [->|H].
  - repeat split; discriminate.
  - apply andb_true_iff in H as [H1 H2]. apply N.leb_le in H1, H2.
    repeat split; try (apply N.eqb_neq; lia); try lia.
    rewrite !orb_false_iff. repeat split; apply N.eqb_neq; lia.
Qed.

Lemma stringify_start (v : json) :
  json_canonical v = true ->
  exists c tl, JSON_stringify v = c :: tl /\ value_start c.
Proof.
  intros Hv. destruct v as [|[|]|n|s|l|o].
  - eexists _, _. split; [reflexivity|]. repeat split; discriminate.
  - eexists _, _. split; [reflexivity|]. repeat split; discriminate.
  - eexists _, _. split; [reflexivity|]. repeat split; discriminate.
  - destruct (number_start n Hv) as [c [tl [E Hc]]]. exists c, tl.
    split; [exact E|]. now apply number_start_bounds.
  - eexists _, _. split; [reflexivity|]. repeat split; discriminate.
  - rewrite stringify_array. eexists _, _. split; [reflexivity|].
    repeat split; discriminate.
  - rewrite stringify_object. eexists _, _. split; [reflexivity|].
    repeat split; discriminate.
Qed.

Lemma skip_ws_start (c : N) (tl : jstr) :
  is_json_ws c = false -> skip_ws (c :: tl) = c :: tl.
Proof. intros H. simpl. now rewrite H. Qed.

(** a number literal is read by [parse_number] *)
Lemma parse_value_number (f : nat) (c : N) (tl : jstr) :
  c = 45%N \/ is_digit c = true ->
  parse_value (S f) (c :: tl)
  = match parse_number (c :: tl) with
    | Some (n, rest) => Some (JNum n, rest)
    | None => None
    end.
Proof.
  intros Hc.
  destruct (number_start_bounds Hc) as [[W _] [H1 [H2 [H3 [H4 [H5 H6]]]]]].
  cbn [parse_value]. rewrite skip_ws_start by exact W. rewrite H1, H2, H3.
  change (js "null") with [110%N; 117%N; 108%N; 108%N].
  change (js "true") with [116%N; 114%N; 117%N; 101%N].
  change (js "false") with [102%N; 97%N; 108%N; 115%N; 101%N].
  cbn [starts_with]. rewrite (N.eqb_sym 110), (N.eqb_sym 116), (N.eqb_sym 102).
  now rewrite H4, H5, H6.
Qed.

Lemma set_fresh (k : jstr) (v : json) (acc : obj) :
  existsb (jstr_eqb k) (map fst acc) = false -> set k v acc = acc ++ [(k, v)].
Proof.
  induction acc as [|[k' v'] r IH]; [reflexivity|].
  simpl. intros H. apply orb_false_iff in H as [H1 H2].
  rewrite H1. now rewrite IH.
Qed.

Lemma distinct_app_fresh (ks rest : list jstr) (k : jstr) :
  distinct (ks ++ k :: rest) = true -> existsb (jstr_eqb k) ks = false.
Proof.
  induction ks as [|a ks IH]; [reflexivity|].
  simpl. intros H. apply andb_true_iff in H as [H1 H2].
  apply negb_true_iff in H1. rewrite existsb_app in H1.
  apply orb_false_iff in H1 as [_ H1]. simpl in H1.
  apply orb_false_iff in H1 as [H1 _].
  apply jstr_eqb_neq in H1.
  assert (E : jstr_eqb k a = false) by (apply jstr_eqb_neq; congruence).
  rewrite E. now apply IH.
Qed.

(** defining the members of an object whose keys are distinct gives them
    in their order *)
Lemma define_all_distinct (o : list (jstr * json)) :
  distinct (map fst o) = true -> define_all o = o.
Proof.
  unfold define_all.
  assert (G : forall acc : obj,
             distinct (map fst (acc ++ o)) = true ->
             fold_left (fun o kv => set (fst kv) (snd kv) o) o acc = acc ++ o).
  { induction o as [|[k v] r IH]; intros acc H.
    - now rewrite app_nil_r.
    - cbn [fold_left fst snd]. rewrite set_fresh.
      + rewrite IH; rewrite <- app_assoc; [reflexivity|exact H].
      + rewrite map_app in H. now apply distinct_app_fresh in H. }
  intros H. now apply (G []).
Qed.

Lemma parse_elements_roundtrip (l : list json) :
  Forall roundtrips l -> forallb json_canonical l = true -> l <> [] ->
  forall fuel rest,
    (fold_right (fun x n => S (value_fuel x + n)) O l <= fuel)%nat ->
    parse_elements fuel (stringify_elements l ++ rest) = Some (l, rest).
Proof.
  induction l as [|x r IH]; [congruence|].
  intros HF Hp _ fuel rest Hfuel.
  inversion HF as [|? ? Hx Hr]; subst.
  simpl in Hp. apply andb_true_iff in Hp as [Px Pr].
  cbn [fold_right] in Hfuel. destruct fuel as [|f]; [lia|].
  cbn [parse_elements stringify_elements]. rewrite <- app_assoc.
  destruct r as [|y r'].
  - rewrite (Hx Px f ([93%N] ++ rest)) by (reflexivity || lia). reflexivity.
  - remember (y :: r') as r eqn:Er.
    rewrite (Hx Px f ((44%N :: stringify_elements r) ++ rest))
      by (reflexivity || lia).
    rewrite <- app_comm_cons. rewrite skip_ws_start by reflexivity. cbv iota. change (44 =? 44)%N with true. cbv iota.
    rewrite IH; [reflexivity|exact Hr|exact Pr|subst r; discriminate|lia].
Qed.

Lemma parse_members_roundtrip (o : list (jstr * json)) :
  Forall (fun kv => roundtrips (snd kv)) o ->
  forallb (fun kv => json_canonical (snd kv)) o = true -> o <> [] ->
  forall fuel rest,
    (fold_right (fun kv n => S (value_fuel (snd kv) + n)) O o <= fuel)%nat ->
    parse_members fuel (stringify_members o ++ rest) = Some (o, rest).
Proof.
  induction o as [|[k x] r IH]; [congruence|].
  intros HF Hp _ fuel rest Hfuel.
  inversion HF as [|? ? Hx Hr]; subst. simpl in Hx.
  simpl in Hp. apply andb_true_iff in Hp as [Px Pr].
  cbn [fold_right snd] in Hfuel. destruct fuel as [|f]; [lia|].
  cbn [parse_members stringify_members]. unfold quote.
  rewrite <- !app_comm_cons, <- !app_assoc, <- !app_comm_cons.
  rewrite skip_ws_start by reflexivity. cbv iota.
  change (34 =? 34)%N with true. cbv iota.
  change ([] ++ 58%N :: ?t) with (58%N :: t). rewrite parse_quote_body.
  cbv beta iota. rewrite skip_ws_start by reflexivity. cbv iota.
  change (58 =? 58)%N with true. cbv iota.
  rewrite <- app_assoc.
  destruct r as [|y r'].
  - rewrite (Hx Px f ([125%N] ++ rest)) by (reflexivity || lia). reflexivity.
  - remember (y :: r') as r eqn:Er.
    rewrite (Hx Px f ((44%N :: stringify_members r) ++ rest))
      by (reflexivity || lia).
    rewrite <- app_comm_cons. rewrite skip_ws_start by reflexivity. cbv iota. change (44 =? 44)%N with true. cbv iota.
    rewrite IH; [reflexivity|exact Hr|exact Pr|subst r; discriminate|lia].
Qed.

Lemma parse_value_roundtrip (v : json) : roundtrips v.
Proof.
  induction v as [|b|n|s|l IH|o IH] using json_induction;
    intros Hp fuel rest Hfuel Hrest;
    (destruct fuel as [|f]; [simpl in Hfuel; lia|]).
  - reflexivity.
  - destruct b; reflexivity.
  - cbn [JSON_stringify]. cbn [json_canonical] in Hp.
    destruct (number_start n Hp) as [c [tl [E Hc]]].
    pose proof (parse_number_roundtrip n rest Hp Hrest) as P.
    rewrite E in *. rewrite <- app_comm_cons in *.
    rewrite parse_value_number by exact Hc. now rewrite P.
  - cbn [JSON_stringify]. unfold quote.
    rewrite <- app_comm_cons, <- app_assoc. cbn [parse_value].
    rewrite skip_ws_start by reflexivity.
    change (34 =? 123)%N with false. change (34 =? 91)%N with false.
    change (34 =? 34)%N with true. cbv iota.
    change ([34%N] ++ rest) with (34%N :: rest).
    now rewrite parse_quote_body.
  - rewrite stringify_array, <- app_comm_cons. cbn [parse_value].
    rewrite skip_ws_start by reflexivity.
    change (91 =? 123)%N with false. change (91 =? 91)%N with true. cbv iota.
    destruct l as [|x r]; [reflexivity|].
    simpl in Hp. cbn [value_fuel] in Hfuel.
    assert (E : parse_elements f (stringify_elements (x :: r) ++ rest)
                = Some (x :: r, rest)).
    { apply parse_elements_roundtrip; [exact IH|exact Hp|discriminate|lia]. }
    rewrite E.
    assert (Px : json_canonical x = true) by (apply andb_true_iff in Hp; tauto).
    destruct (stringify_start x Px) as [c [tl [Ec [W [N93 _]]]]].
    cbn [stringify_elements]. rewrite Ec, <- !app_comm_cons.
    rewrite skip_ws_start by exact W.
    apply N.eqb_neq in N93. now rewrite N93.
  - rewrite stringify_object, <- app_comm_cons. cbn [parse_value].
    rewrite skip_ws_start by reflexivity.
    change (123 =? 123)%N with true. cbv iota.
    destruct o as [|[k x] r]; [reflexivity|].
    simpl in Hp. apply andb_true_iff in Hp as [Hp Hd].
    cbn [value_fuel] in Hfuel.
    assert (E : parse_members f (stringify_members ((k, x) :: r) ++ rest)
                = Some ((k, x) :: r, rest)).
    { apply parse_members_roundtrip; [exact IH|exact Hp|discriminate|lia]. }
    rewrite E. rewrite (define_all_distinct ((k, x) :: r)) by exact Hd.
    cbn [stringify_members]. unfold quote.
    rewrite <- !app_comm_cons. rewrite skip_ws_start by reflexivity.
    reflexivity.
Qed.

(** the text of a value is at least as long as the calls that reading it
    takes *)
Lemma value_fuel_length (v : json) :
  json_canonical v = true -> (value_fuel v <= length (JSON_stringify v))%nat.
Proof.
  induction v as [|b|n|s|l IH|o IH] using json_induction; intros Hp.
  - simpl. lia.
  - destruct b; simpl; lia.
  - cbn [json_canonical] in Hp.
    destruct (number_start n Hp) as [c [tl [E _]]].
    cbn [JSON_stringify value_fuel]. rewrite E. simpl. lia.
  - cbn [JSON_stringify value_fuel]. simpl. lia.
  - rewrite stringify_array. cbn [value_fuel length]. apply le_n_S.
    simpl in Hp. induction l as [|x r IHr]; [simpl; lia|].
    inversion IH as [|? ? Hx Hr]; subst.
    simpl in Hp. apply andb_true_iff in Hp as [Px Pr].
    cbn [fold_right stringify_elements]. rewrite length_app.
    specialize (Hx Px). specialize (IHr Hr Pr).
    destruct r; simpl in *; lia.
  - rewrite stringify_object. cbn [value_fuel length]. apply le_n_S.
    simpl in Hp. apply andb_true_iff in Hp as [Hp _].
    induction o as [|[k x] r IHr]; [simpl; lia|].
    inversion IH as [|? ? Hx Hr]; subst.
    simpl in Hp. apply andb_true_iff in Hp as [Px Pr].
    cbn [fold_right stringify_members snd]. unfold quote.
    simpl length. rewrite !length_app. simpl length. rewrite length_app.
    specialize (Hx Px). specialize (IHr Hr Pr). simpl in Hx.
    destruct r; simpl in *; lia.
Qed.

(** [JSON.parse(JSON.stringify(v))] is [v], for a value whose numbers are
    in their one representation and whose objects have each key once *)
Theorem JSON_roundtrip (v : json) :
  json_canonical v = true -> JSON_parse (JSON_stringify v) = Some v.
Proof.
  intros Hp. unfold JSON_parse.
  pose proof (parse_value_roundtrip v) as R. unfold roundtrips in R.
  specialize (R Hp (2 * length (JSON_stringify v) + 2)%nat []).
  rewrite app_nil_r in R. rewrite R; [reflexivity| |reflexivity].
  pose proof (value_fuel_length v Hp). lia.
Qed.

(** ** 7.15 The round trip of the row codec *)

Lemma set_same (k : jstr) (v : json) (o : obj) :
  get k o = Some v -> set k v o = o.
Proof.
  induction o as [|[k' v'] r IH]; [discriminate|].
  simpl. destruct (jstr_eqb k k') eqn:E.
  - intros H. injection H as ->. apply jstr_eqb_eq in E. now subst.
  - intros H. now rewrite IH.
Qed.

Lemma digit_value_decimal (c : N) :
  is_digit c = true -> digit_value 10 c = Some (c - 48)%N.
Proof.
  unfold is_digit, digit_value. intros H. rewrite H.
  apply andb_true_iff in H as [H1 H2]. apply N.leb_le in H1, H2.
  now replace (c - 48 <? 10)%N with true by (symmetry; apply N.ltb_lt; lia).
Qed.

Lemma read_digits_decimal (ds : jstr) (a : N) :
  forallb is_digit ds = true ->
  read_digits 10 (Some a) ds
  = Some (fold_left (fun a c => a * 10 + (c - 48))%N ds a).
Proof.
  revert a. induction ds as [|c r IH]; intros a H; [reflexivity|].
  simpl in H. apply andb_true_iff in H as [Hc Hr].
  cbn [read_digits fold_left]. rewrite (digit_value_decimal c Hc).
  now apply IH.
Qed.

Lemma digit_not_space (c : N) : is_digit c = true -> is_space c = false.
Proof.
  unfold is_digit, is_space. intros H.
  apply andb_true_iff in H as [H1 H2]. apply N.leb_le in H1, H2.
  rewrite !orb_false_iff.
  repeat split; try (apply N.eqb_neq; lia);
    apply andb_false_iff; (left; apply N.leb_gt; lia) || (right; apply N.leb_gt; lia).
Qed.

(** [parseInt(String(n))] is [n], for a positive integer [n] *)
Lemma parseInt_digits (n : N) :
  n <> 0%N -> parseInt (digits n) = Some (Z.of_N n).
Proof.
  intros Hn. pose proof (dec_value_digits n) as V.
  pose proof (digits_all_digits n) as A.
  destruct (digits_head n) as [E|[c [r [E [Hc Dc]]]]];
    [now apply digits_zero in E|].
  rewrite E in *. simpl in A. apply andb_true_iff in A as [_ A].
  unfold parseInt. cbn [trim_start]. rewrite (digit_not_space c Dc).
  assert (H45 : (c =? 45)%N = false) by now apply digit_not_minus.
  assert (H43 : (c =? 43)%N = false).
  { unfold is_digit in Dc. apply andb_true_iff in Dc as [H1 _].
    apply N.leb_le in H1. apply N.eqb_neq. lia. }
  assert (H48 : (c =? 48)%N = false) by now apply N.eqb_neq.
  rewrite H45, H43.
  assert (R : (let (radix, s3) :=
                 match c :: r with
                 | z :: x :: r0 =>
                   if ((z =? 48) && ((x =? 120) || (x =? 88)))%N
                   then (16%N, r0) else (10%N, c :: r)
                 | _ => (10%N, c :: r)
                 end in
               match read_digits radix None s3 with
               | Some n0 => Some (Z.of_N n0)
               | None => None
               end) = Some (Z.of_N n)).
  { assert (D : read_digits 10 None (c :: r) = Some n).
    { cbn [read_digits]. rewrite (digit_value_decimal c Dc).
      rewrite read_digits_decimal by exact A.
      unfold dec_value in V. cbn [fold_left] in V.
      rewrite N.mul_0_l, N.add_0_l in V. now rewrite V. }
    destruct r as [|x r0]; [|rewrite H48]; cbn [andb]; cbv beta iota;
      now rewrite D. }
  exact R.
Qed.

Lemma parseInt_or_1_quantity (q : Z) :
  (1 <= q)%Z -> (q < 10 ^ 21)%Z ->
  parseInt_or_1 (Some (JStr (to_string (JNum (Int q))))) = q.
Proof.
  intros H1 H2. unfold parseInt_or_1. cbn [to_string_val to_string].
  rewrite number_to_string_plain by lia.
  destruct (Z.ltb_spec q 0); [lia|].
  change ([] ++ digits (Z.to_N (Z.abs q))) with (digits (Z.to_N (Z.abs q))).
  rewrite parseInt_digits by lia.
  destruct (Z.eqb_spec (Z.of_N (Z.to_N (Z.abs q))) 0); lia.
Qed.

(** decoding the row of a valid card gives the card *)
Lemma rowToCard_cardToRow (c : Card) :
  valid_card c -> rowToCard (cardToRow c) = Some c.
Proof.
  intros [Hp [q [Hq [Hb Eq]]]]. unfold rowToCard.
  change (cell (cardToRow c) 7) with (Some (JStr (JSON_stringify (JObj c)))).
  change (cell (cardToRow c) 5)
    with (Some (JStr (to_string (js_or (get k_qty c) (JNum (Int 1)))))).
  rewrite js_or_truthy by (rewrite stringify_object; reflexivity).
  cbn [to_string]. rewrite (JSON_roundtrip (JObj c) Hp). cbn [spread].
  rewrite Eq. rewrite js_or_truthy
    by (simpl; destruct (Z.eqb_spec q 0); [lia|reflexivity]).
  rewrite parseInt_or_1_quantity by lia.
  now rewrite set_same.
Qed.

(** decoding the row of a deck gives the deck, when its format is set and
    its commander resolves *)
Lemma rowToDeck_deckToRow (deck : Deck) (coll : list Card) :
  json_canonical (deck_cards deck) = true ->
  truthy_val (deck_format deck) = true ->
  commander_resolves deck coll ->
  rowToDeck (deckToRow deck coll) coll = Some deck.
Proof.
  intros Hp Hf Hc. destruct deck as [i n f cm cards]. simpl in *.
  destruct f as [f|]; [|discriminate]. simpl in Hf.
  unfold rowToDeck, deckToRow. cbn [cell nth deck_id deck_name deck_format
                                      deck_commander deck_cards].
  assert (Ecards : JSON_parse
                     (to_string (js_or (Some (JStr (JSON_stringify cards)))
                                       (JStr (js "[]")))) = Some cards).
  { destruct (stringify_start cards Hp) as [c [tl [E _]]].
    rewrite js_or_truthy by (rewrite E; reflexivity).
    cbn [to_string]. now apply JSON_roundtrip. }
  rewrite Ecards.
  rewrite (js_or_truthy f (JStr []) Hf), (js_or_truthy f (JStr (js "Standard")) Hf).
  unfold commander_resolves in Hc. cbn [deck_commander] in Hc.
  destruct Hc as [->|[cid [c [nm [c' [-> [Tc [F1 [Nm [Tn [F2 Id]]]]]]]]]]].
  - reflexivity.
  - cbn [truthy_val]. rewrite Tc, F1. cbn [opt_get]. rewrite Nm.
    rewrite (js_or_truthy nm (JStr []) Tn), (js_or_truthy nm (JStr []) Tn).
    rewrite Tn, F2. cbn [opt_get].
    rewrite Id. rewrite js_or_truthy by exact Tc. reflexivity.
Qed.

(** C3, as stated, fails for decks: the commander goes to the row as a
    card name and comes back as the identifier of the first card of that
    name.  With two printings of one card in the collection and the
    second one as commander, the decoded deck has the first one. *)
Lemma deck_commander_not_reproduced :
  exists d,
    rowToDeck (deckToRow (deck_sample Commander (str "a2"))
                         [card_atraxa; card_atraxa_promo])
              [card_atraxa; card_atraxa_promo] = Some d
    /\ deck_commander d = str "a1"
    /\ deck_commander (deck_sample Commander (str "a2")) = str "a2"
    /\ deck_commander d <> deck_commander (deck_sample Commander (str "a2")).
Proof.
  eexists. split; [vm_compute; reflexivity|].
  repeat split; vm_compute; discriminate.
Qed.

(** a commander that the collection does not have is lost as well *)
Example deck_commander_dangling_lost :
  exists d,
    rowToDeck (deckToRow (deck_sample Commander (str "a1")) [card_bolt])
              [card_bolt] = Some d
    /\ deck_commander d = str "".
Proof. eexists. split; vm_compute; reflexivity. Qed.

(** C3 (amended): decoding the row of a valid CollectionCard gives a card
    with its identifier, name and quantity; decoding, against the same
    collection, the row of a deck whose format is set gives a deck with
    its identifier, name, format and card list, and with its commander
    reference when that is empty or is the identifier of a card of the
    collection that has a name and is the first card of that name. *)
Theorem codec_roundtrip :
  (forall c : Card,
      valid_card c ->
      exists c',
        rowToCard (cardToRow c) = Some c'
        /\ get k_id c' = get k_id c /\ get k_name c' = get k_name c
        /\ get k_qty c' = get k_qty c)
  /\ (forall (deck : Deck) (coll : list Card),
        json_canonical (deck_cards deck) = true ->
        truthy_val (deck_format deck) = true ->
        exists d,
          rowToDeck (deckToRow deck coll) coll = Some d
          /\ deck_id d = deck_id deck /\ deck_name d = deck_name deck
          /\ deck_format d = deck_format deck
          /\ deck_cards d = deck_cards deck
          /\ (commander_resolves deck coll ->
              deck_commander d = deck_commander deck)).
Proof.
  split.
  - intros c Hc. exists c. now rewrite rowToCard_cardToRow.
  - intros deck coll Hp Hf.
    pose proof (rowToDeck_deckToRow (coll := coll) Hp Hf) as R.
    destruct deck as [i n f cm cards]. simpl in *.
    destruct f as [f|]; [|discriminate]. simpl in Hf.
    unfold rowToDeck, deckToRow in *.
    cbn [cell nth deck_id deck_name deck_format deck_commander deck_cards] in *.
    assert (Ecards : JSON_parse
                       (to_string (js_or (Some (JStr (JSON_stringify cards)))
                                         (JStr (js "[]")))) = Some cards).
    { destruct (stringify_start cards Hp) as [c [tl [E _]]].
      rewrite js_or_truthy by (rewrite E; reflexivity).
      cbn [to_string]. now apply JSON_roundtrip. }
    rewrite Ecards in *. eexists. split; [reflexivity|].
    cbn [deck_id deck_name deck_format deck_commander deck_cards].
    rewrite (js_or_truthy f (JStr []) Hf) in *.
    rewrite (js_or_truthy f (JStr (js "Standard")) Hf) in *.
    repeat split.
    intros Hres. specialize (R Hres). injection R as R. exact R.
Qed.

Lemma codec_roundtrip_witness :
  (exists c',
      rowToCard (cardToRow (set k_qty (JNum (Int 3)) card_atraxa)) = Some c'
      /\ get k_id c' = get k_id (set k_qty (JNum (Int 3)) card_atraxa)
      /\ get k_name c' = get k_name (set k_qty (JNum (Int 3)) card_atraxa)
      /\ get k_qty c' = get k_qty (set k_qty (JNum (Int 3)) card_atraxa))
  /\ (exists d,
         rowToDeck (deckToRow (deck_sample Commander (str "a1"))
                              [card_atraxa; card_bolt])
                   [card_atraxa; card_bolt] = Some d
         /\ deck_id d = deck_id (deck_sample Commander (str "a1"))
         /\ deck_name d = deck_name (deck_sample Commander (str "a1"))
         /\ deck_format d = deck_format (deck_sample Commander (str "a1"))
         /\ deck_cards d = deck_cards (deck_sample Commander (str "a1"))
         /\ (commander_resolves (deck_sample Commander (str "a1"))
                                [card_atraxa; card_bolt] ->
             deck_commander d
             = deck_commander (deck_sample Commander (str "a1")))).
Proof.
  split.
  - apply (proj1 codec_roundtrip). split; [reflexivity|].
    exists 3%Z. split; [lia|]. split; reflexivity.
  - apply (proj2 codec_roundtrip); reflexivity.
Defined.

(** the commander of the sample deck resolves in the sample collection *)
Example commander_resolves_sample :
  commander_resolves (deck_sample Commander (str "a1")) [card_atraxa; card_bolt].
Proof.
  right. exists (JStr (js "a1")), card_atraxa, (JStr (js "Atraxa")), card_atraxa.
  repeat split.
Qed.

(** ** 7.16 The fuel of [JSON_parse] is enough *)

Lemma skip_ws_length (s : jstr) : (length (skip_ws s) <= length s)%nat.
Proof.
  induction s as [|c r IH]; [reflexivity|].
  simpl. destruct (is_json_ws c); simpl; lia.
Qed.

Lemma starts_with_length (p s r : jstr) :
  starts_with p s = Some r -> length s = (length p + length r)%nat.
Proof.
  revert s. induction p as [|a p IH]; intros s H.
  - simpl in H. now injection H as ->.
  - destruct s as [|b s']; [discriminate|]. simpl in H.
    destruct (a =? b)%N; [|discriminate]. simpl. now rewrite (IH s' H).
Qed.

Lemma parse_string_body_shorter (n : nat) :
  forall s t r,
    (length s <= n)%nat -> parse_string_body s = Some (t, r) ->
    (length r < length s)%nat.
Proof.
  induction n as [|n IH]; intros s t r Hn H.
  - destruct s; [discriminate|simpl in Hn; lia].
  - destruct s as [|c s']; [discriminate|]. simpl in Hn. cbn [parse_string_body] in H.
    destruct (c =? 34)%N; [injection H as _ <-; simpl; lia|].
    destruct (c =? 92)%N.
    + destruct s' as [|e r1]; [discriminate|].
      destruct (e =? 117)%N.
      * destruct r1 as [|h1 [|h2 [|h3 [|h4 r2]]]]; try discriminate.
        destruct (hex4 h1 h2 h3 h4); [|discriminate].
        destruct (parse_string_body r2) as [[t' r']|] eqn:E; [|discriminate].
        injection H as _ <-. apply IH in E; simpl in *; lia.
      * destruct (unescape e); [|discriminate].
        destruct (parse_string_body r1) as [[t' r']|] eqn:E; [|discriminate].
        injection H as _ <-. apply IH in E; simpl in *; lia.
    + destruct (c <? 32)%N; [discriminate|].
      destruct (parse_string_body s') as [[t' r']|] eqn:E; [|discriminate].
      injection H as _ <-. apply IH in E; simpl in *; lia.
Qed.

Lemma take_digits_length (s ds r : jstr) :
  take_digits s = (ds, r) -> length s = (length ds + length r)%nat.
Proof.
  revert ds r. induction s as [|c s' IH]; intros ds r H; simpl in H.
  - now injection H as <- <-.
  - destruct (is_digit c).
    + destruct (take_digits s') as [ds' r'] eqn:E. injection H as <- <-.
      simpl. now rewrite (IH ds' r' eq_refl).
    + now injection H as <- <-.
Qed.

Lemma parse_unsigned_shorter (neg : bool) (s : jstr) (n : number) (r : jstr) :
  parse_unsigned neg s = Some (n, r) -> (length r < length s)%nat.
Proof.
  unfold parse_unsigned. destruct (take_digits s) as [[|d more] s2] eqn:T;
    [discriminate|]. apply take_digits_length in T. simpl in T.
  destruct ((d =? 48)%N && _); [discriminate|].
  assert (F : forall fs s3, parse_fraction s2 = Some (fs, s3) ->
                            (length s3 <= length s2)%nat).
  { intros fs s3. unfold parse_fraction. destruct s2 as [|c r2].
    - intros H. injection H as _ <-. lia.
    - destruct (c =? 46)%N.
      + destruct (take_digits r2) as [[|f fs'] r3] eqn:T2; [discriminate|].
        apply take_digits_length in T2. intros H. injection H as _ <-.
        simpl in *. lia.
      + intros H. injection H as _ <-. lia. }
  destruct (parse_fraction s2) as [[fs s3]|] eqn:Ef; [|discriminate].
  specialize (F fs s3 eq_refl).
  assert (X : forall e s4, parse_exponent s3 = Some (e, s4) ->
                           (length s4 <= length s3)%nat).
  { intros e s4. unfold parse_exponent. destruct s3 as [|c r3].
    - intros H. injection H as _ <-. lia.
    - destruct ((c =? 101) || (c =? 69))%N.
      + set (p := match r3 with
                  | g :: r' => if (g =? 45)%N then (true, r')
                               else if (g =? 43)%N then (false, r') else (false, r3)
                  | [] => (false, r3)
                  end).
        assert (Hp : (length (snd p) <= length r3)%nat).
        { unfold p. destruct r3 as [|g r']; [simpl; lia|].
          destruct (g =? 45)%N; [simpl; lia|].
          destruct (g =? 43)%N; simpl; lia. }
        destruct p as [b r1]. simpl in Hp.
        destruct (take_digits r1) as [[|x es] r4] eqn:T3; [discriminate|].
        apply take_digits_length in T3. intros H. injection H as _ <-.
        simpl in *. lia.
      + intros H. injection H as _ <-. lia. }
  destruct (parse_exponent s3) as [[e s4]|] eqn:Ee; [|discriminate].
  specialize (X e s4 eq_refl). intros H. injection H as _ <-. lia.
Qed.

Lemma parse_number_shorter (s : jstr) (n : number) (r : jstr) :
  parse_number s = Some (n, r) -> (length r < length s)%nat.
Proof.
  unfold parse_number. destruct s as [|c s']; [discriminate|].
  destruct (c =? 45)%N; intros H; apply parse_unsigned_shorter in H;
    simpl in *; lia.
Qed.

Lemma parse_fuel (f : nat) :
  fuel_adequate parse_value 1 f
  /\ fuel_adequate parse_elements 2 f
  /\ fuel_adequate parse_members 2 f.
Proof.
  induction f as [|g [IHv [IHe IHm]]];
    [split; [|split]; intros s x r H; discriminate H|].
  split; [|split]; intros s x r H.
  - (* a value *)
    cbn [parse_value] in H. pose proof (skip_ws_length s) as Ls.
    assert (G : forall f', (1 <= f')%nat -> exists f'', f' = S f'')
      by (intros [|f''] Hf; [lia|eauto]).
    destruct (skip_ws s) as [|c r0] eqn:Es; [discriminate|]. simpl in Ls.
    destruct (c =? 123)%N eqn:E123.
    { pose proof (skip_ws_length r0) as Lr.
      destruct (skip_ws r0) as [|c' r'] eqn:Er; [discriminate|]. simpl in Lr.
      destruct (c' =? 125)%N eqn:E125.
      - injection H as <- <-. split; [lia|]. intros f' Hf.
        destruct (G f') as [f'' ->]; [lia|].
        cbn [parse_value]. now rewrite Es, E123, Er, E125.
      - destruct (parse_members g r0) as [[ms rest]|] eqn:Em; [|discriminate].
        injection H as <- <-. destruct (IHm _ _ _ Em) as [L M].
        split; [lia|]. intros f' Hf. destruct (G f') as [f'' ->]; [lia|].
        cbn [parse_value]. rewrite Es, E123, Er, E125, M; [reflexivity|lia]. }
    destruct (c =? 91)%N eqn:E91.
    { pose proof (skip_ws_length r0) as Lr.
      destruct (skip_ws r0) as [|c' r'] eqn:Er; [discriminate|]. simpl in Lr.
      destruct (c' =? 93)%N eqn:E93.
      - injection H as <- <-. split; [lia|]. intros f' Hf.
        destruct (G f') as [f'' ->]; [lia|].
        cbn [parse_value]. now rewrite Es, E123, E91, Er, E93.
      - destruct (parse_elements g r0) as [[l rest]|] eqn:Ee; [|discriminate].
        injection H as <- <-. destruct (IHe _ _ _ Ee) as [L M].
        split; [lia|]. intros f' Hf. destruct (G f') as [f'' ->]; [lia|].
        cbn [parse_value]. rewrite Es, E123, E91, Er, E93, M; [reflexivity|lia]. }
    destruct (c =? 34)%N eqn:E34.
    { destruct (parse_string_body r0) as [[t rest]|] eqn:Eb; [|discriminate].
      injection H as <- <-.
      pose proof (@parse_string_body_shorter (length r0) r0 t rest (le_n _) Eb).
      split; [lia|]. intros f' Hf. destruct (G f') as [f'' ->]; [lia|].
      cbn [parse_value]. now rewrite Es, E123, E91, E34, Eb. }
    assert (L : (length r < length (c :: r0))%nat).
    { destruct (starts_with (js "null") (c :: r0)) eqn:S1.
      - injection H as _ <-. apply starts_with_length in S1.
        rewrite S1. simpl. lia.
      - destruct (starts_with (js "true") (c :: r0)) eqn:S2.
        + injection H as _ <-. apply starts_with_length in S2.
          rewrite S2. simpl. lia.
        + destruct (starts_with (js "false") (c :: r0)) eqn:S3.
          * injection H as _ <-. apply starts_with_length in S3.
            rewrite S3. simpl. lia.
          * destruct (parse_number (c :: r0)) as [[n rest]|] eqn:En;
              [|discriminate].
            injection H as _ <-. now apply parse_number_shorter in En. }
    simpl in L. split; [lia|]. intros f' Hf.
    destruct (G f') as [f'' ->]; [lia|].
    cbn [parse_value]. now rewrite Es, E123, E91, E34.
  - (* the elements of an array *)
    cbn [parse_elements] in H.
    destruct (parse_value g s) as [[v r1]|] eqn:Ev; [|discriminate].
    destruct (IHv _ _ _ Ev) as [L1 M1].
    pose proof (skip_ws_length r1) as Lr.
    destruct (skip_ws r1) as [|c r2] eqn:Er; [discriminate|]. simpl in Lr.
    destruct (c =? 44)%N eqn:E44.
    + destruct (parse_elements g r2) as [[l rest]|] eqn:Ee; [|discriminate].
      injection H as <- <-. destruct (IHe _ _ _ Ee) as [L2 M2].
      split; [lia|]. intros [|f''] Hf; [lia|].
      cbn [parse_elements]. rewrite M1 by lia. rewrite Er, E44.
      rewrite M2 by lia. reflexivity.
    + destruct (c =? 93)%N eqn:E93; [|discriminate].
      injection H as <- <-. split; [lia|]. intros [|f''] Hf; [lia|].
      cbn [parse_elements]. rewrite M1 by lia. now rewrite Er, E44, E93.
  - (* the members of an object *)
    cbn [parse_members] in H. pose proof (skip_ws_length s) as Ls.
    destruct (skip_ws s) as [|q r0] eqn:Es; [discriminate|]. simpl in Ls.
    destruct (q =? 34)%N eqn:E34; [|discriminate].
    destruct (parse_string_body r0) as [[k r1]|] eqn:Eb; [|discriminate].
    pose proof (@parse_string_body_shorter (length r0) r0 k r1 (le_n _) Eb) as Lk.
    pose proof (skip_ws_length r1) as Lr1.
    destruct (skip_ws r1) as [|c r2] eqn:Er1; [discriminate|]. simpl in Lr1.
    destruct (c =? 58)%N eqn:E58; [|discriminate].
    destruct (parse_value g r2) as [[v r3]|] eqn:Ev; [|discriminate].
    destruct (IHv _ _ _ Ev) as [L1 M1].
    pose proof (skip_ws_length r3) as Lr3.
    destruct (skip_ws r3) as [|d r4] eqn:Er3; [discriminate|]. simpl in Lr3.
    destruct (d =? 44)%N eqn:E44.
    + destruct (parse_members g r4) as [[ms rest]|] eqn:Em; [|discriminate].
      injection H as <- <-. destruct (IHm _ _ _ Em) as [L2 M2].
      split; [lia|]. intros [|f''] Hf; [lia|].
      cbn [parse_members]. rewrite Es, E34, Eb, Er1, E58. rewrite M1 by lia.
      rewrite Er3, E44. rewrite M2 by lia. reflexivity.
    + destruct (d =? 125)%N eqn:E125; [|discriminate].
      injection H as <- <-. split; [lia|]. intros [|f''] Hf; [lia|].
      cbn [parse_members]. rewrite Es, E34, Eb, Er1, E58. rewrite M1 by lia.
      now rewrite Er3, E44, E125.
Qed.

(** [JSON_parse] fails on no text that the parser reads with more fuel:
    its [None] is a syntax error *)
Theorem JSON_parse_fuel (f : nat) (s : jstr) (v : json) (rest : jstr) :
  parse_value f s = Some (v, rest) ->
  parse_value (2 * length s + 2) s = Some (v, rest).
Proof.
  intros H. destruct (parse_fuel f) as [A _].
  destruct (A s v rest H) as [_ M]. apply M. lia.
Qed.

(* ================================================================== *)
(** * 8. The rest of the interface                                      *)
(* ================================================================== *)

(** ** 8.1 Lists of fallible steps *)

Lemma map_throwing_Forall2 {A B} (f : A -> option B) (l : list A) (l' : list B) :
  map_throwing f l = Some l' -> Forall2 (fun x y => f x = Some y) l l'.
Proof.
  revert l'. induction l as [|x r IH]; simpl; intros l' H.
  - injection H as <-. constructor.
  - destruct (f x) as [y|] eqn:Hx; [|discriminate].
    destruct (map_throwing f r) as [r'|]; [|discriminate].
    injection H as <-. constructor; auto.
Qed.

Lemma map_throwing_total {A B} (f : A -> option B) (P : A -> Prop) (l : list A) :
  Forall P l -> (forall x, P x -> exists y, f x = Some y) ->
  exists l', map_throwing f l = Some l'.
Proof.
  intros Hl Hf. induction Hl as [|x r Hx Hr IH]; simpl; [now eexists|].
  destruct (Hf x Hx) as [y ->]. destruct IH as [r' ->]. now eexists.
Qed.

Lemma map_throwing_map {A B} (f : A -> option B) (g : A -> B) (l : list A) :
  (forall x, In x l -> f x = Some (g x)) -> map_throwing f l = Some (map g l).
Proof.
  induction l as [|x r IH]; simpl; intros H; [reflexivity|].
  rewrite (H x) by now left. rewrite IH by (intros; apply H; now right).
  reflexivity.
Qed.

Lemma filter_throwing_filter (p : json -> option bool) (q : json -> bool)
      (l : list json) :
  (forall x, In x l -> p x = Some (q x)) ->
  filter_throwing p l = Some (filter q l).
Proof.
  induction l as [|x r IH]; simpl; intros H; [reflexivity|].
  rewrite (H x) by now left. rewrite IH by (intros; apply H; now right).
  reflexivity.
Qed.

Lemma some_throwing_existsb (p : json -> option bool) (q : json -> bool)
      (l : list json) :
  (forall x, In x l -> p x = Some (q x)) ->
  some_throwing p l = Some (existsb q l).
Proof.
  induction l as [|x r IH]; simpl; intros H; [reflexivity|].
  rewrite (H x) by now left. destruct (q x); [reflexivity|].
  apply IH. intros; apply H; now right.
Qed.

Lemma forallb_filter {A} (p q : A -> bool) (l : list A) :
  forallb p l = true -> forallb p (filter q l) = true.
Proof.
  induction l as [|x r IH]; simpl; [easy|].
  intros H. apply andb_prop in H as [Hx Hr].
  destruct (q x); simpl; [rewrite Hx|]; auto.
Qed.

Lemma forallb_map_id {A} (p : A -> bool) (f : A -> A) (l : list A) :
  forallb p l = true -> (forall x, p x = true -> p (f x) = true) ->
  forallb p (map f l) = true.
Proof.
  intros H Hf. rewrite forallb_forall in *. intros y Hy.
  apply in_map_iff in Hy as (x & <- & Hx). auto.
Qed.
(** ** 8.2 Well-formed cards and entries *)

Lemma card_ok_qty (c : Card) :
  card_ok c = true ->
  exists q, get k_qty c = Some (JNum (Int q)) /\ (1 <= q)%Z.
Proof.
  unfold card_ok. destruct (get k_qty c) as [[| |[q|]| | |]|]; try discriminate.
  intros H. exists q. split; [reflexivity|]. now apply Z.leb_le.
Qed.

Lemma card_ok_set (q : Z) (c : Card) :
  (1 <= q)%Z -> card_ok (set k_qty (JNum (Int q)) c) = true.
Proof. intros H. unfold card_ok. rewrite get_set_same. now apply Z.leb_le. Qed.

Lemma quantity_truthy (c : Card) (q : Z) :
  get k_qty c = Some (JNum (Int q)) -> (1 <= q)%Z ->
  js_or (get k_qty c) (JNum (Int 1)) = JNum (Int q).
Proof.
  intros -> H. simpl. destruct (Z.eqb_spec q 0); [lia|reflexivity].
Qed.

Lemma strict_eq_sym (a b : jsval) : strict_eq a b = strict_eq b a.
Proof.
  destruct a as [[|x|x|x|x|x]|], b as [[|y|y|y|y|y]|]; simpl; try reflexivity.
  - now destruct x, y.
  - destruct x as [x|m k], y as [y|m' k']; simpl; try reflexivity.
    + apply Z.eqb_sym.
    + now rewrite Z.eqb_sym, Pos.eqb_sym.
  - unfold jstr_eqb. destruct (list_eq_dec N.eq_dec x y), (list_eq_dec N.eq_dec y x);
      congruence.
Qed.

Lemma ids_distinct_map (f : Card -> Card) (l : list Card) :
  (forall c, get k_id (f c) = get k_id c) ->
  ids_distinct (map f l) = ids_distinct l.
Proof.
  intros Hf. induction l as [|c r IH]; simpl; [reflexivity|].
  rewrite IH, Hf. f_equal. f_equal.
  clear IH. induction r as [|x r IH]; simpl; [reflexivity|].
  rewrite IH. unfold has_id. now rewrite Hf.
Qed.

Lemma ids_distinct_filter (p : Card -> bool) (l : list Card) :
  ids_distinct l = true -> ids_distinct (filter p l) = true.
Proof.
  induction l as [|c r IH]; simpl; [easy|].
  intros H. apply andb_prop in H as [Hc Hr].
  destruct (p c); simpl; auto.
  rewrite IH by assumption. rewrite andb_true_r.
  apply negb_true_iff in Hc. apply negb_true_iff.
  apply not_true_is_false. intros E. apply existsb_exists in E as (x & Hx & E).
  apply filter_In in Hx as [Hx _].
  assert (existsb (has_id (get k_id c)) r = true) by (apply existsb_exists; eauto).
  congruence.
Qed.

Lemma ids_distinct_app (l : list Card) (c : Card) :
  ids_distinct l = true ->
  (forall x, In x l -> has_id (get k_id c) x = false) ->
  ids_distinct (l ++ [c]) = true.
Proof.
  induction l as [|y r IH]; simpl; intros H Hc; [reflexivity|].
  apply andb_prop in H as [Hy Hr].
  rewrite IH by auto. rewrite andb_true_r.
  rewrite existsb_app. simpl. rewrite orb_false_r.
  apply negb_true_iff in Hy. rewrite Hy. simpl.
  unfold has_id. rewrite strict_eq_sym. apply negb_true_iff.
  apply (Hc y). now left.
Qed.

Lemma find_none_all {A} (f : A -> bool) (l : list A) :
  find f l = None -> forall x, In x l -> f x = false.
Proof. intros H x Hx. exact (find_none f l H x Hx). Qed.

(** ** 8.3 The mutations keep the state well-formed *)

Lemma addToCollection_ok (now : Z) (card : Card) (prev : list Card) :
  forallb card_ok prev = true -> ids_distinct prev = true ->
  forallb card_ok (addToCollection now card prev) = true
  /\ ids_distinct (addToCollection now card prev) = true.
Proof.
  intros Hq Hi. unfold addToCollection.
  destruct (find (fun c => strict_eq (get k_id c) (get k_id card)) prev) eqn:Hf.
  - split.
    + apply forallb_map_id; [assumption|]. intros c Hc.
      destruct (strict_eq (get k_id c) (get k_id card)); [|assumption].
      destruct (card_ok_qty c Hc) as (q & Hg & Hq1).
      rewrite (bump_quantity c Hg) by lia. apply card_ok_set. lia.
    + rewrite ids_distinct_map; [assumption|]. intros c.
      destruct (strict_eq (get k_id c) (get k_id card)); [|reflexivity].
      apply get_set_other. exact k_id_not_qty.
  - assert (Hid : get k_id (set (js "addedAt") (JNum (Int now))
                               (set k_qty (JNum (Int 1)) card)) = get k_id card).
    { rewrite get_set_other by exact k_id_not_addedAt.
      apply get_set_other. exact k_id_not_qty. }
    split.
    + rewrite forallb_app, Hq. simpl. rewrite andb_true_r.
      unfold card_ok. rewrite get_set_other by exact k_qty_not_addedAt.
      now rewrite get_set_same.
    + apply ids_distinct_app; [assumption|]. intros x Hx. unfold has_id.
      rewrite Hid. exact (find_none_all _ _ Hf x Hx).
Qed.

Lemma updateQty_map (cardId : jsval) (d : Z) (prev : list Card) :
  forallb card_ok prev = true ->
  updateQty cardId (Some (JNum (Int d))) prev
  = Some (map (fun c => if strict_eq (get k_id c) cardId
                        then set k_qty (JNum (Int (Z.max 1 (quantity c + d)))) c
                        else c) prev).
Proof.
  intros H. apply map_throwing_map. intros c Hc.
  destruct (strict_eq (get k_id c) cardId); [|reflexivity].
  rewrite forallb_forall in H.
  destruct (card_ok_qty c (H c Hc)) as (q & Hg & Hq).
  rewrite (quantity_truthy c Hg Hq). unfold quantity. rewrite Hg. reflexivity.
Qed.

Lemma updateQty_ok (cardId : jsval) (d : Z) (prev : list Card) :
  forallb card_ok prev = true -> ids_distinct prev = true ->
  exists next,
    updateQty cardId (Some (JNum (Int d))) prev = Some next
    /\ forallb card_ok next = true /\ ids_distinct next = true.
Proof.
  intros Hq Hi. rewrite updateQty_map by assumption. eexists. split; [reflexivity|].
  split.
  - apply forallb_map_id; [assumption|]. intros c Hc.
    destruct (strict_eq (get k_id c) cardId); [|assumption].
    apply card_ok_set. lia.
  - rewrite ids_distinct_map; [assumption|]. intros c.
    destruct (strict_eq (get k_id c) cardId); [|reflexivity].
    apply get_set_other. exact k_id_not_qty.
Qed.

Lemma entry_ok_inv (e : json) :
  entry_ok e = true -> exists o, e = JObj o /\ card_ok o = true.
Proof. destruct e; try discriminate. intros H. eauto. Qed.

Lemma deck_ok_inv (d : Deck) :
  deck_ok d = true -> exists l, deck_cards d = JArr l /\ forallb entry_ok l = true.
Proof. unfold deck_ok. destruct (deck_cards d); try discriminate. eauto. Qed.

Lemma deck_ok_with_cards (d : Deck) (l : list json) :
  forallb entry_ok l = true -> deck_ok (with_cards d (JArr l)) = true.
Proof. intros H. exact H. Qed.

Lemma entry_ok_entry (cid : jsval) : entry_ok (deck_entry cid) = true.
Proof. destruct cid as [v|]; reflexivity. Qed.

(** on a well-formed deck the array methods go through: they are [filter],
    [existsb] and [map] of the entries *)
Lemma filter_entries_ok (cardId : jsval) (l : list json) :
  forallb entry_ok l = true ->
  filter_entries cardId l
  = Some (filter (fun e => negb (references cardId e)) l).
Proof.
  induction l as [|e r IH]; simpl; intros H; [reflexivity|].
  apply andb_prop in H as [He Hr]. rewrite IH by assumption.
  destruct (entry_ok_inv e He) as (o & -> & _). reflexivity.
Qed.

Lemma updateDeck_ok (deckId : jsval) (updater : Deck -> option Deck)
      (d : list Deck) :
  forallb deck_ok d = true ->
  (forall dk, deck_ok dk = true ->
              exists dk', updater dk = Some dk' /\ deck_ok dk' = true) ->
  exists d', updateDeck deckId updater d = Some d' /\ forallb deck_ok d' = true.
Proof.
  intros Hd Hu. unfold updateDeck. induction d as [|dk r IH]; simpl.
  - now eexists.
  - simpl in Hd. apply andb_prop in Hd as [Hk Hr].
    destruct (IH Hr) as (r' & -> & Hr').
    destruct (strict_eq (deck_id dk) deckId).
    + destruct (Hu dk Hk) as (dk' & -> & Hk'). eexists. split; [reflexivity|].
      simpl. now rewrite Hk', Hr'.
    + eexists. split; [reflexivity|]. simpl. now rewrite Hk, Hr'.
Qed.

Lemma in_editions_ok (ids : list jsval) (e : json) :
  entry_ok e = true ->
  in_editions ids e = Some (includes ids (match e with
                                           | JObj o => get k_collectionId o
                                           | _ => None
                                           end)).
Proof. intros H. destruct (entry_ok_inv e H) as (o & -> & _). reflexivity. Qed.

Lemma toggle_in_ok (ids : list jsval) (cid deckId : jsval) (prev : list Deck) :
  forallb deck_ok prev = true ->
  exists next, toggle_in ids cid deckId prev = Some next
               /\ forallb deck_ok next = true.
Proof.
  intros H. unfold toggle_in. induction prev as [|dk r IH]; simpl.
  - now eexists.
  - simpl in H. apply andb_prop in H as [Hk Hr].
    destruct (IH Hr) as (r' & -> & Hr').
    destruct (strict_eq (deck_id dk) deckId); simpl.
    + destruct (deck_ok_inv dk Hk) as (l & -> & Hl).
      rewrite (some_throwing_existsb (in_editions ids)
                 (fun e => includes ids (match e with
                                         | JObj o => get k_collectionId o
                                         | _ => None
                                         end)) l).
      2:{ intros x Hx. apply in_editions_ok. rewrite forallb_forall in Hl. auto. }
      destruct (existsb _ l).
      * rewrite (filter_throwing_filter
                   (fun c => option_map negb (in_editions ids c))
                   (fun e => negb (includes ids (match e with
                                                 | JObj o => get k_collectionId o
                                                 | _ => None
                                                 end))) l).
        2:{ intros x Hx. rewrite in_editions_ok; [reflexivity|].
            rewrite forallb_forall in Hl. auto. }
        simpl. eexists. split; [reflexivity|]. simpl.
        rewrite Hr', andb_true_r. apply deck_ok_with_cards.
        now apply forallb_filter.
      * eexists. split; [reflexivity|]. simpl. rewrite Hr', andb_true_r.
        apply deck_ok_with_cards. rewrite forallb_app, Hl. cbn [forallb andb].
        now rewrite entry_ok_entry.
    + eexists. split; [reflexivity|]. simpl. now rewrite Hk, Hr'.
Qed.

Lemma find_entry_ok (cardId : jsval) (l : list json) :
  forallb entry_ok l = true ->
  exists r, find_entry cardId l = Some r
            /\ (r = None \/ exists o, r = Some (JObj o)).
Proof.
  induction l as [|e r IH]; simpl; intros H; [eauto|].
  apply andb_prop in H as [He Hr].
  destruct (entry_ok_inv e He) as (o & -> & _). simpl.
  destruct (strict_eq (get k_collectionId o) cardId); [eauto|auto].
Qed.

Lemma deck_onAdd_ok (cardId : jsval) (dk : Deck) :
  deck_ok dk = true ->
  exists dk', deck_onAdd cardId dk = Some dk' /\ deck_ok dk' = true.
Proof.
  intros H. unfold deck_onAdd.
  destruct (deck_ok_inv dk H) as (l & -> & Hl).
  destruct (find_entry_ok cardId l Hl) as (r & -> & [-> | (o & ->)]); simpl.
  - eexists. split; [reflexivity|]. apply deck_ok_with_cards.
    rewrite forallb_app, Hl. cbn [forallb andb].
        now rewrite entry_ok_entry.
  - rewrite (map_throwing_map _
               (fun c => match c with
                         | JObj o' =>
                           if strict_eq (get k_collectionId o') cardId
                           then with_qty (JNum (Int (quantity o' + 1))) c
                           else c
                         | _ => c
                         end)).
    + simpl. eexists. split; [reflexivity|]. apply deck_ok_with_cards.
      apply forallb_map_id; [assumption|]. intros c Hc.
      destruct (entry_ok_inv c Hc) as (o' & -> & Ho').
      destruct (strict_eq (get k_collectionId o') cardId); [|assumption].
      simpl. apply card_ok_set.
      destruct (card_ok_qty o' Ho') as (q & Hg & Hq). unfold quantity.
      rewrite Hg. lia.
    + intros c Hc. rewrite forallb_forall in Hl.
      destruct (entry_ok_inv c (Hl c Hc)) as (o' & -> & Ho'). simpl.
      destruct (strict_eq (get k_collectionId o') cardId); [|reflexivity].
      destruct (card_ok_qty o' Ho') as (q & Hg & Hq). unfold quantity.
      rewrite Hg. reflexivity.
Qed.

Lemma deck_onRemove_ok (cardId : jsval) (dk : Deck) :
  deck_ok dk = true ->
  exists dk', deck_onRemove cardId dk = Some dk' /\ deck_ok dk' = true.
Proof.
  intros H. unfold deck_onRemove, without_card.
  destruct (deck_ok_inv dk H) as (l & -> & Hl).
  rewrite filter_entries_ok by assumption. simpl.
  eexists. split; [reflexivity|]. apply deck_ok_with_cards.
  now apply forallb_filter.
Qed.

Lemma deck_onQty_ok (cardId : jsval) (d : Z) (dk : Deck) :
  deck_ok dk = true ->
  exists dk', deck_onQty cardId (Some (JNum (Int d))) dk = Some dk'
              /\ deck_ok dk' = true.
Proof.
  intros H. unfold deck_onQty.
  destruct (deck_ok_inv dk H) as (l & -> & Hl).
  rewrite (map_throwing_map _
             (fun c => match c with
                       | JObj o =>
                         if negb (strict_eq (get k_collectionId o) cardId) then c
                         else with_qty (JNum (Int (Z.max 0 (quantity o + d)))) c
                       | _ => c
                       end)).
  2:{ intros c Hc. rewrite forallb_forall in Hl.
      destruct (entry_ok_inv c (Hl c Hc)) as (o & -> & Ho). simpl.
      destruct (strict_eq (get k_collectionId o) cardId); [|reflexivity]. simpl.
      destruct (card_ok_qty o Ho) as (q & Hg & Hq). unfold quantity.
      rewrite Hg. reflexivity. }
  set (l1 := map _ l).
  assert (H1 : forall c, In c l1 ->
             exists o q, c = JObj o /\ get k_qty o = Some (JNum (Int q))
                         /\ (0 <= q)%Z).
  { intros c Hc. apply in_map_iff in Hc as (c0 & <- & Hc0).
    rewrite forallb_forall in Hl.
    destruct (entry_ok_inv c0 (Hl c0 Hc0)) as (o & -> & Ho).
    destruct (card_ok_qty o Ho) as (q & Hg & Hq).
    destruct (negb (strict_eq (get k_collectionId o) cardId)).
    - exists o, q. repeat split; auto. lia.
    - eexists _, _. split; [reflexivity|]. simpl. rewrite get_set_same.
      split; [reflexivity|]. lia. }
  rewrite (filter_throwing_filter _
             (fun c => match c with
                       | JObj o => (0 <? quantity o)%Z
                       | _ => false
                       end)).
  2:{ intros c Hc. destruct (H1 c Hc) as (o & q & -> & Hg & Hq). simpl.
      unfold quantity. now rewrite Hg. }
  simpl. eexists. split; [reflexivity|]. apply deck_ok_with_cards.
  apply forallb_forall. intros c Hc. apply filter_In in Hc as [Hc Hp].
  destruct (H1 c Hc) as (o & q & -> & Hg & Hq). simpl. unfold card_ok.
  unfold quantity in Hp. rewrite Hg in *. apply Z.ltb_lt in Hp.
  apply Z.leb_le. lia.
Qed.

Lemma state_ok_inv (st : AppState) :
  state_ok st = true ->
  forallb card_ok (collection st) = true
  /\ ids_distinct (collection st) = true
  /\ forallb deck_ok (decks st) = true.
Proof.
  unfold state_ok. intros H. apply andb_prop in H as [H Hd].
  apply andb_prop in H as [Hc Hi]. auto.
Qed.

Lemma state_ok_intro (c : list Card) (d : list Deck) (s : SyncStatus) (m : jstr) :
  forallb card_ok c = true -> ids_distinct c = true -> forallb deck_ok d = true ->
  state_ok (mkApp c d s m) = true.
Proof. intros Hc Hi Hd. unfold state_ok. simpl. now rewrite Hc, Hi, Hd. Qed.

Lemma removeFromCollection_ok (cardId : jsval) (st : AppState) :
  state_ok st = true ->
  exists st', removeFromCollection cardId st = Some st' /\ state_ok st' = true.
Proof.
  intros H. destruct (state_ok_inv st H) as (Hc & Hi & Hd).
  unfold removeFromCollection.
  assert (G : exists ds,
             map_throwing
               (fun d =>
                  match without_card cardId (deck_cards d) with
                  | Some cs => Some {| deck_id := deck_id d;
                                       deck_name := deck_name d;
                                       deck_format := deck_format d;
                                       deck_commander := deck_commander d;
                                       deck_cards := cs |}
                  | None => None
                  end) (decks st) = Some ds
             /\ forallb deck_ok ds = true).
  { clear Hc Hi H. induction (decks st) as [|dk r IH]; simpl; [now eexists|].
    simpl in Hd. apply andb_prop in Hd as [Hk Hr].
    destruct (IH Hr) as (r' & -> & Hr').
    destruct (deck_onRemove_ok cardId dk Hk) as (dk' & E & Hk').
    unfold deck_onRemove in E.
    destruct (without_card cardId (deck_cards dk)) as [cs|]; [|discriminate].
    injection E as <-. eexists. split; [reflexivity|]. simpl.
    unfold with_cards in Hk'. now rewrite Hk', Hr'. }
  destruct G as (ds & -> & Hds). eexists. split; [reflexivity|].
  apply state_ok_intro; [now apply forallb_filter|now apply ids_distinct_filter|exact Hds].
Qed.

Lemma apply_operation_ok (op : operation) (st : AppState) :
  state_ok st = true -> operation_ok op = true ->
  exists st', apply_operation op st = Some st' /\ state_ok st' = true.
Proof.
  intros H Hop. destruct (state_ok_inv st H) as (Hc & Hi & Hd).
  destruct op as [now card|cardId|cardId d|card deckId|now name|ident
                  |deckId cardId|deckId cardId|deckId cardId d|deckId fmt
                  |deckId commander]; simpl.
  - eexists. split; [reflexivity|].
    destruct (addToCollection_ok now card (collection st) Hc Hi).
    now apply state_ok_intro.
  - now apply removeFromCollection_ok.
  - destruct (updateQty_ok cardId d (collection st) Hc Hi) as (n & -> & Hn & Hn').
    eexists. split; [reflexivity|]. now apply state_ok_intro.
  - unfold toggleCardInDeck. simpl in Hop.
    destruct (editionIds card) as [ids|]; [|discriminate].
    destruct (toggle_in_ok ids (get k_id card) deckId (decks st) Hd)
      as (n & -> & Hn).
    eexists. split; [reflexivity|]. now apply state_ok_intro.
  - eexists. split; [reflexivity|]. apply state_ok_intro; auto.
    unfold createDeck. cbn [newDeckName].
    destruct (negb (nonempty (trim name))); simpl; [assumption|].
    rewrite forallb_app, Hd. reflexivity.
  - eexists. split; [reflexivity|]. apply state_ok_intro; auto.
    simpl. now apply forallb_filter.
  - destruct (updateDeck_ok deckId (deck_onAdd cardId) (decks st) Hd)
      as (n & -> & Hn); [intros; now apply deck_onAdd_ok|].
    eexists. split; [reflexivity|]. now apply state_ok_intro.
  - destruct (updateDeck_ok deckId (deck_onRemove cardId) (decks st) Hd)
      as (n & -> & Hn); [intros; now apply deck_onRemove_ok|].
    eexists. split; [reflexivity|]. now apply state_ok_intro.
  - destruct (updateDeck_ok deckId (deck_onQty cardId (Some (JNum (Int d))))
                            (decks st) Hd)
      as (n & -> & Hn); [intros; now apply deck_onQty_ok|].
    eexists. split; [reflexivity|]. now apply state_ok_intro.
  - destruct (updateDeck_ok deckId (fun dk => Some (set_format fmt dk))
                            (decks st) Hd)
      as (n & -> & Hn); [intros dk Hk; eexists; split; [reflexivity|exact Hk]|].
    eexists. split; [reflexivity|]. now apply state_ok_intro.
  - destruct (updateDeck_ok deckId (fun dk => Some (set_commander commander dk))
                            (decks st) Hd)
      as (n & -> & Hn); [intros dk Hk; eexists; split; [reflexivity|exact Hk]|].
    eexists. split; [reflexivity|]. now apply state_ok_intro.
Qed.

(** X1.  From a well-formed state, the empty one for instance, no sequence
    of the operations of the interface throws, and the state stays
    well-formed: every card of the collection and every entry of a deck
    has an integer quantity of 1 at least, and no two cards of the
    collection have the same identifier. *)
Theorem operations_keep_state_ok (ops : list operation) (st : AppState) :
  state_ok st = true -> forallb operation_ok ops = true ->
  exists st', apply_operations ops st = Some st' /\ state_ok st' = true.
Proof.
  revert st. induction ops as [|op rest IH]; simpl; intros st H Hops.
  - eauto.
  - apply andb_prop in Hops as [Hop Hrest].
    destruct (apply_operation_ok op st H Hop) as (st1 & -> & H1).
    now apply IH.
Qed.

Lemma operations_keep_state_ok_witness :
  exists st',
    apply_operations
      [AddCard 5 card_atraxa; AddCard 6 card_atraxa; CreateDeck 7 (js "Superfriends");
       ToggleDeck card_atraxa (str "7"); DeckQty (str "7") (str "a1") (-1);
       UpdateQty (str "a1") (-5); RemoveCard (str "a1")]
      (mkApp [] [] idle [])
    = Some st'
    /\ state_ok st' = true.
Proof.
  apply (@operations_keep_state_ok
           [AddCard 5 card_atraxa; AddCard 6 card_atraxa;
            CreateDeck 7 (js "Superfriends");
            ToggleDeck card_atraxa (str "7"); DeckQty (str "7") (str "a1") (-1);
            UpdateQty (str "a1") (-5); RemoveCard (str "a1")]
           (mkApp [] [] idle [])); reflexivity.
Defined.

(** ** 8.4 [updateQty] *)

(** X2.  On a collection of well-formed cards, [updateQty] with an integer
    step adds the step to the quantity of the card of the identifier, but
    never brings it below 1; it keeps every other property of that card,
    every other card, and the order and number of the cards. *)
Theorem updateQty_floor (cardId : jsval) (d : Z) (prev : list Card) :
  forallb card_ok prev = true ->
  exists next,
    updateQty cardId (Some (JNum (Int d))) prev = Some next
    /\ Forall2
         (fun c c' =>
            (has_id cardId c = false -> c' = c)
            /\ (has_id cardId c = true ->
                get k_qty c' = Some (JNum (Int (Z.max 1 (quantity c + d))))
                /\ forall k, k <> k_qty -> get k c' = get k c))
         prev next.
Proof.
  intros H. rewrite updateQty_map by assumption. eexists. split; [reflexivity|].
  clear H. induction prev as [|c r IH]; simpl; constructor; [|exact IH].
  unfold has_id. destruct (strict_eq (get k_id c) cardId).
  - split; [discriminate|]. intros _. split; [apply get_set_same|].
    intros k Hk. apply get_set_other. congruence.
  - split; [reflexivity|discriminate].
Qed.

Lemma updateQty_floor_witness :
  exists next,
    updateQty (str "b1") (Some (JNum (Int (-1))))
              [set k_qty (JNum (Int 3)) card_atraxa; set k_qty (JNum (Int 1)) card_bolt]
    = Some next
    /\ Forall2
         (fun c c' =>
            (has_id (str "b1") c = false -> c' = c)
            /\ (has_id (str "b1") c = true ->
                get k_qty c' = Some (JNum (Int (Z.max 1 (quantity c + -1))))
                /\ forall k, k <> k_qty -> get k c' = get k c))
         [set k_qty (JNum (Int 3)) card_atraxa; set k_qty (JNum (Int 1)) card_bolt]
         next.
Proof.
  apply (@updateQty_floor (str "b1") (-1)
           [set k_qty (JNum (Int 3)) card_atraxa; set k_qty (JNum (Int 1)) card_bolt]).
  reflexivity.
Defined.

(** ** 8.5 The number of cards *)

Lemma total_cards_from (l : list Card) (a : Z) :
  forallb card_ok l = true ->
  fold_left
    (fun s c =>
       match s with
       | Some v => js_plus (Some v) (Some (js_or (get k_qty c) (JNum (Int 1))))
       | None => None
       end) l (Some (JNum (Int a)))
  = Some (JNum (Int (a + sum_quantities l))).
Proof.
  revert a. induction l as [|c r IH]; intros a H.
  - simpl. now rewrite Z.add_0_r.
  - simpl in H. apply andb_prop in H as [Hc Hr].
    destruct (card_ok_qty c Hc) as (q & Hg & Hq).
    cbn [fold_left]. rewrite (quantity_truthy c Hg Hq).
    change (js_plus (Some (JNum (Int a))) (Some (JNum (Int q))))
      with (Some (JNum (Int (a + q)))).
    rewrite IH by assumption. simpl. unfold quantity. rewrite Hg.
    do 3 f_equal. lia.
Qed.

Lemma total_cards_sum (l : list Card) :
  forallb card_ok l = true ->
  total_cards l = Some (JNum (Int (sum_quantities l))).
Proof. intros H. unfold total_cards. now rewrite total_cards_from. Qed.

Lemma sum_quantities_app (a b : list Card) :
  sum_quantities (a ++ b) = (sum_quantities a + sum_quantities b)%Z.
Proof. induction a as [|c r IH]; simpl; [reflexivity|]. rewrite IH. lia. Qed.

Lemma has_id_unique (i : jsval) (c : Card) (r : list Card) :
  has_id i c = true -> existsb (has_id (get k_id c)) r = false ->
  forall x, In x r -> has_id i x = false.
Proof.
  intros Hc Hr x Hx. apply not_true_is_false. intros E.
  assert (existsb (has_id (get k_id c)) r = true); [|congruence].
  apply existsb_exists. exists x. split; [assumption|].
  unfold has_id in *. apply strict_eq_true in Hc. now rewrite Hc.
Qed.

Lemma sum_quantities_bump (i : jsval) (l : list Card) :
  forallb card_ok l = true -> ids_distinct l = true ->
  existsb (has_id i) l = true ->
  sum_quantities
    (map (fun c => if has_id i c
                   then set k_qty (js_add_one (js_or (get k_qty c) (JNum (Int 1)))) c
                   else c) l)
  = (sum_quantities l + 1)%Z.
Proof.
  induction l as [|c r IH]; simpl; [discriminate|].
  intros Hq Hi He. apply andb_prop in Hq as [Hc Hr].
  apply andb_prop in Hi as [Hn Hd]. apply negb_true_iff in Hn.
  destruct (has_id i c) eqn:Hic.
  - rewrite (map_ext_in _ (fun x => x)), map_id.
    2:{ intros x Hx. now rewrite (has_id_unique i c r Hic Hn x Hx). }
    destruct (card_ok_qty c Hc) as (q & Hg & Hq).
    rewrite (bump_quantity c Hg) by lia.
    unfold quantity at 1. rewrite get_set_same.
    unfold quantity. rewrite Hg. lia.
  - simpl in He. rewrite IH by assumption. lia.
Qed.

(** X3.  On a well-formed collection the card count of the header is the
    sum of the quantities, and [addToCollection] raises it by exactly
    one, whether the card is new or already there. *)
Theorem addToCollection_total_cards (now : Z) (card : Card) (prev : list Card) :
  forallb card_ok prev = true -> ids_distinct prev = true ->
  total_cards prev = Some (JNum (Int (sum_quantities prev)))
  /\ total_cards (addToCollection now card prev)
     = Some (JNum (Int (sum_quantities prev + 1))).
Proof.
  intros Hq Hi. split; [now apply total_cards_sum|].
  destruct (addToCollection_ok now card prev Hq Hi) as [Hq' _].
  rewrite total_cards_sum by assumption. do 3 f_equal.
  destruct (existsb (has_id (get k_id card)) prev) eqn:He.
  - rewrite addToCollection_present by assumption.
    now apply sum_quantities_bump.
  - rewrite addToCollection_absent.
    + rewrite sum_quantities_app. simpl. unfold quantity.
      rewrite get_set_other by exact k_qty_not_addedAt.
      rewrite get_set_same. lia.
    + intros c Hc. apply not_true_is_false. intros E.
      assert (existsb (has_id (get k_id card)) prev = true); [|congruence].
      apply existsb_exists. eauto.
Qed.

Lemma addToCollection_total_cards_witness :
  total_cards [set k_qty (JNum (Int 3)) card_atraxa; set k_qty (JNum (Int 1)) card_bolt]
  = Some (JNum (Int (sum_quantities
                       [set k_qty (JNum (Int 3)) card_atraxa;
                        set k_qty (JNum (Int 1)) card_bolt])))
  /\ total_cards
       (addToCollection 9 card_atraxa
          [set k_qty (JNum (Int 3)) card_atraxa; set k_qty (JNum (Int 1)) card_bolt])
     = Some (JNum (Int (sum_quantities
                          [set k_qty (JNum (Int 3)) card_atraxa;
                           set k_qty (JNum (Int 1)) card_bolt] + 1))).
Proof.
  apply (@addToCollection_total_cards 9 card_atraxa
           [set k_qty (JNum (Int 3)) card_atraxa; set k_qty (JNum (Int 1)) card_bolt]);
    reflexivity.
Defined.

(** ** 8.6 [toggleCardInDeck] *)

Lemma with_cards_same (dk : Deck) (cards : json) :
  deck_cards dk = cards -> with_cards dk cards = dk.
Proof. intros <-. now destruct dk. Qed.

Lemma references_entry (cardId : jsval) (e : json) :
  entry_ok e = true ->
  references cardId e
  = strict_eq (match e with JObj o => get k_collectionId o | _ => None end) cardId.
Proof. intros H. destruct (entry_ok_inv e H) as (o & -> & _). reflexivity. Qed.

Lemma includes_single (cid x : jsval) : includes [cid] x = strict_eq x cid.
Proof. unfold includes. simpl. apply orb_false_r. Qed.

Lemma deck_entry_ref (cid : jsval) :
  member (Some (deck_entry cid)) k_collectionId = Some cid.
Proof. destruct cid as [v|]; reflexivity. Qed.

Lemma editionIds_plain (card : Card) :
  get (js "_editionCards") card = None -> editionIds card = Some [get k_id card].
Proof. unfold editionIds. now intros ->. Qed.

Lemma filter_all {A} (l : list A) (p : A -> bool) :
  (forall x, In x l -> p x = true) -> filter p l = l.
Proof.
  induction l as [|x r IH]; simpl; intros H; [reflexivity|].
  rewrite (H x) by now left. f_equal. apply IH. intros; apply H; now right.
Qed.

Lemma not_held (cid deckId : jsval) (prev : list Deck) :
  forallb (fun dk => negb (strict_eq (deck_id dk) deckId && holds_card cid dk))
          prev = true ->
  forall dk l, In dk prev -> strict_eq (deck_id dk) deckId = true ->
               deck_cards dk = JArr l -> existsb (references cid) l = false.
Proof.
  intros H dk l Hdk Hid Hl. rewrite forallb_forall in H.
  specialize (H dk Hdk). rewrite Hid in H. unfold holds_card in H.
  rewrite Hl in H. now apply negb_true_iff in H.
Qed.

(** the toggle of a deck that does not have the card: one entry more *)
Lemma toggle_in_absent (cid deckId : jsval) (prev : list Deck) :
  forallb deck_ok prev = true ->
  (forall dk l, In dk prev -> strict_eq (deck_id dk) deckId = true ->
                deck_cards dk = JArr l -> existsb (references cid) l = false) ->
  toggle_in [cid] cid deckId prev
  = Some (map (fun dk =>
                 if strict_eq (deck_id dk) deckId
                 then match deck_cards dk with
                      | JArr l => with_cards dk (JArr (l ++ [deck_entry cid]))
                      | _ => dk
                      end
                 else dk) prev).
Proof.
  intros Hok Habs. apply map_throwing_map. intros dk Hdk.
  destruct (strict_eq (deck_id dk) deckId) eqn:Hid; [|reflexivity]. simpl.
  rewrite forallb_forall in Hok.
  destruct (deck_ok_inv dk (Hok dk Hdk)) as (l & Hl & Hes).
  specialize (Habs dk l Hdk Hid Hl). rewrite Hl.
  rewrite (some_throwing_existsb (in_editions [cid]) (references cid) l).
  - now rewrite Habs.
  - intros e He. rewrite forallb_forall in Hes.
    rewrite in_editions_ok, includes_single by auto.
    now rewrite references_entry by auto.
Qed.

(** X4.  Toggling a card into the decks of an identifier that do not have
    it appends one entry of quantity 1 to each of them, and toggling it
    again gives back exactly the decks from before. *)
Theorem toggleCardInDeck_twice (card : Card) (deckId : jsval) (prev : list Deck) :
  forallb deck_ok prev = true ->
  get (js "_editionCards") card = None ->
  strict_eq (get k_id card) (get k_id card) = true ->
  forallb (fun dk => negb (strict_eq (deck_id dk) deckId
                           && holds_card (get k_id card) dk)) prev = true ->
  exists mid,
    toggleCardInDeck card deckId prev = Some mid
    /\ Forall2
         (fun dk dk' =>
            if strict_eq (deck_id dk) deckId
            then exists l, deck_cards dk = JArr l
                           /\ dk' = with_cards dk (JArr (l ++ [deck_entry (get k_id card)]))
            else dk' = dk) prev mid
    /\ toggleCardInDeck card deckId mid = Some prev.
Proof.
  intros Hok Hed Hprim Habs0. unfold toggleCardInDeck.
  rewrite (editionIds_plain card Hed). set (cid := get k_id card) in *.
  pose proof (not_held cid deckId prev Habs0) as Habs. clear Habs0.
  rewrite toggle_in_absent by assumption. eexists. split; [reflexivity|].
  split.
  - clear Habs. induction prev as [|dk r IH]; simpl; constructor.
    + simpl in Hok. apply andb_prop in Hok as [Hk _].
      destruct (strict_eq (deck_id dk) deckId); [|reflexivity].
      destruct (deck_ok_inv dk Hk) as (l & Hl & _). exists l. now rewrite Hl.
    + apply IH. simpl in Hok. now apply andb_prop in Hok as [_ Hr].
  - induction prev as [|dk r IH]; [reflexivity|].
    simpl in Hok. apply andb_prop in Hok as [Hk Hr].
    assert (IH' := IH Hr (fun d l H => Habs d l (or_intror H))). clear IH.
    cbn [map]. unfold toggle_in in *. cbn [map_throwing]. rewrite IH'.
    destruct (strict_eq (deck_id dk) deckId) eqn:Hid.
    + destruct (deck_ok_inv dk Hk) as (l & Hl & Hes). rewrite Hl.
      cbn [with_cards deck_id deck_cards]. rewrite Hid. cbn [negb].
      assert (Hall : forall e, In e (l ++ [deck_entry cid]) ->
                in_editions [cid] e = Some (references cid e)).
      { intros e He. assert (Ho : entry_ok e = true).
        { apply in_app_or in He as [He|[<-|[]]].
          - rewrite forallb_forall in Hes. auto.
          - apply entry_ok_entry. }
        rewrite in_editions_ok, includes_single by assumption.
        now rewrite references_entry. }
      rewrite (some_throwing_existsb _ (references cid) _ Hall).
      rewrite existsb_app.
      assert (Hnew : references cid (deck_entry cid) = true).
      { unfold references. now rewrite deck_entry_ref. }
      cbn [existsb]. rewrite Hnew. cbn [orb]. rewrite orb_true_r.
      rewrite (filter_throwing_filter _ (fun e => negb (references cid e))).
      2:{ intros e He. now rewrite Hall. }
      rewrite filter_app. cbn [filter]. rewrite Hnew. cbn [negb].
      rewrite app_nil_r.
      specialize (Habs dk l (or_introl eq_refl) Hid Hl).
      rewrite (filter_all l (fun e => negb (references cid e))).
      * cbn [option_map]. do 2 f_equal. destruct dk. simpl in *. now subst.
      * intros e He. apply negb_true_iff.
        apply not_true_is_false. intros E.
        assert (existsb (references cid) l = true); [|congruence].
        apply existsb_exists. eauto.
    + rewrite Hid. reflexivity.
Qed.

Lemma toggleCardInDeck_twice_witness :
  exists mid,
    toggleCardInDeck card_atraxa_promo (str "1700000000000")
                     [deck_sample Standard (str "")] = Some mid
    /\ Forall2
         (fun dk dk' =>
            if strict_eq (deck_id dk) (str "1700000000000")
            then exists l,
                deck_cards dk = JArr l
                /\ dk' = with_cards dk (JArr (l ++ [deck_entry (get k_id card_atraxa_promo)]))
            else dk' = dk) [deck_sample Standard (str "")] mid
    /\ toggleCardInDeck card_atraxa_promo (str "1700000000000") mid
       = Some [deck_sample Standard (str "")].
Proof.
  apply (@toggleCardInDeck_twice card_atraxa_promo (str "1700000000000")
           [deck_sample Standard (str "")]); reflexivity.
Defined.

Lemma map_throwing_app {A B} (f : A -> option B) (l : list A) (x : A) :
  map_throwing f (l ++ [x])
  = match map_throwing f l, f x with
    | Some l', Some y => Some (l' ++ [y])
    | _, _ => None
    end.
Proof.
  induction l as [|a r IH]; simpl.
  - now destruct (f x).
  - rewrite IH. destruct (f a); [|reflexivity].
    destruct (map_throwing f r); [|reflexivity]. now destruct (f x).
Qed.

(** an entry whose card the collection does not have is not among the
    cards that [DeckEditor] lists *)
Lemma deckCards_unknown_entry (dk : Deck) (l : list json) (cid : jsval)
      (coll : list Card) :
  deck_cards dk = JArr l -> find_by k_id cid coll = None ->
  deckCards (with_cards dk (JArr (l ++ [deck_entry cid]))) coll = deckCards dk coll.
Proof.
  intros Hl Hf. unfold deckCards. rewrite Hl. cbn [with_cards deck_cards].
  rewrite map_throwing_app. rewrite deck_entry_ref.
  destruct (map_throwing _ l) as [cs|]; [|reflexivity].
  assert (E : member (Some (deck_entry cid)) k_qty = Some (Some (JNum (Int 1)))).
  { destruct cid; reflexivity. }
  rewrite E, Hf. cbn [option_map spread with_deckQty set].
  rewrite filter_app. cbn. now rewrite app_nil_r.
Qed.

Lemma totalCards_from (l : list json) (a : Z) :
  forallb entry_ok l = true ->
  fold_left
    (fun s c =>
       match s, member (Some c) k_qty with
       | Some v, Some q => js_plus (Some v) q
       | _, _ => None
       end) l (Some (JNum (Int a)))
  = Some (JNum (Int (a + fold_right (fun e s => entry_quantity e + s) 0 l)%Z)).
Proof.
  revert a. induction l as [|e r IH]; intros a H.
  - simpl. now rewrite Z.add_0_r.
  - simpl in H. apply andb_prop in H as [He Hr].
    destruct (entry_ok_inv e He) as (o & -> & Ho).
    destruct (card_ok_qty o Ho) as (q & Hg & Hq).
    cbn [fold_left member]. rewrite Hg.
    change (js_plus (Some (JNum (Int a))) (Some (JNum (Int q))))
      with (Some (JNum (Int (a + q)))).
    rewrite IH by assumption. simpl. unfold quantity. rewrite Hg.
    do 3 f_equal. lia.
Qed.

(** X5.  A card that is toggled into a deck without being in the
    collection ("Deck only") is counted by the card count of the deck
    header, but is not among the cards that the deck editor lists. *)
Theorem deck_only_entry_not_listed
        (card : Card) (deckId : jsval) (prev : list Deck) (coll : list Card) :
  forallb deck_ok prev = true ->
  get (js "_editionCards") card = None ->
  forallb (fun dk => negb (strict_eq (deck_id dk) deckId
                           && holds_card (get k_id card) dk)) prev = true ->
  find_by k_id (get k_id card) coll = None ->
  exists next,
    toggleCardInDeck card deckId prev = Some next
    /\ Forall2
         (fun dk dk' =>
            deckCards dk' coll = deckCards dk coll
            /\ (strict_eq (deck_id dk) deckId = true ->
                exists n, totalCards dk = Some (JNum (Int n))
                          /\ totalCards dk' = Some (JNum (Int (n + 1)))))
         prev next.
Proof.
  intros Hok Hed Habs0 Hf. unfold toggleCardInDeck.
  rewrite (editionIds_plain card Hed). set (cid := get k_id card) in *.
  pose proof (not_held cid deckId prev Habs0) as Habs. clear Habs0.
  rewrite toggle_in_absent by assumption. eexists. split; [reflexivity|].
  clear Habs. induction prev as [|dk r IH]; simpl; constructor.
  - simpl in Hok. apply andb_prop in Hok as [Hk _].
    destruct (deck_ok_inv dk Hk) as (l & Hl & Hes).
    destruct (strict_eq (deck_id dk) deckId); [|split; [reflexivity|discriminate]].
    rewrite Hl. split; [now apply deckCards_unknown_entry|]. intros _.
    unfold totalCards. rewrite Hl. cbn [with_cards deck_cards].
    rewrite !totalCards_from.
    + eexists. split; [reflexivity|]. do 3 f_equal.
      rewrite fold_right_app. cbn [fold_right].
      assert (E : entry_quantity (deck_entry cid) = 1%Z) by (destruct cid; reflexivity).
      rewrite E.
      assert (G : forall a,
                 fold_right (fun e s => (entry_quantity e + s)%Z) a l
                 = (fold_right (fun e s => entry_quantity e + s) 0 l + a)%Z).
      { clear. intros a. induction l as [|e r IH]; simpl; lia. }
      rewrite G. lia.
    + rewrite forallb_app, Hes. cbn [forallb andb]. now rewrite entry_ok_entry.
    + assumption.
  - apply IH. simpl in Hok. now apply andb_prop in Hok as [_ Hr].
Qed.

Lemma deck_only_entry_not_listed_witness :
  exists next,
    toggleCardInDeck card_atraxa_promo (str "1700000000000")
                     [deck_sample Standard (str "")] = Some next
    /\ Forall2
         (fun dk dk' =>
            deckCards dk' [card_atraxa; card_bolt] = deckCards dk [card_atraxa; card_bolt]
            /\ (strict_eq (deck_id dk) (str "1700000000000") = true ->
                exists n, totalCards dk = Some (JNum (Int n))
                          /\ totalCards dk' = Some (JNum (Int (n + 1)))))
         [deck_sample Standard (str "")] next.
Proof.
  apply (@deck_only_entry_not_listed card_atraxa_promo (str "1700000000000")
           [deck_sample Standard (str "")] [card_atraxa; card_bolt]); reflexivity.
Defined.

(** ** 8.7 The quantity buttons of a deck *)

Lemma set_set (k : jstr) (v v' : json) (o : obj) :
  set k v (set k v' o) = set k v o.
Proof.
  induction o as [|[k' x] r IH]; simpl.
  - now rewrite jstr_eqb_refl.
  - destruct (jstr_eqb k k') eqn:E; simpl.
    + now rewrite jstr_eqb_refl.
    + now rewrite E, IH.
Qed.

Lemma k_collectionId_not_qty : k_qty <> k_collectionId.
Proof. discriminate. Qed.

Lemma deck_onQty_entries (cardId : jsval) (d : Z) (dk : Deck) (l : list json) :
  deck_cards dk = JArr l -> forallb entry_ok l = true ->
  deck_onQty cardId (Some (JNum (Int d))) dk
  = Some (with_cards dk
            (JArr (flat_map
                     (fun e =>
                        if references cardId e
                        then if (0 <? entry_quantity e + d)%Z
                             then [with_qty (JNum (Int (entry_quantity e + d))) e]
                             else []
                        else [e]) l))).
Proof.
  intros Hl Hes. unfold deck_onQty. rewrite Hl.
  match goal with
  | |- match ?m with _ => _ end = _ =>
    assert (G : exists l1,
               m = Some l1
               /\ filter_throwing
                    (fun c => match member (Some c) k_qty with
                              | Some q => js_positive q
                              | None => None
                              end) l1
                  = Some (flat_map
                            (fun e =>
                               if references cardId e
                               then if (0 <? entry_quantity e + d)%Z
                                    then [with_qty (JNum (Int (entry_quantity e + d))) e]
                                    else []
                               else [e]) l))
  end.
  { clear Hl. induction l as [|e r IH]; [now eexists|].
    simpl in Hes. apply andb_prop in Hes as [He Hr].
    destruct (IH Hr) as (r1 & E1 & E2). clear IH.
    destruct (entry_ok_inv e He) as (o & -> & Ho).
    destruct (card_ok_qty o Ho) as (q & Hg & Hq).
    cbn [map_throwing]. rewrite E1.
    change (member (Some (JObj o)) k_collectionId) with (Some (get k_collectionId o)).
    change (member (Some (JObj o)) k_qty) with (Some (get k_qty o)).
    rewrite Hg. cbn [flat_map entry_quantity].
    change (references cardId (JObj o))
      with (strict_eq (get k_collectionId o) cardId).
    unfold quantity. rewrite Hg.
    destruct (strict_eq (get k_collectionId o) cardId); cbn [negb].
    - change (js_plus (Some (JNum (Int q))) (Some (JNum (Int d))))
        with (Some (JNum (Int (q + d)))).
      cbn [Math_max option_map]. eexists. split; [reflexivity|].
      cbn [filter_throwing]. rewrite E2.
      change (member (Some (with_qty (JNum (Int (Z.max 0 (q + d)))) (JObj o))) k_qty)
        with (Some (get k_qty (set k_qty (JNum (Int (Z.max 0 (q + d)))) o))).
      rewrite get_set_same. cbn [js_positive].
      destruct (Z.ltb_spec 0 (Z.max 0 (q + d))), (Z.ltb_spec 0 (q + d));
        try lia; [|reflexivity].
      cbn [app]. do 5 f_equal. lia.
    - eexists. split; [reflexivity|].
      cbn [filter_throwing]. rewrite E2.
      change (member (Some (JObj o)) k_qty) with (Some (get k_qty o)).
      rewrite Hg. cbn [js_positive].
      destruct (Z.ltb_spec 0 q); [reflexivity|lia]. }
  destruct G as (l1 & -> & ->). reflexivity.
Qed.

(** X6.  The quantity buttons of a deck add their step to the quantity of
    the entries of the card, remove the entries whose quantity would not
    stay above 0, and keep all other entries, in their order. *)
Theorem deck_onQty_rule (cardId : jsval) (d : Z) (dk : Deck) :
  deck_ok dk = true ->
  exists l l',
    deck_cards dk = JArr l
    /\ deck_onQty cardId (Some (JNum (Int d))) dk = Some (with_cards dk (JArr l'))
    /\ l' = flat_map
              (fun e =>
                 if references cardId e
                 then if (0 <? entry_quantity e + d)%Z
                      then [with_qty (JNum (Int (entry_quantity e + d))) e]
                      else []
                 else [e]) l.
Proof.
  intros H. destruct (deck_ok_inv dk H) as (l & Hl & Hes).
  exists l. eexists. split; [assumption|]. split; [|reflexivity].
  now apply deck_onQty_entries.
Qed.

Lemma deck_onQty_rule_witness :
  exists l l',
    deck_cards (deck_sample Standard (str "")) = JArr l
    /\ deck_onQty (str "a1") (Some (JNum (Int (-1)))) (deck_sample Standard (str ""))
       = Some (with_cards (deck_sample Standard (str "")) (JArr l'))
    /\ l' = flat_map
              (fun e =>
                 if references (str "a1") e
                 then if (0 <? entry_quantity e + -1)%Z
                      then [with_qty (JNum (Int (entry_quantity e + -1))) e]
                      else []
                 else [e]) l.
Proof.
  apply (@deck_onQty_rule (str "a1") (-1) (deck_sample Standard (str ""))).
  reflexivity.
Defined.

Lemma find_entry_find (cardId : jsval) (l : list json) :
  forallb entry_ok l = true ->
  find_entry cardId l = Some (find (references cardId) l).
Proof.
  induction l as [|e r IH]; simpl; intros H; [reflexivity|].
  apply andb_prop in H as [He Hr].
  destruct (entry_ok_inv e He) as (o & -> & _). simpl.
  unfold references at 1. simpl.
  destruct (strict_eq (get k_collectionId o) cardId); [reflexivity|auto].
Qed.

Lemma flat_map_id {A} (f : A -> list A) (l : list A) :
  (forall x, In x l -> f x = [x]) -> flat_map f l = l.
Proof.
  induction l as [|x r IH]; simpl; intros H; [reflexivity|].
  rewrite (H x) by now left. simpl. f_equal. apply IH. intros; apply H; now right.
Qed.

(** X7.  The "+" of a deck raises the quantity of the entries of the card
    by one, or appends an entry of quantity 1 when the deck has none; the
    "-" after it gives back exactly the deck from before. *)
Theorem deck_onAdd_then_minus (cardId : jsval) (dk : Deck) :
  deck_ok dk = true -> strict_eq cardId cardId = true ->
  exists dk1 l l1,
    deck_onAdd cardId dk = Some dk1
    /\ deck_cards dk = JArr l /\ deck_cards dk1 = JArr l1
    /\ (if holds_card cardId dk
        then l1 = map (fun e => if references cardId e
                                then with_qty (JNum (Int (entry_quantity e + 1))) e
                                else e) l
        else l1 = l ++ [deck_entry cardId])
    /\ deck_onQty cardId (Some (JNum (Int (-1)))) dk1 = Some dk.
Proof.
  intros H Hprim. destruct (deck_ok_inv dk H) as (l & Hl & Hes).
  pose proof (fun l' => @deck_onQty_entries cardId (-1) (with_cards dk (JArr l'))
                                            l' eq_refl) as Hminus.
  unfold deck_onAdd, holds_card. rewrite Hl.
  rewrite find_entry_find by assumption.
  destruct (existsb (references cardId) l) eqn:Hex.
  - destruct (find_exists _ _ Hex) as (e & Hfind). rewrite Hfind.
    assert (He : entry_ok e = true).
    { apply find_some in Hfind as [Hin _]. rewrite forallb_forall in Hes. auto. }
    destruct (entry_ok_inv e He) as (o & -> & _). cbn [truthy_val truthy].
    rewrite (map_throwing_map _
               (fun e => if references cardId e
                         then with_qty (JNum (Int (entry_quantity e + 1))) e
                         else e)).
    2:{ intros c Hc. rewrite forallb_forall in Hes.
        destruct (entry_ok_inv c (Hes c Hc)) as (o' & -> & Ho').
        destruct (card_ok_qty o' Ho') as (q & Hg & Hq).
        cbn [member references entry_quantity]. unfold quantity. rewrite Hg.
        destruct (strict_eq (get k_collectionId o') cardId); reflexivity. }
    cbn [option_map]. eexists _, l, _. split; [reflexivity|].
    split; [reflexivity|]. split; [reflexivity|]. split; [reflexivity|].
    rewrite Hminus.
    + f_equal. transitivity (with_cards dk (JArr l)); [|now apply with_cards_same].
      unfold with_cards. cbn [deck_id deck_name deck_format deck_commander].
      do 2 f_equal.
      rewrite flat_map_concat_map, map_map, <- flat_map_concat_map.
      apply flat_map_id. intros c Hc. rewrite forallb_forall in Hes.
      destruct (entry_ok_inv c (Hes c Hc)) as (o' & -> & Ho').
      destruct (card_ok_qty o' Ho') as (q & Hg & Hq).
      cbn [references member].
      destruct (strict_eq (get k_collectionId o') cardId) eqn:Hm.
      * cbn [with_qty spread references member].
        rewrite get_set_other by exact k_collectionId_not_qty. rewrite Hm.
        cbn [entry_quantity with_qty spread]. unfold quantity.
        rewrite get_set_same, Hg.
        destruct (Z.ltb_spec 0 (q + 1 + -1)); [|lia].
        unfold with_qty, spread. rewrite set_set. replace (q + 1 + -1)%Z with q by lia.
        now rewrite (set_same _ _ Hg).
      * cbn [references member]. now rewrite Hm.
    + apply forallb_map_id; [assumption|]. intros c Hc.
      destruct (entry_ok_inv c Hc) as (o' & -> & Ho').
      destruct (references cardId (JObj o')); [|assumption].
      destruct (card_ok_qty o' Ho') as (q & Hg & Hq).
      cbn. apply card_ok_set. unfold quantity. rewrite Hg. lia.
  - rewrite (find_all_false (references cardId) l).
    2:{ intros x Hx. apply not_true_is_false. intros E.
        assert (existsb (references cardId) l = true); [|congruence].
        apply existsb_exists. eauto. }
    cbn [truthy_val]. eexists _, l, _. split; [reflexivity|].
    split; [reflexivity|]. split; [reflexivity|]. split; [reflexivity|].
    rewrite Hminus.
    + f_equal. transitivity (with_cards dk (JArr l)); [|now apply with_cards_same].
      unfold with_cards. cbn [deck_id deck_name deck_format deck_commander].
      do 2 f_equal.
      rewrite flat_map_app. cbn [flat_map].
      assert (Hnew : references cardId (deck_entry cardId) = true).
      { unfold references. now rewrite deck_entry_ref. }
      rewrite Hnew.
      assert (E : entry_quantity (deck_entry cardId) = 1%Z)
        by (destruct cardId; reflexivity).
      rewrite E. cbn. rewrite app_nil_r.
      apply flat_map_id. intros c Hc.
      assert (Hc' : references cardId c = false).
      { apply not_true_is_false. intros E'.
        assert (existsb (references cardId) l = true); [|congruence].
        apply existsb_exists. eauto. }
      now rewrite Hc'.
    + rewrite forallb_app, Hes. cbn [forallb andb]. now rewrite entry_ok_entry.
Qed.

Lemma deck_onAdd_then_minus_witness :
  exists dk1 l l1,
    deck_onAdd (str "a1") (deck_sample Standard (str "")) = Some dk1
    /\ deck_cards (deck_sample Standard (str "")) = JArr l
    /\ deck_cards dk1 = JArr l1
    /\ (if holds_card (str "a1") (deck_sample Standard (str ""))
        then l1 = map (fun e => if references (str "a1") e
                                then with_qty (JNum (Int (entry_quantity e + 1))) e
                                else e) l
        else l1 = l ++ [deck_entry (str "a1")])
    /\ deck_onQty (str "a1") (Some (JNum (Int (-1)))) dk1
       = Some (deck_sample Standard (str "")).
Proof.
  apply (@deck_onAdd_then_minus (str "a1") (deck_sample Standard (str "")));
    reflexivity.
Defined.

(** ** 8.8 [createDeck] *)

(** X8.  [createDeck] does nothing when the name is empty or white space.
    Otherwise it appends one deck: named by the trimmed text, identified
    by the time, Standard, empty, without a commander; the new deck is the
    active one, and it is read back unchanged from the row that
    [deckToRow] writes for it, whatever the collection. *)
Theorem createDeck_roundtrip
        (now : Z) (tab : DecksTabState) (d : list Deck) (coll : list Card) :
  (nonempty (trim (newDeckName tab)) = false -> createDeck now tab d = (tab, d))
  /\ (nonempty (trim (newDeckName tab)) = true ->
      exists deck,
        createDeck now tab d
        = (mkDecksTab (JStr (number_to_string (Int now))) [], d ++ [deck])
        /\ deck_id deck = Some (JStr (number_to_string (Int now)))
        /\ deck_name deck = Some (JStr (trim (newDeckName tab)))
        /\ deck_format deck = Standard
        /\ deck_commander deck = Some (JStr [])
        /\ deck_cards deck = JArr []
        /\ rowToDeck (deckToRow deck coll) coll = Some deck).
Proof.
  unfold createDeck. split; intros ->; [reflexivity|].
  eexists. split; [reflexivity|]. repeat (split; [reflexivity|]).
  apply rowToDeck_deckToRow; [reflexivity|reflexivity|now left].
Qed.

Lemma createDeck_roundtrip_witness :
  (nonempty (trim (newDeckName (mkDecksTab JNull (js "  Superfriends ")))) = false ->
   createDeck 1700000000000 (mkDecksTab JNull (js "  Superfriends ")) []
   = (mkDecksTab JNull (js "  Superfriends "), []))
  /\ (exists deck,
         createDeck 1700000000000 (mkDecksTab JNull (js "  Superfriends ")) []
         = (mkDecksTab (JStr (number_to_string (Int 1700000000000))) [], [] ++ [deck])
         /\ deck_id deck = Some (JStr (number_to_string (Int 1700000000000)))
         /\ deck_name deck = Some (JStr (trim (newDeckName (mkDecksTab JNull (js "  Superfriends ")))))
         /\ deck_format deck = Standard
         /\ deck_commander deck = Some (JStr [])
         /\ deck_cards deck = JArr []
         /\ rowToDeck (deckToRow deck [card_atraxa]) [card_atraxa] = Some deck).
Proof.
  destruct (@createDeck_roundtrip 1700000000000
              (mkDecksTab JNull (js "  Superfriends ")) [] [card_atraxa])
    as [H1 H2].
  split; [exact H1|]. apply H2. reflexivity.
Defined.


(** ** 8.9 Saving and loading *)

Lemma map_filter_map {A B} (f : A -> option B) (g : B -> A) (l : list B) :
  Forall (fun x => f (g x) = Some x) l -> map_filter f (map g l) = l.
Proof.
  induction 1 as [|x r Hx Hr IH]; simpl; [reflexivity|]. now rewrite Hx, IH.
Qed.

Lemma send_all_done (respond : request -> option jstr) (reqs : list request) :
  (forall r, In r reqs -> respond r = None) ->
  send_all respond reqs = (reqs, None).
Proof.
  induction reqs as [|r rest IH]; simpl; intros H; [reflexivity|].
  rewrite (H r) by now left. rewrite IH by (intros; apply H; now right).
  reflexivity.
Qed.

Lemma firstn_all_le {A} (n : nat) (l : list A) :
  (length l <= n)%nat -> firstn n l = l.
Proof. intros H. now apply firstn_all2. Qed.

(** X9.  When the session has a token and every request succeeds,
    [saveToSheets] ends idle, and a load from the sheet it wrote, by an
    ideal sheet that gives the rows back as written, restores the
    collection and the decks that were saved: up to 999 valid cards and up
    to 999 decks whose format is set and whose commander the collection
    resolves. *)
Theorem save_then_load
        (respond : request -> option jstr) (saved_at : jstr) (now : Z)
        (col : list Card) (dks : list Deck) (st st0 : AppState)
        (s s' : Storage) (token : jstr) (decks_first : bool) :
  Forall valid_card col -> Forall (valid_deck col) dks ->
  (length col <= 999)%nat -> (length dks <= 999)%nat ->
  requestToken now s = (Some token, s') ->
  (forall r, respond r = None) ->
  let r := saveToSheets_run true respond saved_at now col dks st s in
  let st' :=
      loadFromSheets
        (Rows (rows_after (js "Collection!A2:H1000") (js "Collection!A2")
                          (save_sent r)))
        (Rows (rows_after (js "Decks!A2:E1000") (js "Decks!A2") (save_sent r)))
        decks_first st0 in
  syncStatus (save_state r) = idle
  /\ save_redirected r = false
  /\ collection st' = col /\ decks st' = dks /\ syncStatus st' = idle.
Proof.
  intros Hcol Hdks Lc Ld Htok Hok r st'. subst st' r.
  unfold saveToSheets_run. cbn [negb]. rewrite Htok.
  rewrite send_all_done by (intros; apply Hok).
  cbn [save_state save_sent save_redirected syncStatus].
  split; [reflexivity|]. split; [reflexivity|].
  assert (Ec : rows_after (js "Collection!A2:H1000") (js "Collection!A2")
                          (save_requests col dks token) = map cardToRow col).
  { unfold rows_after, save_requests.
    destruct col as [|c col'], dks as [|d dks']; cbn [app fold_left];
      rewrite ?jstr_eqb_refl;
      change (jstr_eqb (js "Decks!A2:E1000") (js "Collection!A2:H1000")) with false;
      change (jstr_eqb (js "Decks!A2") (js "Collection!A2")) with false;
      cbv beta iota; apply firstn_all_le; rewrite ?length_map; simpl in *; lia. }
  assert (Ed : rows_after (js "Decks!A2:E1000") (js "Decks!A2")
                          (save_requests col dks token)
               = map (fun dk => deckToRow dk col) dks).
  { unfold rows_after, save_requests.
    destruct col as [|c col'], dks as [|d dks']; cbn [app fold_left];
      rewrite ?jstr_eqb_refl;
      change (jstr_eqb (js "Collection!A2:H1000") (js "Decks!A2:E1000")) with false;
      change (jstr_eqb (js "Collection!A2") (js "Decks!A2")) with false;
      cbv beta iota; apply firstn_all_le; rewrite ?length_map; simpl in *; lia. }
  rewrite Ec, Ed. unfold loadFromSheets. cbn [Promise_all].
  assert (Hc : map_filter rowToCard (map cardToRow col) = col).
  { apply map_filter_map. eapply Forall_impl; [|exact Hcol].
    intros c Hc. now apply rowToCard_cardToRow. }
  rewrite Hc. cbn [collection decks syncStatus].
  split; [reflexivity|]. split; [|reflexivity].
  apply (map_filter_map (fun r => rowToDeck r col) (fun dk => deckToRow dk col)).
  eapply Forall_impl; [|exact Hdks].
  intros d (H1 & H2 & H3). now apply rowToDeck_deckToRow.
Qed.

Lemma save_then_load_witness :
  let col := [set k_qty (JNum (Int 3)) card_atraxa;
              set k_qty (JNum (Int 1)) card_bolt] in
  let dks := [deck_sample Commander (str "a1")] in
  let s := storeToken 1699999999000 (js "ya29.token") 3600 [] in
  let r := saveToSheets_run true (fun _ => None) (js "10:00:00") 1700000000000
                            col dks (mkApp col dks idle []) s in
  let st' :=
      loadFromSheets
        (Rows (rows_after (js "Collection!A2:H1000") (js "Collection!A2")
                          (save_sent r)))
        (Rows (rows_after (js "Decks!A2:E1000") (js "Decks!A2") (save_sent r)))
        false (mkApp [] [] idle []) in
  syncStatus (save_state r) = idle
  /\ save_redirected r = false
  /\ collection st' = col /\ decks st' = dks /\ syncStatus st' = idle.
Proof.
  intros col dks s.
  apply (@save_then_load (fun _ => None) (js "10:00:00") 1700000000000 col dks
           (mkApp col dks idle []) (mkApp [] [] idle []) s s (js "ya29.token") false).
  - constructor; [|constructor; [|constructor]]; (split; [reflexivity|]).
    + exists 3%Z. split; [lia|]. split; reflexivity.
    + exists 1%Z. split; [lia|]. split; reflexivity.
  - constructor; [|constructor]. split; [reflexivity|]. split; [reflexivity|]. right.
    exists (JStr (js "a1")), (set k_qty (JNum (Int 3)) card_atraxa),
      (JStr (js "Atraxa")), (set k_qty (JNum (Int 3)) card_atraxa).
    repeat split.
  - simpl; lia.
  - simpl; lia.
  - reflexivity.
  - reflexivity.
Defined.

(** ** 8.10 The stored token *)

Lemma getItem_setItem_same (k v : jstr) (s : Storage) :
  getItem k (setItem k v s) = Some v.
Proof.
  induction s as [|[k' v'] r IH]; simpl.
  - now rewrite jstr_eqb_refl.
  - destruct (jstr_eqb k k') eqn:E; simpl; [now rewrite jstr_eqb_refl|].
    now rewrite E.
Qed.

Lemma getItem_setItem_other (k k' v : jstr) (s : Storage) :
  k <> k' -> getItem k' (setItem k v s) = getItem k' s.
Proof.
  intros H. induction s as [|[k2 v2] r IH]; simpl.
  - apply jstr_eqb_neq in H. destruct (jstr_eqb k' k) eqn:E; [|reflexivity].
    apply jstr_eqb_eq in E. subst. now rewrite jstr_eqb_refl in H.
  - destruct (jstr_eqb k k2) eqn:E; simpl.
    + apply jstr_eqb_eq in E. subst k2.
      destruct (jstr_eqb k' k) eqn:E'; [|reflexivity].
      apply jstr_eqb_eq in E'. congruence.
    + now rewrite IH.
Qed.

Lemma getItem_removeItem_same (k : jstr) (s : Storage) :
  getItem k (removeItem k s) = None.
Proof.
  induction s as [|[k' v'] r IH]; simpl; [reflexivity|].
  destruct (jstr_eqb k k') eqn:E; simpl; [assumption|]. now rewrite E.
Qed.

Lemma getItem_removeItem_other (k k' : jstr) (s : Storage) :
  k <> k' -> getItem k' (removeItem k s) = getItem k' s.
Proof.
  intros H. induction s as [|[k2 v2] r IH]; simpl; [reflexivity|].
  destruct (jstr_eqb k k2) eqn:E; simpl.
  - apply jstr_eqb_eq in E. subst k2.
    destruct (jstr_eqb k' k) eqn:E'; [|assumption].
    apply jstr_eqb_eq in E'. congruence.
  - now rewrite IH.
Qed.

Lemma token_key_not_expiry : OAUTH_EXPIRY_KEY <> OAUTH_TOKEN_KEY.
Proof. discriminate. Qed.

Lemma digits_nonempty_string (n : N) : nonempty (digits n) = true.
Proof.
  pose proof (digits_nonempty n). now destruct (digits n).
Qed.

(** X10.  A token stored with [storeToken] is given back by
    [getStoredToken] up to the millisecond of its expiry; at the first
    call after that, both entries are removed from the storage, and no
    token is given any more, at whatever time, until one is stored
    again.  The other entries of the storage are not touched. *)
Theorem stored_token_expiry
        (now now' : Z) (token : jstr) (expiresIn : Z) (s : Storage) :
  token <> [] ->
  (0 < now + expiresIn * 1000 < 10 ^ 21)%Z ->
  let s1 := storeToken now token expiresIn s in
  ((now' <= now + expiresIn * 1000)%Z -> getStoredToken now' s1 = (Some token, s1))
  /\ ((now + expiresIn * 1000 < now')%Z ->
      exists s2,
        getStoredToken now' s1 = (None, s2)
        /\ (forall t, getStoredToken t s2 = (None, s2))
        /\ (forall k, k <> OAUTH_TOKEN_KEY -> k <> OAUTH_EXPIRY_KEY ->
                      getItem k s2 = getItem k s)).
Proof.
  intros Htok Hexp s1.
  assert (Ht : getItem OAUTH_TOKEN_KEY s1 = Some token).
  { unfold s1, storeToken.
    rewrite getItem_setItem_other by exact token_key_not_expiry.
    apply getItem_setItem_same. }
  assert (He : getItem OAUTH_EXPIRY_KEY s1
               = Some (digits (Z.to_N (now + expiresIn * 1000)))).
  { unfold s1, storeToken. rewrite getItem_setItem_same.
    rewrite number_to_string_plain by lia.
    destruct (Z.ltb_spec (now + expiresIn * 1000) 0); [lia|].
    now rewrite Z.abs_eq by lia. }
  assert (Hp : parseInt (digits (Z.to_N (now + expiresIn * 1000)))
               = Some (now + expiresIn * 1000)%Z).
  { rewrite parseInt_digits by lia. f_equal. lia. }
  assert (Hn : nonempty token = true) by now destruct token.
  unfold getStoredToken. rewrite Ht, He, Hn, digits_nonempty_string, Hp.
  cbn [negb orb]. split.
  - intros H. destruct (Z.ltb_spec (now + expiresIn * 1000) now'); [lia|].
    reflexivity.
  - intros H. destruct (Z.ltb_spec (now + expiresIn * 1000) now'); [|lia].
    eexists. split; [reflexivity|]. split.
    + intros t.
      rewrite getItem_removeItem_other by exact token_key_not_expiry.
      now rewrite getItem_removeItem_same.
    + intros k Hk1 Hk2.
      rewrite getItem_removeItem_other by congruence.
      rewrite getItem_removeItem_other by congruence.
      unfold s1, storeToken.
      rewrite getItem_setItem_other by congruence.
      now rewrite getItem_setItem_other by congruence.
Qed.

Lemma stored_token_expiry_witness :
  let s1 := storeToken 1700000000000 (js "ya29.token") 3600
                       [(PENDING_SAVE_KEY, js "1")] in
  getStoredToken 1700003600000 s1 = (Some (js "ya29.token"), s1)
  /\ exists s2,
      getStoredToken 1700003600001 s1 = (None, s2)
      /\ (forall t, getStoredToken t s2 = (None, s2))
      /\ (forall k, k <> OAUTH_TOKEN_KEY -> k <> OAUTH_EXPIRY_KEY ->
                    getItem k s2 = getItem k [(PENDING_SAVE_KEY, js "1")]).
Proof.
  assert (N : js "ya29.token" <> []) by discriminate.
  assert (B : (0 < 1700000000000 + 3600 * 1000 < 10 ^ 21)%Z) by lia.
  split.
  - apply (proj1 (@stored_token_expiry 1700000000000 1700003600000
                    (js "ya29.token") 3600 [(PENDING_SAVE_KEY, js "1")] N B)).
    lia.
  - apply (proj2 (@stored_token_expiry 1700000000000 1700003600001
                    (js "ya29.token") 3600 [(PENDING_SAVE_KEY, js "1")] N B)).
    lia.
Defined.

(** ** 8.11 A save that fails *)

Lemma send_all_spec (respond : request -> option jstr) (reqs : list request) :
  exists rest,
    reqs = fst (send_all respond reqs) ++ rest
    /\ match snd (send_all respond reqs) with
       | None =>
         rest = [] /\ forall q, In q (fst (send_all respond reqs)) -> respond q = None
       | Some m =>
         exists pre q,
         fst (send_all respond reqs) = pre ++ [q]
         /\ respond q = Some m /\ forall x, In x pre -> respond x = None
       end.
Proof.
  induction reqs as [|r rest IH]; simpl.
  - exists []. split; [reflexivity|]. split; [reflexivity|]. intros q [].
  - destruct (respond r) as [m|] eqn:Hr; simpl.
    + exists rest. split; [reflexivity|]. exists [], r. repeat split; auto.
      intros x [].
    + destruct IH as (rest' & E & H).
      destruct (send_all respond rest) as [sent e]. simpl in *.
      exists rest'. split; [now rewrite E at 1|].
      destruct e as [m|].
      * destruct H as (pre & q & -> & Hq & Hpre).
        exists (r :: pre), q. repeat split; auto.
        intros x [<-|Hx]; auto.
      * destruct H as [-> H]. split; [reflexivity|].
        intros q [<-|Hq]; auto.
Qed.

(** X11.  [saveToSheets] never changes the collection or the decks in
    memory and never writes an empty list of rows.  It sends nothing when
    the sheet is not configured or the session has no valid token.
    Otherwise it sends clear, write, clear, write, in this order and
    without the writes of an empty collection or of no decks, stops at
    the first request that fails, and ends idle when none failed and with
    the error and its message otherwise. *)
Theorem saveToSheets_stops_at_failure
        (isConfigured : bool) (respond : request -> option jstr) (saved_at : jstr)
        (now : Z) (col : list Card) (dks : list Deck) (st : AppState) (s : Storage) :
  let r := saveToSheets_run isConfigured respond saved_at now col dks st s in
  collection (save_state r) = collection st
  /\ decks (save_state r) = decks st
  /\ (forall range values token,
         In (Update range values token) (save_sent r) -> values <> [])
  /\ match (if isConfigured then fst (requestToken now s) else None) with
     | None => save_sent r = []
     | Some token =>
       exists rest,
       save_requests col dks token = save_sent r ++ rest
       /\ ((rest = [] /\ (forall q, In q (save_sent r) -> respond q = None)
            /\ syncStatus (save_state r) = idle)
           \/ (exists pre q m,
                  save_sent r = pre ++ [q]
                  /\ (forall x, In x pre -> respond x = None)
                  /\ respond q = Some m
                  /\ syncStatus (save_state r) = error
                  /\ syncMsg (save_state r) = js "Save failed: " ++ m))
     end.
Proof.
  intros r. subst r. unfold saveToSheets_run.
  destruct isConfigured; cbn [negb];
    [|repeat split; try reflexivity; intros ? ? ? []].
  destruct (requestToken now s) as [[token|] s'] eqn:Htok; cbn [fst];
    [|repeat split; try reflexivity; intros ? ? ? []].
  destruct (send_all_spec respond (save_requests col dks token))
    as (rest & E & H).
  destruct (send_all respond (save_requests col dks token)) as [sent e].
  cbn [fst snd] in *. cbn [save_state save_sent].
  split; [now destruct e|]. split; [now destruct e|]. split.
  - intros range values tk Hin.
    assert (Hin' : In (Update range values tk) (save_requests col dks token)).
    { rewrite E. apply in_or_app. now left. }
    unfold save_requests in Hin'.
    destruct col as [|c col'], dks as [|d dks']; simpl in Hin';
      repeat (destruct Hin' as [Hin'|Hin']; try discriminate; try contradiction);
      injection Hin' as _ <- _; discriminate.
  - exists rest. split; [exact E|]. destruct e as [m|].
    + right. destruct H as (pre & q & -> & Hq & Hpre).
      exists pre, q, m. repeat split; auto.
    + left. destruct H as [-> H]. repeat split; auto.
Qed.


(** ** 8.12 The unique-names view *)

Lemma primitive_refl_eq (a b : jsval) :
  primitive a = true -> a = b -> strict_eq a b = true.
Proof. intros H <-. exact H. Qed.

Lemma existsb_first_names (x : jsval) (l : list jsval) :
  existsb (fun y => strict_eq y x) (first_names l)
  = existsb (fun y => strict_eq y x) l.
Proof.
  induction l as [|n r IH]; simpl; [reflexivity|].
  rewrite <- IH. clear IH. destruct (strict_eq n x) eqn:E; [reflexivity|]. simpl.
  induction (first_names r) as [|m ms IHm]; simpl; [reflexivity|].
  destruct (strict_eq m n) eqn:Emn; simpl.
  - apply strict_eq_true in Emn. subst m. now rewrite E.
  - now rewrite IHm.
Qed.

Lemma first_names_snoc (l : list jsval) (x : jsval) :
  first_names (l ++ [x])
  = if existsb (fun y => strict_eq y x) l then first_names l
    else first_names l ++ [x].
Proof.
  induction l as [|n r IH]; simpl; [reflexivity|].
  rewrite IH. destruct (strict_eq n x) eqn:E; simpl.
  - pose proof (strict_eq_true _ _ E) as E'. subst n.
    destruct (existsb (fun y => strict_eq y x) r); [reflexivity|].
    rewrite filter_app. simpl. rewrite E. simpl. now rewrite app_nil_r.
  - destruct (existsb (fun y => strict_eq y x) r); [reflexivity|].
    rewrite filter_app. simpl. rewrite strict_eq_sym, E. reflexivity.
Qed.

Lemma set_swap (k k' : jstr) (v v' x : json) (o : obj) :
  k <> k' -> get k o = Some x ->
  set k v (set k' v' o) = set k' v' (set k v o).
Proof.
  intros Hk. induction o as [|[k2 v2] r IH]; [discriminate|].
  cbn [get set].
  destruct (jstr_eqb k k2) eqn:E, (jstr_eqb k' k2) eqn:E2; cbn [set].
  - apply jstr_eqb_eq in E, E2. congruence.
  - intros _. rewrite E.
    assert (E' : jstr_eqb k' k = false).
    { apply jstr_eqb_neq. congruence. }
    now rewrite E'.
  - intros _.
    assert (E' : jstr_eqb k k' = false) by now apply jstr_eqb_neq.
    now rewrite E', E2.
  - intros H. rewrite E, E2. f_equal. now apply IH.
Qed.

Lemma totalQty_not_editions : k_editions <> k_totalQty.
Proof. discriminate. Qed.

Lemma totalQty_not_editionCards : k_editionCards <> k_totalQty.
Proof. discriminate. Qed.

Lemma editions_not_editionCards : k_editionCards <> k_editions.
Proof. discriminate. Qed.

Lemma edition_row_fields (c1 : Card) (rest : list Card) :
  let eds := c1 :: rest in
  get k_totalQty (edition_row eds) = Some (JNum (Int (sum_quantities eds)))
  /\ get k_editions (edition_row eds)
     = Some (JNum (Int (Z.of_nat (length eds))))
  /\ get k_editionCards (edition_row eds) = Some (JArr (map JObj eds))
  /\ forall k, k <> k_totalQty -> k <> k_editions -> k <> k_editionCards ->
               get k (edition_row eds) = get k c1.
Proof.
  intros eds. unfold edition_row. subst eds. repeat split.
  - rewrite get_set_other by exact totalQty_not_editionCards.
    rewrite get_set_other by exact totalQty_not_editions.
    apply get_set_same.
  - rewrite get_set_other by exact editions_not_editionCards.
    apply get_set_same.
  - apply get_set_same.
  - intros k H1 H2 H3. now rewrite !get_set_other by congruence.
Qed.

Lemma next_edition_row (eds : list Card) (c : Card) :
  eds <> [] -> card_ok c = true ->
  next_edition (edition_row eds) c = Some (edition_row (eds ++ [c])).
Proof.
  intros Hne Hc. destruct eds as [|c1 rest]; [congruence|]. clear Hne.
  destruct (card_ok_qty c Hc) as (q & Hg & Hq).
  destruct (edition_row_fields c1 rest) as (F1 & F2 & F3 & _).
  unfold next_edition. rewrite F1, (quantity_truthy c Hg Hq).
  change (js_plus (Some (JNum (Int (sum_quantities (c1 :: rest)))))
                  (Some (JNum (Int q))))
    with (Some (JNum (Int (sum_quantities (c1 :: rest) + q)))).
  cbv beta iota zeta.
  set (t := JNum (Int (sum_quantities (c1 :: rest) + q))).
  assert (E1 : set k_totalQty t (edition_row (c1 :: rest))
               = set k_editionCards (JArr (map JObj (c1 :: rest)))
                     (set k_editions (JNum (Int (Z.of_nat (length (c1 :: rest)))))
                          (set k_totalQty t c1))).
  { unfold edition_row.
    rewrite (@set_swap k_totalQty k_editionCards _ _
                       (JNum (Int (sum_quantities (c1 :: rest))))).
    2:{ intros E. symmetry in E. exact (totalQty_not_editionCards E). }
    2:{ rewrite get_set_other by exact totalQty_not_editions.
        apply get_set_same. }
    rewrite (@set_swap k_totalQty k_editions _ _
                       (JNum (Int (sum_quantities (c1 :: rest))))).
    2:{ intros E. symmetry in E. exact (totalQty_not_editions E). }
    2:{ apply get_set_same. }
    now rewrite set_set. }
  rewrite E1. rewrite get_set_other by exact editions_not_editionCards.
  rewrite get_set_same.
  change (js_plus (Some (JNum (Int (Z.of_nat (length (c1 :: rest))))))
                  (Some (JNum (Int 1))))
    with (Some (JNum (Int (Z.of_nat (length (c1 :: rest)) + 1)))).
  cbv beta iota.
  set (n := JNum (Int (Z.of_nat (length (c1 :: rest)) + 1))).
  assert (E2 : set k_editions n
                   (set k_editionCards (JArr (map JObj (c1 :: rest)))
                        (set k_editions (JNum (Int (Z.of_nat (length (c1 :: rest)))))
                             (set k_totalQty t c1)))
               = set k_editionCards (JArr (map JObj (c1 :: rest)))
                     (set k_editions n (set k_totalQty t c1))).
  { rewrite (@set_swap k_editions k_editionCards _ _
                       (JNum (Int (Z.of_nat (length (c1 :: rest)))))).
    2:{ intros E. symmetry in E. exact (editions_not_editionCards E). }
    2:{ apply get_set_same. }
    now rewrite set_set. }
  rewrite E2, get_set_same, set_set.
  unfold edition_row. cbn [app]. subst t n.
  change (c1 :: rest ++ [c]) with ((c1 :: rest) ++ [c]).
  assert (S : sum_quantities [c] = q).
  { unfold sum_quantities. cbn [fold_right]. unfold quantity. rewrite Hg. lia. }
  rewrite map_app, length_app, sum_quantities_app, S. cbn [map length].
  now rewrite Nat2Z.inj_add.
Qed.

Lemma first_edition_row (c : Card) :
  card_ok c = true -> first_edition c = edition_row [c].
Proof.
  intros Hc. destruct (card_ok_qty c Hc) as (q & Hg & Hq).
  unfold first_edition, edition_row. rewrite (quantity_truthy c Hg Hq).
  simpl. unfold quantity. rewrite Hg. now rewrite Z.add_0_r.
Qed.

Lemma first_names_incl (l : list jsval) (n : jsval) :
  In n (first_names l) -> In n l.
Proof.
  induction l as [|m r IH]; simpl; [easy|].
  intros [->|H]; [now left|]. right. apply IH.
  now apply filter_In in H as [H _].
Qed.

Lemma ForallOrdPairs_filter {A} (R : A -> A -> Prop) (p : A -> bool) (l : list A) :
  ForallOrdPairs R l -> ForallOrdPairs R (filter p l).
Proof.
  induction 1 as [|x r Hx Hr IH]; simpl; [constructor|].
  destruct (p x); [|assumption]. constructor; [|assumption].
  rewrite Forall_forall in *. intros y Hy. apply Hx.
  now apply filter_In in Hy as [Hy _].
Qed.

Lemma first_names_distinct (l : list jsval) :
  ForallOrdPairs (fun a b => strict_eq b a = false) (first_names l).
Proof.
  induction l as [|n r IH]; simpl; constructor.
  - apply Forall_forall. intros m Hm. apply filter_In in Hm as [_ Hm].
    now apply negb_true_iff in Hm.
  - now apply ForallOrdPairs_filter.
Qed.

Lemma filter_named_snoc (n : jsval) (cards : list Card) (c : Card) :
  filter (named_like n) (cards ++ [c])
  = filter (named_like n) cards ++ (if strict_eq (get k_name c) n then [c] else []).
Proof. rewrite filter_app. reflexivity. Qed.

Lemma filter_named_none (n : jsval) (l : list Card) :
  existsb (fun y => strict_eq y n) (map (get k_name) l) = false ->
  filter (named_like n) l = [].
Proof.
  induction l as [|c r IH]; simpl; [reflexivity|].
  intros H. apply orb_false_iff in H as [H0 Hr].
  unfold named_like at 1. rewrite H0. now apply IH.
Qed.

Lemma byName_add_map (cards : list Card) (c : Card) (ns : list jsval) :
  card_ok c = true -> primitive (get k_name c) = true ->
  (forall n, In n ns -> filter (named_like n) cards <> []) ->
  ForallOrdPairs (fun a b => strict_eq b a = false) ns ->
  (existsb (fun y => strict_eq y (get k_name c)) ns = false ->
   filter (named_like (get k_name c)) cards = []) ->
  byName_add c (map (fun n => (n, edition_row (filter (named_like n) cards))) ns)
  = Some (map (fun n => (n, edition_row (filter (named_like n) (cards ++ [c]))))
              (if existsb (fun y => strict_eq y (get k_name c)) ns then ns
               else ns ++ [get k_name c])).
Proof.
  intros Hc Hp Hne Hd Hnew. induction ns as [|n r IH].
  - simpl. rewrite filter_named_snoc, Hnew by reflexivity.
    unfold primitive in Hp. rewrite Hp. simpl. now rewrite first_edition_row.
  - inversion Hd as [|? ? Hn Hr]; subst. cbn [map byName_add existsb].
    destruct (strict_eq n (get k_name c)) eqn:E.
    + cbn [orb]. rewrite next_edition_row by (auto; apply Hne; now left).
      cbn [option_map map]. f_equal. f_equal.
      * rewrite filter_named_snoc. now rewrite strict_eq_sym, E.
      * apply map_ext_in. intros m Hm. rewrite filter_named_snoc.
        apply strict_eq_true in E. subst n.
        rewrite Forall_forall in Hn. specialize (Hn m Hm).
        rewrite strict_eq_sym, Hn. now rewrite app_nil_r.
    + cbn [orb]. rewrite IH; auto.
      * cbn [option_map]. f_equal.
        destruct (existsb (fun y => strict_eq y (get k_name c)) r);
          cbn [map app]; f_equal; f_equal;
            rewrite filter_named_snoc, strict_eq_sym, E; now rewrite app_nil_r.
      * intros m Hm. apply Hne. now right.
      * intros H. apply Hnew. simpl. now rewrite E.
Qed.

Lemma byName_rows (cards : list Card) :
  forallb card_ok cards = true ->
  forallb (fun c => primitive (get k_name c)) cards = true ->
  byName cards
  = Some (map (fun n => (n, edition_row (filter (named_like n) cards)))
              (first_names (map (get k_name) cards))).
Proof.
  induction cards as [|c l IH] using rev_ind; intros Hok Hprim; [reflexivity|].
  rewrite forallb_app in Hok, Hprim. simpl in Hok, Hprim.
  apply andb_prop in Hok as [Hok Hc]. apply andb_prop in Hprim as [Hprim Hp].
  rewrite andb_true_r in Hc, Hp.
  unfold byName in *. rewrite fold_left_app. cbn [fold_left].
  rewrite IH by assumption. rewrite byName_add_map; auto.
  - do 2 f_equal. rewrite map_app. cbn [map].
    now rewrite first_names_snoc, existsb_first_names.
  - intros n Hn. apply first_names_incl in Hn.
    apply in_map_iff in Hn as (c0 & <- & Hc0).
    assert (In c0 (filter (named_like (get k_name c0)) l)).
    { apply filter_In. split; [assumption|]. rewrite forallb_forall in Hprim.
      exact (Hprim c0 Hc0). }
    intros E. rewrite E in *. contradiction.
  - apply first_names_distinct.
  - rewrite existsb_first_names. apply filter_named_none.
Qed.

Lemma name_not_qty : k_qty <> k_name.
Proof. discriminate. Qed.

Lemma edition_ids (eds : list Card) :
  map_throwing (fun e => member (Some e) k_id) (map JObj eds)
  = Some (map (get k_id) eds).
Proof.
  induction eds as [|c r IH]; [reflexivity|].
  cbn [map map_throwing]. rewrite IH. reflexivity.
Qed.

(** X12.  The unique-names view has one row per card name, in the order
    in which the names first occur.  The row of a name is the first card
    of that name with, as its quantity, the sum of the quantities of all
    cards of the name, with their number as [_editions] and the cards
    themselves, in order, as [_editionCards]; the identifiers that a
    deck toggle of the row works on are those of all its editions. *)
Theorem unique_names_view (cards : list Card) :
  forallb card_ok cards = true ->
  forallb (fun c => primitive (get k_name c)) cards = true ->
  exists rows,
    displayCards true cards = Some rows
    /\ map (get k_name) rows = first_names (map (get k_name) cards)
    /\ Forall
         (fun row =>
            exists c1 rest,
              filter (named_like (get k_name row)) cards = c1 :: rest
              /\ get k_qty row = Some (JNum (Int (sum_quantities (c1 :: rest))))
              /\ get k_editions row
                 = Some (JNum (Int (Z.of_nat (length (c1 :: rest)))))
              /\ get k_editionCards row = Some (JArr (map JObj (c1 :: rest)))
              /\ editionIds row = Some (map (get k_id) (c1 :: rest))
              /\ (forall k, k <> k_qty -> k <> k_totalQty -> k <> k_editions ->
                            k <> k_editionCards -> get k row = get k c1))
         rows.
Proof.
  intros Hok Hprim. unfold displayCards. rewrite byName_rows by assumption.
  cbn [option_map]. eexists. split; [reflexivity|].
  assert (Hrow : forall n, In n (first_names (map (get k_name) cards)) ->
            exists c1 rest,
              filter (named_like n) cards = c1 :: rest
              /\ get k_name c1 = n
              /\ with_total (edition_row (c1 :: rest))
                 = set k_qty (JNum (Int (sum_quantities (c1 :: rest))))
                       (edition_row (c1 :: rest))).
  { intros n Hn. apply first_names_incl in Hn.
    apply in_map_iff in Hn as (c0 & <- & Hc0).
    destruct (filter (named_like (get k_name c0)) cards) as [|c1 rest] eqn:E.
    - assert (In c0 (filter (named_like (get k_name c0)) cards)).
      { apply filter_In. split; [assumption|]. rewrite forallb_forall in Hprim.
        exact (Hprim c0 Hc0). }
      rewrite E in *. contradiction.
    - exists c1, rest. split; [reflexivity|].
      assert (Hin : In c1 (filter (named_like (get k_name c0)) cards))
        by (rewrite E; now left).
      apply filter_In in Hin as [_ Hin]. apply strict_eq_true in Hin.
      split; [assumption|]. unfold with_total.
      destruct (edition_row_fields c1 rest) as (F1 & _). now rewrite F1. }
  split.
  - rewrite !map_map. rewrite <- (map_id (first_names (map (get k_name) cards))) at 2.
    apply map_ext_in. intros n Hn.
    destruct (Hrow n Hn) as (c1 & rest & E & Hname & W).
    cbn [snd]. rewrite E, W. rewrite get_set_other by exact name_not_qty.
    destruct (edition_row_fields c1 rest) as (_ & _ & _ & F4).
    rewrite F4 by discriminate. exact Hname.
  - apply Forall_forall. intros row Hin. rewrite map_map in Hin.
    apply in_map_iff in Hin as (n & <- & Hn).
    destruct (Hrow n Hn) as (c1 & rest & E & Hname & W).
    cbn [snd]. rewrite E, W.
    destruct (edition_row_fields c1 rest) as (F1 & F2 & F3 & F4).
    assert (Nm : get k_name (set k_qty (JNum (Int (sum_quantities (c1 :: rest))))
                                 (edition_row (c1 :: rest))) = n).
    { rewrite get_set_other by exact name_not_qty.
      rewrite F4 by discriminate. exact Hname. }
    rewrite Nm. exists c1, rest. split; [exact E|].
    split; [apply get_set_same|].
    split; [rewrite get_set_other by discriminate; exact F2|].
    split; [rewrite get_set_other by discriminate; exact F3|].
    split.
    + unfold editionIds.
      change (js "_editionCards") with k_editionCards.
      rewrite get_set_other by discriminate. rewrite F3. cbn [truthy].
      apply edition_ids.
    + intros k H1 H2 H3 H4. rewrite get_set_other by congruence.
      now apply F4.
Qed.

Lemma unique_names_view_witness :
  exists rows,
    displayCards true [set k_qty (JNum (Int 3)) card_atraxa;
                       set k_qty (JNum (Int 1)) card_bolt;
                       set k_qty (JNum (Int 2)) card_atraxa_promo] = Some rows
    /\ map (get k_name) rows
       = first_names (map (get k_name)
                          [set k_qty (JNum (Int 3)) card_atraxa;
                           set k_qty (JNum (Int 1)) card_bolt;
                           set k_qty (JNum (Int 2)) card_atraxa_promo])
    /\ Forall
         (fun row =>
            exists c1 rest,
              filter (named_like (get k_name row))
                     [set k_qty (JNum (Int 3)) card_atraxa;
                      set k_qty (JNum (Int 1)) card_bolt;
                      set k_qty (JNum (Int 2)) card_atraxa_promo] = c1 :: rest
              /\ get k_qty row = Some (JNum (Int (sum_quantities (c1 :: rest))))
              /\ get k_editions row
                 = Some (JNum (Int (Z.of_nat (length (c1 :: rest)))))
              /\ get k_editionCards row = Some (JArr (map JObj (c1 :: rest)))
              /\ editionIds row = Some (map (get k_id) (c1 :: rest))
              /\ (forall k, k <> k_qty -> k <> k_totalQty -> k <> k_editions ->
                            k <> k_editionCards -> get k row = get k c1))
         rows.
Proof.
  apply (@unique_names_view [set k_qty (JNum (Int 3)) card_atraxa;
                             set k_qty (JNum (Int 1)) card_bolt;
                             set k_qty (JNum (Int 2)) card_atraxa_promo]);
    reflexivity.
Defined.

Example unique_names_view_example :
  option_map (map (fun row => (get k_name row, get k_qty row, get k_editions row)))
             (displayCards true [set k_qty (JNum (Int 3)) card_atraxa;
                                 set k_qty (JNum (Int 1)) card_bolt;
                                 set k_qty (JNum (Int 2)) card_atraxa_promo])
  = Some [(str "Atraxa", Some (JNum (Int 5)), Some (JNum (Int 2)));
          (str "Lightning Bolt", Some (JNum (Int 1)), Some (JNum (Int 1)))].
Proof. reflexivity. Qed.

(** ** 8.13 A toggle with editions *)

Lemma in_editions_references (ids : list jsval) (e : json) :
  entry_ok e = true -> in_editions ids e = Some (references_any ids e).
Proof.
  intros H. destruct (entry_ok_inv e H) as (o & -> & _).
  reflexivity.
Qed.

(** X13.  [toggleCardInDeck] works on all editions of the card at once:
    a deck of the identifier that has an entry of any of the editions
    loses every entry of every edition, and keeps the other entries in
    their order; a deck of the identifier that has none gets one entry
    of quantity 1 for the identifier of the card; the other decks are
    not touched. *)
Theorem toggleCardInDeck_editions
        (card : Card) (deckId : jsval) (prev : list Deck) (ids : list jsval) :
  forallb deck_ok prev = true ->
  editionIds card = Some ids ->
  exists next,
    toggleCardInDeck card deckId prev = Some next
    /\ Forall2
         (fun dk dk' =>
            if strict_eq (deck_id dk) deckId
            then exists l,
                deck_cards dk = JArr l
                /\ dk' = with_cards dk
                           (JArr (if existsb (references_any ids) l
                                  then filter (fun e => negb (references_any ids e)) l
                                  else l ++ [deck_entry (get k_id card)]))
            else dk' = dk) prev next.
Proof.
  intros Hok Hids. unfold toggleCardInDeck, toggle_in. rewrite Hids.
  induction prev as [|dk r IH]; [eexists; split; [reflexivity|constructor]|].
  simpl in Hok. apply andb_prop in Hok as [Hk Hr].
  destruct (IH Hr) as (next & E & F). cbn [map_throwing]. rewrite E.
  destruct (strict_eq (deck_id dk) deckId) eqn:Hid; cbn [negb].
  - destruct (deck_ok_inv dk Hk) as (l & Hl & Hes). rewrite Hl.
    rewrite (some_throwing_existsb _ (references_any ids)).
    2:{ intros e He. apply in_editions_references.
        rewrite forallb_forall in Hes. auto. }
    destruct (existsb (references_any ids) l) eqn:Hex.
    + rewrite (filter_throwing_filter _ (fun e => negb (references_any ids e))).
      2:{ intros e He. rewrite in_editions_references; [reflexivity|].
          rewrite forallb_forall in Hes. auto. }
      cbn [option_map]. eexists. split; [reflexivity|]. constructor; [|exact F].
      rewrite Hid. exists l. now rewrite Hex.
    + eexists. split; [reflexivity|]. constructor; [|exact F].
      rewrite Hid. exists l. now rewrite Hex.
  - eexists. split; [reflexivity|]. constructor; [|exact F]. now rewrite Hid.
Qed.

Lemma toggleCardInDeck_editions_witness :
  exists next,
    toggleCardInDeck
      [(k_id, JStr (js "a2")); (k_name, JStr (js "Atraxa"));
       (k_editionCards, JArr [JObj card_atraxa_promo; JObj card_atraxa])]
      (str "1700000000000") [deck_sample Standard (str "")] = Some next
    /\ Forall2
         (fun dk dk' =>
            if strict_eq (deck_id dk) (str "1700000000000")
            then exists l,
                deck_cards dk = JArr l
                /\ dk' = with_cards dk
                           (JArr (if existsb (references_any [str "a2"; str "a1"]) l
                                  then filter (fun e => negb (references_any
                                                                [str "a2"; str "a1"] e)) l
                                  else l ++ [deck_entry (str "a2")]))
            else dk' = dk) [deck_sample Standard (str "")] next.
Proof.
  apply (@toggleCardInDeck_editions
           [(k_id, JStr (js "a2")); (k_name, JStr (js "Atraxa"));
            (k_editionCards, JArr [JObj card_atraxa_promo; JObj card_atraxa])]
           (str "1700000000000") [deck_sample Standard (str "")]
           [str "a2"; str "a1"]); reflexivity.
Defined.


(** ** 8.14 The sections of a deck *)

Lemma group_of_push (t t' : jstr) (c : Card) (g : list (jstr * list Card)) :
  group_of t' (group_push t c g)
  = if jstr_eqb t' t
    then Some (match group_of t g with Some cs => cs | None => [] end ++ [c])
    else group_of t' g.
Proof.
  induction g as [|[k cs] r IH]; simpl.
  - destruct (jstr_eqb t' t); reflexivity.
  - destruct (jstr_eqb t k) eqn:E; simpl.
    + apply jstr_eqb_eq in E. subst k.
      destruct (jstr_eqb t' t); reflexivity.
    + rewrite IH. destruct (jstr_eqb t' k) eqn:E'; [|reflexivity].
      apply jstr_eqb_eq in E'. subst k.
      destruct (jstr_eqb t' t) eqn:E2; [|reflexivity].
      apply jstr_eqb_eq in E2. subst t'. now rewrite jstr_eqb_refl in E.
Qed.

Lemma group_of_none (t : jstr) (g : list (jstr * list Card)) :
  group_of t g = None <-> ~ In t (map fst g).
Proof.
  induction g as [|[k cs] r IH]; simpl; [tauto|].
  destruct (jstr_eqb t k) eqn:E.
  - apply jstr_eqb_eq in E. subst k. split; [discriminate|]. intros H.
    exfalso. apply H. now left.
  - apply jstr_eqb_neq in E. rewrite IH. split.
    + intros H [H'|H']; [congruence|contradiction].
    + intros H H'. apply H. now right.
Qed.

Lemma group_push_keys (t : jstr) (c : Card) (g : list (jstr * list Card)) :
  NoDup (map fst g) -> NoDup (map fst (group_push t c g)).
Proof.
  induction g as [|[k cs] r IH]; simpl; intros H.
  - constructor; [easy|constructor].
  - inversion H as [|? ? Hk Hr]; subst.
    destruct (jstr_eqb t k) eqn:E; simpl; constructor; auto.
    intros Hin. apply Hk. apply group_of_none in Hk.
    apply jstr_eqb_neq in E.
    destruct (group_of k (group_push t c r)) eqn:G.
    + rewrite group_of_push in G.
      destruct (jstr_eqb k t) eqn:E'; [apply jstr_eqb_eq in E'; congruence|].
      congruence.
    + apply group_of_none in G. contradiction.
Qed.

Lemma groupedCards_snoc (l : list Card) (c : Card) :
  groupedCards (l ++ [c])
  = match groupedCards l, getTypePermutation (get (js "type_line") c) with
    | Some g', Some t =>
      if existsb (jstr_eqb t) Object_prototype then None
      else Some (group_push t c g')
    | _, _ => None
    end.
Proof. unfold groupedCards. now rewrite fold_left_app. Qed.

Lemma groupedCards_groups (deckCards : list Card) :
  forallb sectionable deckCards = true ->
  exists g,
    groupedCards deckCards = Some g
    /\ NoDup (map fst g)
    /\ forall t, group_of t g
                 = match filter (fun c => jstr_eqb (type_of c) t) deckCards with
                   | [] => None
                   | cs => Some cs
                   end.
Proof.
  induction deckCards as [|c l IH] using rev_ind; intros H.
  - exists []. repeat split. constructor.
  - rewrite forallb_app in H. apply andb_prop in H as [Hl Hc].
    simpl in Hc. rewrite andb_true_r in Hc.
    destruct (IH Hl) as (g & E & Hnd & Hg).
    rewrite groupedCards_snoc, E.
    unfold sectionable in Hc. unfold type_of in *.
    destruct (getTypePermutation (get (js "type_line") c)) as [t|] eqn:Ht;
      [|discriminate].
    apply negb_true_iff in Hc. rewrite Hc.
    eexists. split; [reflexivity|]. split; [now apply group_push_keys|].
    intros t'. rewrite group_of_push, filter_app. cbn [filter]. rewrite Ht.
    rewrite (Hg t), (Hg t').
    destruct (jstr_eqb t' t) eqn:E'.
    + apply jstr_eqb_eq in E'. subst t'. rewrite jstr_eqb_refl.
      destruct (filter _ l); reflexivity.
    + assert (E2 : jstr_eqb t t' = false).
      { apply jstr_eqb_neq. apply jstr_eqb_neq in E'. congruence. }
      rewrite E2, app_nil_r. reflexivity.
Qed.

Lemma insert_index_perm (i : N) (k : jstr) (l : list (N * jstr)) :
  Permutation ((i, k) :: l) (insert_index i k l).
Proof.
  induction l as [|[j k'] r IH]; simpl; [reflexivity|].
  destruct (i <? j)%N; [reflexivity|].
  rewrite perm_swap. now apply perm_skip.
Qed.

Lemma Object_keys_perm {A} (o : list (jstr * A)) :
  Permutation (Object_keys o) (map fst o).
Proof.
  unfold Object_keys. induction o as [|[k v] r IH]; simpl; [reflexivity|].
  destruct (array_index k) as [i|]; simpl.
  - rewrite <- (insert_index_perm i k). simpl. now apply perm_skip.
  - rewrite <- Permutation_middle. now apply perm_skip.
Qed.

Lemma indexOf_bound (t : jstr) (l : list jstr) (i : nat) :
  indexOf t l = Some i -> (i < length l)%nat.
Proof.
  revert i. induction l as [|z r IH]; simpl; [discriminate|].
  destruct (jstr_eqb t z); intros i H.
  - injection H as <-. lia.
  - destruct (indexOf t r); [|discriminate]. injection H as <-.
    specialize (IH n eq_refl). lia.
Qed.

Lemma by_group_order_sound (localeCompare : jstr -> jstr -> Z) (x y : jstr) :
  if num_positive (by_group_order localeCompare x y)
  then (group_rank y <= group_rank x)%nat
  else (group_rank x <= group_rank y)%nat.
Proof.
  unfold by_group_order, group_rank.
  destruct (indexOf x TYPE_GROUP_ORDER) as [ia|] eqn:Ex,
           (indexOf y TYPE_GROUP_ORDER) as [ib|] eqn:Ey.
  - rewrite inject_Z_positive.
    destruct (Z.ltb_spec 0 (Z.of_nat ia - Z.of_nat ib)); lia.
  - apply indexOf_bound in Ex.
    change (num_positive (Fin (-1))) with false. cbv iota. lia.
  - apply indexOf_bound in Ey.
    change (num_positive (Fin 1)) with true. cbv iota. lia.
  - destruct (num_positive _); lia.
Qed.

(** X14.  The deck editor lists the deck cards in sections, one per type
    permutation that occurs: every card is in the section of its type
    permutation, the cards of a section are in deck order, and the
    sections follow [TYPE_GROUP_ORDER], the types that it does not list
    coming last. *)
Theorem deck_sections_order
        (localeCompare : jstr -> jstr -> Z) (deckCards : list Card) :
  forallb sectionable deckCards = true ->
  exists secs,
    deck_sections localeCompare deckCards = Some secs
    /\ NoDup (map fst secs)
    /\ (forall t cs, In (t, cs) secs ->
                     cs <> []
                     /\ cs = filter (fun c => jstr_eqb (type_of c) t) deckCards)
    /\ (forall c, In c deckCards -> In (type_of c) (map fst secs))
    /\ StronglySorted (fun a b => (group_rank a <= group_rank b)%nat)
                      (map fst secs).
Proof.
  intros H. destruct (groupedCards_groups deckCards H) as (g & E & Hnd & Hg).
  unfold deck_sections. rewrite E. eexists. split; [reflexivity|].
  assert (Hkeys : map fst
                      (map (fun t => (t, match group_of t g with
                                         | Some cs => cs
                                         | None => []
                                         end)) (sortedTypes localeCompare g))
                  = sortedTypes localeCompare g).
  { rewrite map_map. apply map_id. }
  assert (Hperm : Permutation (sortedTypes localeCompare g) (map fst g)).
  { unfold sortedTypes. rewrite <- js_sort_perm. apply Object_keys_perm. }
  rewrite Hkeys. split; [|split; [|split]].
  - apply (Permutation_NoDup (Permutation_sym Hperm) Hnd).
  - intros t cs Hin. apply in_map_iff in Hin as (t' & Ht & Hin).
    injection Ht as -> <-.
    apply (Permutation_in _ Hperm) in Hin.
    rewrite (Hg t).
    destruct (filter (fun c => jstr_eqb (type_of c) t) deckCards) eqn:F.
    + exfalso. revert Hin. apply group_of_none. now rewrite Hg, F.
    + split; [discriminate|reflexivity].
  - intros c Hc. apply (Permutation_in _ (Permutation_sym Hperm)).
    destruct (group_of (type_of c) g) eqn:G.
    + destruct (in_dec (list_eq_dec N.eq_dec) (type_of c) (map fst g)) as [i|n];
        [exact i|]. apply group_of_none in n. congruence.
    + rewrite Hg in G.
      assert (In c (filter (fun c0 => jstr_eqb (type_of c0) (type_of c)) deckCards)).
      { apply filter_In. split; [assumption|apply jstr_eqb_refl]. }
      destruct (filter _ deckCards); [contradiction|discriminate].
  - unfold sortedTypes.
    apply (@js_sort_sorted jstr (by_group_order localeCompare) (fun _ => True)
             (fun a b => (group_rank a <= group_rank b)%nat)).
    + intros x y z _ _ _. lia.
    + intros x y _ _. apply by_group_order_sound.
    + apply Forall_forall. easy.
Qed.

Lemma deck_sections_order_witness :
  let land := [(k_id, JStr (js "l1")); (k_name, JStr (js "Island"));
               (js "type_line", JStr (js "Basic Land — Island"))] in
  let bear := [(k_id, JStr (js "c1")); (k_name, JStr (js "Grizzly Bears"));
               (js "type_line", JStr (js "Creature — Bear"))] in
  let scheme := [(k_id, JStr (js "s1")); (k_name, JStr (js "A Display of My Dark Power"));
                 (js "type_line", JStr (js "Scheme"))] in
  exists secs,
    deck_sections (fun _ _ => 0%Z) [land; scheme; bear; land] = Some secs
    /\ NoDup (map fst secs)
    /\ (forall t cs, In (t, cs) secs ->
                     cs <> []
                     /\ cs = filter (fun c => jstr_eqb (type_of c) t)
                                    [land; scheme; bear; land])
    /\ (forall c, In c [land; scheme; bear; land] -> In (type_of c) (map fst secs))
    /\ StronglySorted (fun a b => (group_rank a <= group_rank b)%nat)
                      (map fst secs).
Proof.
  intros land bear scheme.
  apply (@deck_sections_order (fun _ _ => 0%Z) [land; scheme; bear; land]).
  reflexivity.
Defined.

Example deck_sections_example :
  option_map (map (fun s => (fst s, length (snd s))))
    (deck_sections (fun _ _ => 0%Z)
       [[(js "type_line", JStr (js "Basic Land — Island"))];
        [(js "type_line", JStr (js "Scheme"))];
        [(js "type_line", JStr (js "Creature — Bear"))];
        [(js "type_line", JStr (js "Land"))]])
  = Some [(js "Creature", 1%nat); (js "Land", 2%nat); (js "Scheme", 1%nat)].
Proof. reflexivity. Qed.


(** ** 8.15 The combos that were found *)

Lemma dedupe_from_spec (l : list Variant) :
  forall seen,
    NoDup (map variant_id (dedupe_from seen l))
    /\ (forall v, In v (dedupe_from seen l) ->
                  In v l /\ ~ In (variant_id v) seen)
    /\ (forall v, In v l ->
                  In (variant_id v) seen
                  \/ In (variant_id v) (map variant_id (dedupe_from seen l))).
Proof.
  induction l as [|v r IH]; intros seen; simpl.
  - split; [constructor|]. split; intros v [].
  - destruct (existsb (jstr_eqb (variant_id v)) seen) eqn:E.
    + destruct (IH seen) as (H1 & H2 & H3). split; [assumption|]. split.
      * intros u Hu. destruct (H2 u Hu). auto.
      * intros u [<-|Hu]; [|auto]. left.
        apply existsb_exists in E as (x & Hx & Ex).
        apply jstr_eqb_eq in Ex. now subst.
    + destruct (IH (variant_id v :: seen)) as (H1 & H2 & H3).
      assert (Hv : ~ In (variant_id v) seen).
      { intros Hin. assert (existsb (jstr_eqb (variant_id v)) seen = true);
          [|congruence].
        apply existsb_exists. exists (variant_id v). split; [assumption|].
        apply jstr_eqb_refl. }
      split; [|split].
      * simpl. constructor; [|assumption]. intros Hin.
        apply in_map_iff in Hin as (u & Eu & Hu).
        destruct (H2 u Hu) as [_ Hn]. apply Hn. left. now symmetry.
      * intros u [<-|Hu]; [auto|].
        destruct (H2 u Hu) as [Hin Hn]. split; [auto|].
        intros Hs. apply Hn. now right.
      * intros u [<-|Hu]; [right; now left|].
        destruct (H3 u Hu) as [[Hs|Hs]|Hd]; [right; left; assumption|auto|].
        right. now right.
Qed.

Lemma dedupe_from_first (l : list Variant) :
  forall seen v,
    In v (dedupe_from seen l) ->
    exists pre post,
      l = pre ++ v :: post
      /\ forall u, In u pre -> variant_id u <> variant_id v.
Proof.
  induction l as [|x r IH]; intros seen v; simpl; [easy|].
  destruct (existsb (jstr_eqb (variant_id x)) seen) eqn:E.
  - intros Hv. destruct (dedupe_from_spec r seen) as (_ & H2 & _).
    destruct (H2 v Hv) as [_ Hn].
    destruct (IH seen v Hv) as (pre & post & -> & Hpre).
    exists (x :: pre), post. split; [reflexivity|].
    intros u [<-|Hu]; [|auto]. intros Eq. apply Hn. rewrite <- Eq.
    apply existsb_exists in E as (y & Hy & Ey).
    apply jstr_eqb_eq in Ey. now subst.
  - intros [<-|Hv].
    + exists [], r. split; [reflexivity|]. intros u [].
    + destruct (dedupe_from_spec r (variant_id x :: seen)) as (_ & H2 & _).
      destruct (H2 v Hv) as [_ Hn].
      destruct (IH _ v Hv) as (pre & post & -> & Hpre).
      exists (x :: pre), post. split; [reflexivity|].
      intros u [<-|Hu]; [|auto]. intros Eq. apply Hn. now left.
Qed.

(** X15.  The combos that [findCombos] stores have pairwise different
    ids; every id that a batch returned is among them; and each of them
    is the first variant of its id in the order of the batches, with the
    score of that variant. *)
Theorem found_combos_distinct
        (toLowerCase : jstr -> jstr) (names : list jsval)
        (batchResults : list (list Variant)) :
  let combos := found_combos toLowerCase names batchResults in
  NoDup (map (fun s => variant_id (variant s)) combos)
  /\ (forall v, In v (concat batchResults) ->
                In (variant_id v) (map (fun s => variant_id (variant s)) combos))
  /\ (forall s, In s combos ->
                s = score toLowerCase names (variant s)
                /\ exists pre post,
                    concat batchResults = pre ++ variant s :: post
                    /\ forall u, In u pre -> variant_id u <> variant_id (variant s)).
Proof.
  intros combos. subst combos. unfold found_combos, scored_combos.
  set (all := dedupe_from [] (concat batchResults)).
  pose proof (js_sort_perm (by_score) (map (score toLowerCase names) all)) as P.
  destruct (dedupe_from_spec (concat batchResults) []) as (H1 & H2 & H3).
  fold all in H1, H2, H3.
  assert (Hids : map (fun s => variant_id (variant s))
                     (map (score toLowerCase names) all)
                 = map variant_id all).
  { rewrite map_map. reflexivity. }
  split; [|split].
  - eapply Permutation_NoDup;
      [apply Permutation_map; exact P|]. now rewrite Hids.
  - intros v Hv.
    eapply Permutation_in; [apply Permutation_map; exact P|].
    rewrite Hids. destruct (H3 v Hv) as [[]|H]. exact H.
  - intros s Hs. apply (Permutation_in _ (Permutation_sym P)) in Hs.
    apply in_map_iff in Hs as (v & <- & Hv). split; [reflexivity|].
    exact (dedupe_from_first _ _ _ Hv).
Qed.

(** ** 8.16 The requests for colour identities *)

Lemma batches_from_concat (fuel : nat) :
  forall i unique,
    (length unique - i <= fuel)%nat ->
    concat (batches_from fuel i unique) = skipn i unique
    /\ Forall (fun b => (1 <= length b <= 75)%nat) (batches_from fuel i unique)
    /\ length (batches_from fuel i unique)
       = ((length unique - i + 74) / 75)%nat.
Proof.
  induction fuel as [|f IH]; intros i unique H; cbn [batches_from].
  - assert (E : (length unique - i = 0)%nat) by lia. rewrite E. cbn [concat length].
    split; [symmetry; apply skipn_all2; lia|]. split; [constructor|].
    symmetry. apply Nat.div_small. lia.
  - destruct (Nat.ltb_spec i (length unique)) as [Hi|Hi].
    + destruct (IH (i + 75)%nat unique) as (C & F & L); [lia|].
      cbn [concat length]. rewrite C, L. split; [|split].
      * replace (i + 75)%nat with (75 + i)%nat by lia.
        rewrite <- skipn_skipn. apply firstn_skipn.
      * constructor; [|exact F]. rewrite length_firstn, length_skipn. lia.
      * destruct (Nat.le_gt_cases 75 (length unique - i)) as [Hd|Hd].
        -- replace (length unique - i + 74)%nat
             with ((length unique - (i + 75) + 74) + 1 * 75)%nat by lia.
           rewrite Nat.div_add by lia. lia.
        -- replace (length unique - (i + 75))%nat with 0%nat by lia.
           replace (length unique - i + 74)%nat
             with ((length unique - i - 1) + 1 * 75)%nat by lia.
           rewrite Nat.div_add by lia.
           rewrite (Nat.div_small (0 + 74) 75) by lia.
           rewrite (Nat.div_small (length unique - i - 1) 75) by lia. reflexivity.
    + assert (E : (length unique - i = 0)%nat) by lia. rewrite E.
      cbn [concat length].
      split; [symmetry; apply skipn_all2; lia|]. split; [constructor|].
      symmetry. apply Nat.div_small. lia.
Qed.

Lemma set_add_distinct (s : list json) (v : json) :
  ForallOrdPairs (fun a b => strict_eq (Some b) (Some a) = false) s ->
  ForallOrdPairs (fun a b => strict_eq (Some b) (Some a) = false) (set_add s v).
Proof.
  unfold set_add. destruct (existsb _ s) eqn:E; [easy|].
  intros H. induction H as [|a r Ha Hr IH]; simpl.
  - repeat constructor.
  - simpl in E. apply orb_false_iff in E as [Ea Er].
    constructor; [|now apply IH].
    apply Forall_app. split; [assumption|]. constructor; [|constructor].
    change (strict_eq (Some v) (Some a) = false). now rewrite strict_eq_sym.
Qed.

Lemma Set_of_distinct (l s : list json) :
  ForallOrdPairs (fun a b => strict_eq (Some b) (Some a) = false) s ->
  ForallOrdPairs (fun a b => strict_eq (Some b) (Some a) = false)
                 (fold_left set_add l s).
Proof.
  revert s. induction l as [|v r IH]; simpl; intros s H; [assumption|].
  apply IH. now apply set_add_distinct.
Qed.

(** X16.  [fetchColorIdentities] asks for each name that is not empty
    once, whatever the number of its occurrences, in requests of 75 names
    at most and 1 at least: the requests, one after the other, carry the
    different names in the order of their first occurrence, and their
    number is the number of names divided by 75, rounded up. *)
Theorem color_identity_batches_cover (names : list jsval) :
  concat (color_identity_batches names) = unique_names names
  /\ Forall (fun b => (1 <= length b <= 75)%nat) (color_identity_batches names)
  /\ length (color_identity_batches names)
     = ((length (unique_names names) + 74) / 75)%nat
  /\ (forall v, In v (unique_names names) <-> In (Some v) names /\ truthy v = true)
  /\ ForallOrdPairs (fun a b => strict_eq (Some b) (Some a) = false)
                    (unique_names names).
Proof.
  unfold color_identity_batches.
  destruct (@batches_from_concat (length (unique_names names)) 0%nat
                                 (unique_names names))
    as (C & F & L); [lia|].
  split; [exact C|]. split; [exact F|]. split; [now rewrite L, Nat.sub_0_r|].
  split.
  - intros v. unfold unique_names, Set_of. rewrite fold_set_add_in.
    rewrite in_flat_map. split.
    + intros [[]|(n & Hn & Hv)]. destruct n as [x|]; [|contradiction].
      destruct (truthy x) eqn:T; [|contradiction].
      destruct Hv as [<-|[]]. auto.
    + intros [Hn T]. right. exists (Some v). split; [assumption|].
      rewrite T. now left.
  - apply Set_of_distinct. constructor.
Qed.

Example color_identity_batches_example :
  map (@length json)
      (color_identity_batches
         (map (fun n => Some (JNum (Int (Z.of_nat n)))) (seq 0 200)
              ++ [None; Some (JStr []); Some (JNum (Int 7))]))
  = [75; 75; 49]%nat.
Proof. vm_compute. reflexivity. Qed.


(** ** 8.17 [pool] *)

Section PoolProperties.

Variable R : Type.

Lemma store_length (i : nat) (v : R) (l : list (option R)) :
  length (store i v l) = length l.
Proof.
  revert i. induction l as [|x r IH]; intros [|j]; simpl; auto.
Qed.

Lemma store_same (i : nat) (v : R) (l : list (option R)) :
  (i < length l)%nat -> nth i (store i v l) None = Some v.
Proof.
  revert i. induction l as [|x r IH]; intros [|j]; simpl; intros H; try lia; auto.
  apply IH. lia.
Qed.

Lemma store_other (i j : nat) (v : R) (l : list (option R)) :
  i <> j -> nth j (store i v l) None = nth j l None.
Proof.
  revert i j. induction l as [|x r IH]; intros [|i] [|j]; simpl; intros H;
    try reflexivity; try congruence.
  apply IH. congruence.
Qed.

Lemma pool_start_runners (n j : nat) :
  (j <= n)%nat ->
  Nat.iter j (@start_runner R)
           {| task_count := n; next_index := O;
              results := repeat None n; running := [] |}
  = {| task_count := n; next_index := j;
       results := repeat None n; running := seq 0 j |}.
Proof.
  induction j as [|j IH]; intros H; [reflexivity|].
  rewrite Nat.iter_succ, IH by lia. unfold start_runner.
  cbn [task_count next_index results running].
  destruct (Nat.ltb_spec j n); [|lia]. now rewrite seq_S.
Qed.

Lemma pool_start_inv (n : nat) (concurrency : Z) :
  pool_inv n (Z.to_nat (Z.min concurrency (Z.of_nat n))) []
           (pool_start R n concurrency).
Proof.
  unfold pool_start. set (k := Z.to_nat (Z.min concurrency (Z.of_nat n))).
  assert (Hk : (k <= n)%nat) by (unfold k; lia).
  rewrite pool_start_runners by assumption.
  unfold pool_inv. cbn [task_count next_index results running map].
  split; [reflexivity|]. split; [assumption|]. split; [apply repeat_length|].
  split; [apply seq_NoDup|]. split; [constructor|].
  split.
  { intros i. rewrite in_seq. simpl. split; [intros; left; lia|].
    intros [H|[]]. lia. }
  split; [intros i _ []|]. split; [intros i v []|].
  split; [intros i _; apply nth_repeat|].
  rewrite length_seq. split; [lia|reflexivity].
Qed.

Lemma filter_remove_length (i : nat) (l : list nat) :
  NoDup l -> In i l ->
  S (length (filter (fun j => negb (Nat.eqb i j)) l)) = length l.
Proof.
  induction 1 as [|x r Hx Hr IH]; simpl; [easy|].
  intros [->|Hi].
  - rewrite Nat.eqb_refl. simpl. f_equal.
    clear IH Hr. induction r as [|y r IH]; simpl; [reflexivity|].
    destruct (Nat.eqb_spec i y) as [->|Hy]; simpl.
    + exfalso. apply Hx. now left.
    + f_equal. apply IH. intros H. apply Hx. now right.
  - destruct (Nat.eqb_spec i x) as [->|Hne]; [contradiction|]. simpl.
    f_equal. now apply IH.
Qed.

Lemma settle_inv (n k : nat) (done : list (nat * R)) (p : PoolState R)
      (i : nat) (v : R) :
  pool_inv n k done p -> In i (running p) ->
  exists p', settle i v p = Some p' /\ pool_inv n k (done ++ [(i, v)]) p'.
Proof.
  intros (H1 & H2 & H3 & H4 & H5 & H6 & H7 & H8 & H9 & H10 & H11) Hi.
  unfold settle.
  assert (E : existsb (Nat.eqb i) (running p) = true).
  { apply existsb_exists. exists i. split; [assumption|apply Nat.eqb_refl]. }
  rewrite E. eexists. split; [reflexivity|].
  set (run1 := filter (fun j => negb (Nat.eqb i j)) (running p)).
  assert (Hrun1 : forall j, In j run1 <-> In j (running p) /\ j <> i).
  { intros j. unfold run1. rewrite filter_In. split; intros [A B]; split; auto.
    - apply negb_true_iff in B. apply Nat.eqb_neq in B. congruence.
    - apply negb_true_iff. apply Nat.eqb_neq. congruence. }
  assert (Hlen : S (length run1) = length (running p))
    by now apply filter_remove_length.
  assert (Hi_lt : (i < next_index p)%nat) by (apply H6; now left).
  assert (Hi_new : ~ In i (map fst done)) by now apply H7.
  assert (Hdone : map fst (done ++ [(i, v)]) = map fst done ++ [i])
    by now rewrite map_app.
  assert (Hnd : NoDup (map fst (done ++ [(i, v)]))).
  { rewrite Hdone. apply NoDup_app; [assumption|repeat constructor; easy|].
    intros x Hx [<-|[]]. contradiction. }
  assert (Hres : forall j w, In (j, w) (done ++ [(i, v)]) ->
                             nth j (store i v (results p)) None = Some w).
  { intros j w Hin. apply in_app_or in Hin as [Hin|[Hin|[]]].
    - rewrite store_other; [now apply H8|]. intros <-. apply Hi_new.
      apply in_map_iff. now exists (i, w).
    - injection Hin as <- <-. apply store_same. lia. }
  assert (Hnone : forall j, ~ In j (map fst (done ++ [(i, v)])) ->
                            nth j (store i v (results p)) None = None).
  { intros j Hj. rewrite Hdone in Hj. rewrite store_other.
    - apply H9. intros Hin. apply Hj. apply in_or_app. now left.
    - intros <-. apply Hj. apply in_or_app. right. now left. }
  unfold start_runner. cbn [task_count next_index results running].
  rewrite H1. destruct (Nat.ltb_spec (next_index p) n) as [Hlt|Hge].
  - unfold pool_inv. cbn [task_count next_index results running].
    split; [reflexivity|]. split; [lia|]. split; [now rewrite store_length|].
    split.
    { apply NoDup_app; [now apply NoDup_filter|repeat constructor; easy|].
      intros x Hx [<-|[]]. apply Hrun1 in Hx as [Hx _].
      assert ((next_index p < next_index p)%nat) by (apply H6; now left). lia. }
    split; [assumption|]. split.
    { intros j. rewrite Hdone, !in_app_iff. simpl. rewrite Hrun1. split.
      - intros Hj. destruct (Nat.eq_dec j (next_index p)) as [->|Hne]; [tauto|].
        assert (Hj' : (j < next_index p)%nat) by lia.
        apply H6 in Hj' as [Hr|Hd]; [|tauto].
        destruct (Nat.eq_dec j i) as [->|Hji]; tauto.
      - intros [[[Hr _]|[<-|[]]]|[Hd|[<-|[]]]]; try lia.
        + assert ((j < next_index p)%nat) by (apply H6; now left). lia.
        + assert ((j < next_index p)%nat) by (apply H6; now right). lia. }
    split.
    { intros j Hj. rewrite Hdone. rewrite in_app_iff in *. simpl.
      intros [Hd|[<-|[]]].
      - destruct Hj as [Hj|[<-|[]]].
        + apply Hrun1 in Hj as [Hj _]. exact (H7 j Hj Hd).
        + assert ((next_index p < next_index p)%nat) by (apply H6; now right). lia.
      - destruct Hj as [Hj|[Hj|[]]].
        + apply Hrun1 in Hj as [_ Hj]. congruence.
        + lia. }
    split; [assumption|]. split; [assumption|].
    rewrite length_app. simpl. specialize (H11 Hlt). split; [lia|]. intros _. lia.
  - unfold pool_inv. cbn [task_count next_index results running].
    split; [reflexivity|]. split; [assumption|]. split; [now rewrite store_length|].
    split; [now apply NoDup_filter|]. split; [assumption|]. split.
    { intros j. rewrite Hdone, in_app_iff. simpl. rewrite Hrun1. split.
      - intros Hj. apply H6 in Hj as [Hr|Hd]; [|tauto].
        destruct (Nat.eq_dec j i) as [->|Hji]; tauto.
      - intros [[Hr _]|[Hd|[<-|[]]]]; try assumption; apply H6; tauto. }
    split.
    { intros j Hj. rewrite Hdone, in_app_iff. simpl.
      apply Hrun1 in Hj as [Hj Hne]. intros [Hd|[<-|[]]]; [|congruence].
      exact (H7 j Hj Hd). }
    split; [assumption|]. split; [assumption|]. split; [lia|]. intros Hlt. lia.
Qed.

Lemma settle_running (i : nat) (v : R) (p p' : PoolState R) :
  settle i v p = Some p' -> In i (running p).
Proof.
  unfold settle. destruct (existsb (Nat.eqb i) (running p)) eqn:E; [|discriminate].
  intros _. apply existsb_exists in E as (j & Hj & Ej).
  apply Nat.eqb_eq in Ej. now subst.
Qed.

Lemma settle_all_inv (n k : nat) (events : list (nat * R)) :
  forall done p p',
    pool_inv n k done p -> settle_all events p = Some p' ->
    pool_inv n k (done ++ events) p'.
Proof.
  induction events as [|[i v] rest IH]; intros done p p' H; simpl.
  - intros E. injection E as <-. now rewrite app_nil_r.
  - destruct (settle i v p) as [p1|] eqn:E; [|discriminate].
    intros Hrest. pose proof (@settle_running i v p p1 E) as Hi.
    destruct (@settle_inv n k done p i v H Hi) as (p2 & E2 & H2).
    rewrite E in E2. injection E2 as <-.
    specialize (IH _ _ _ H2 Hrest). now rewrite <- app_assoc in IH.
Qed.

End PoolProperties.

(** X17.  [pool] never has more tasks under way than [concurrency], nor
    than there are tasks, and starts every task once at most, in the
    order of the array.  When it returns, with a concurrency of 1 at
    least, every task was run exactly once and the result of task [i] is
    at index [i], in whatever order the tasks resolved.  With a
    concurrency of 0 or less, no task is ever started and the array that
    is returned has only holes. *)
Theorem pool_bounded_and_ordered
        (R : Type) (n : nat) (concurrency : Z) (events : list (nat * R))
        (p : PoolState R) :
  settle_all events (pool_start R n concurrency) = Some p ->
  (Z.of_nat (length (running p)) <= Z.max 0 concurrency)%Z
  /\ (length (running p) <= n)%nat
  /\ NoDup (running p ++ map fst events)
  /\ (forall i, In i (running p ++ map fst events) <-> (i < next_index p)%nat)
  /\ (forall res,
         pool_result p = Some res -> (1 <= concurrency)%Z ->
         Permutation (map fst events) (seq 0 n)
         /\ length res = n
         /\ forall i v, In (i, v) events -> nth i res None = Some v)
  /\ ((concurrency <= 0)%Z ->
      events = [] /\ pool_result p = Some (repeat None n)).
Proof.
  intros H.
  pose proof (@settle_all_inv R n (Z.to_nat (Z.min concurrency (Z.of_nat n)))
                events [] _ p (pool_start_inv R n concurrency) H) as Inv.
  cbn [app] in Inv.
  destruct Inv as (H1 & H2 & H3 & H4 & H5 & H6 & H7 & H8 & H9 & H10 & H11).
  split; [lia|]. split; [lia|]. split.
  { apply NoDup_app; assumption. }
  split.
  { intros i. rewrite in_app_iff. symmetry. apply H6. }
  split.
  - intros res Hres Hc. unfold pool_result in Hres.
    destruct (running p) as [|x r] eqn:Er; [|discriminate].
    injection Hres as <-.
    assert (Hn : next_index p = n).
    { destruct (Nat.eq_dec (next_index p) n) as [|Hne]; [assumption|].
      assert (Hlt : (next_index p < n)%nat) by lia.
      specialize (H11 Hlt). simpl in H11. lia. }
    split; [|split; [assumption|]].
    + apply NoDup_Permutation; [assumption|apply seq_NoDup|].
      intros i. rewrite in_seq. split.
      * intros Hi. assert ((i < next_index p)%nat) by (apply H6; now right). lia.
      * intros Hi. assert (Hi' : (i < next_index p)%nat) by lia.
        apply H6 in Hi' as [[]|Hd]. exact Hd.
    + exact H8.
  - intros Hc.
    assert (E0 : pool_start R n concurrency
                 = {| task_count := n; next_index := 0;
                      results := repeat None n; running := [] |}).
    { unfold pool_start. replace (Z.to_nat (Z.min concurrency (Z.of_nat n))) with 0%nat by lia.
      reflexivity. }
    rewrite E0 in H. destruct events as [|[i v] rest].
    + injection H as <-. split; reflexivity.
    + discriminate H.
Qed.

Lemma pool_bounded_and_ordered_witness :
  let events := [(1%nat, js "b"); (0%nat, js "a"); (3%nat, js "d"); (2%nat, js "c")] in
  exists p,
    settle_all events (pool_start jstr 4 3) = Some p
    /\ (Z.of_nat (length (running p)) <= Z.max 0 3)%Z
    /\ (length (running p) <= 4)%nat
    /\ NoDup (running p ++ map fst events)
    /\ (forall i, In i (running p ++ map fst events) <-> (i < next_index p)%nat)
    /\ (forall res,
           pool_result p = Some res -> (1 <= 3)%Z ->
           Permutation (map fst events) (seq 0 4)
           /\ length res = 4%nat
           /\ forall i v, In (i, v) events -> nth i res None = Some v)
    /\ ((3 <= 0)%Z -> events = [] /\ pool_result p = Some (repeat None 4)).
Proof.
  intros events. eexists. split; [reflexivity|].
  apply (@pool_bounded_and_ordered jstr 4 3 events). reflexivity.
Defined.

Example pool_example :
  option_map (fun p => pool_result p)
    (settle_all [(1%nat, js "b"); (0%nat, js "a"); (3%nat, js "d"); (2%nat, js "c")]
                (pool_start jstr 4 3))
  = Some (Some [Some (js "a"); Some (js "b"); Some (js "c"); Some (js "d")]).
Proof. reflexivity. Qed.
